(** * Beider-Morse phonetic matching engine (bmpm-engine.ts)

    A shallow embedding of the engine of [src/bmpm-engine.ts] and the
    properties of its encoder, matcher and similarity score, with the rule
    tables, the merger table and the transliterators of [src/bmpm.ts].

    Modelling conventions.
    - A JavaScript string is the list of its UTF-16 code units ([jsstring]);
      [length] is [String.prototype.length].
    - [Set<string>] is a [gset jsstring]; [Record<string, T>] holding rule
      sets is a [gmap jsstring T]; the merger table, whose key order is read
      by [Object.keys], is an association list in key order.
    - Cursor positions and consumed-lengths are natural numbers (a negative
      or fractional [consumes] is outside the model); [priority],
      [maxExpansions] and [minKeyLength] are integers; heuristic weights,
      [topLanguages] and the similarity score are exact rationals instead of
      doubles (NaN and the infinities are outside the model).
    - [cfg.languageRuleSets[language]] is a lookup among the rule sets of
      the configuration: a language that is no key of the object and names
      a member inherited from [Object.prototype] is outside the model.
    - The Unicode tables behind [toLowerCase] and [normalize] are not part of
      the repository: they are the fields of [Builtins], passed explicitly.
    - The two [while] loops of the engine need not terminate; they are
      written with a fuel argument and return [None] when it runs out, and
      so do the functions that call them. *)

From Stdlib Require Import ZArith QArith Lia Lqa ZifyBool ZifyN.
From Stdlib Require Import Sorted Permutation.
From Stdlib Require Import Strings.String Strings.Ascii.
From stdpp Require Import base option list sorting gmap fin_sets.

Close Scope Q_scope.
Close Scope Z_scope.
Open Scope string_scope.
Open Scope list_scope.
Open Scope nat_scope.

(* ------------------------------------------------------------------ *)
(** ** Strings *)

Abbreviation char := N (only parsing).
Abbreviation jsstring := (list N) (only parsing).

(** Code units of an ASCII literal. *)
Definition str (s : string) : jsstring :=
  List.map N_of_ascii (list_ascii_of_string s).

Definition char_in_range (lo hi c : char) : bool :=
  ((lo <=? c) && (c <=? hi))%N.
Arguments char_in_range (lo hi c)%_N.

(** ECMAScript WhiteSpace and LineTerminator code units: what [\s] matches
    and what [trim] strips. *)
Definition isWhiteSpace (c : char) : bool :=
  char_in_range 9 13 c || (c =? 32)%N || (c =? 160)%N || (c =? 5760)%N
  || char_in_range 8192 8202 c || (c =? 8232)%N || (c =? 8233)%N
  || (c =? 8239)%N || (c =? 8287)%N || (c =? 12288)%N || (c =? 65279)%N.

Fixpoint trimStart (s : jsstring) : jsstring :=
  match s with
  | c :: s' => if isWhiteSpace c then trimStart s' else s
  | [] => []
  end.

Fixpoint trimEnd (s : jsstring) : jsstring :=
  match s with
  | [] => []
  | c :: s' =>
      match trimEnd s' with
      | [] => if isWhiteSpace c then [] else [c]
      | t => c :: t
      end
  end.

Definition trim (s : jsstring) : jsstring := trimEnd (trimStart s).

(** [s.startsWith(p)]. *)
Fixpoint isPrefix (p s : jsstring) : bool :=
  match p, s with
  | [], _ => true
  | a :: p', b :: s' => (a =? b)%N && isPrefix p' s'
  | _ :: _, [] => false
  end.

(** [text.startsWith(p, pos)]; a [pos] past the end is clamped to it. *)
Definition startsWith (text p : jsstring) (pos : nat) : bool :=
  isPrefix p (drop pos text).

(** [s.replace(/[class]/g, rep)]: every code unit of the class is replaced. *)
Definition replaceEach (cls : char -> bool) (rep : jsstring) (s : jsstring)
  : jsstring :=
  flat_map (fun c => if cls c then rep else [c]) s.

(** [s.replace(/[class]+/g, rep)]: every maximal run of code units of the
    class is replaced by one [rep]. [inRun] tells that the previous code unit
    belonged to the run being replaced. *)
Fixpoint replaceRunsFrom (cls : char -> bool) (rep : jsstring) (inRun : bool)
  (s : jsstring) : jsstring :=
  match s with
  | [] => []
  | c :: s' =>
      if cls c
      then (if inRun then [] else rep) ++ replaceRunsFrom cls rep true s'
      else c :: replaceRunsFrom cls rep false s'
  end.

Definition replaceRuns (cls : char -> bool) (rep s : jsstring) : jsstring :=
  replaceRunsFrom cls rep false s.

(** [Array.prototype.sort(cmp)]: a stable sort, so [a] stays before a later
    [b] unless [cmp(a, b) > 0]. [after a b] is that test; the sort is written
    as insertion from the right. *)
Fixpoint sortInsert {A} (after : A -> A -> bool) (x : A) (l : list A)
  : list A :=
  match l with
  | [] => [x]
  | y :: l' => if after x y then y :: sortInsert after x l' else x :: l
  end.

Definition jsSort {A} (after : A -> A -> bool) (l : list A) : list A :=
  foldr (sortInsert after) [] l.

(** [x || y] on numbers: [x] unless it is zero. *)
(** [ToIntegerOrInfinity] on a finite number: the fraction is dropped,
    towards zero. *)
Definition toIntegerOrInfinity (q : Q) : Z :=
  Z.quot (Qnum q) (Z.pos (Qden q)).

(** [a.slice(0, end)]: a negative [end] counts from the end of the array,
    and the result is empty when [end] falls before the start. *)
Definition sliceTo {A} (end_ : Q) (a : list A) : list A :=
  let len := Z.of_nat (length a) in
  let relativeEnd := toIntegerOrInfinity end_ in
  let final :=
    if (relativeEnd <? 0)%Z then Z.max (len + relativeEnd) 0
    else Z.min relativeEnd len in
  take (Z.to_nat final) a.

Definition jsOr (x y : Z) : Z := if (x =? 0)%Z then y else x.

(* ------------------------------------------------------------------ *)
(** ** Data model *)

Inductive NameType := GENERIC | ASHKENAZI | SEPHARDIC.

Inductive RuleType := EXACT | APPROX.

Record Rule := {
  pattern : jsstring;
  outputs : list jsstring;
  priority : Z;
  lctx : option (jsstring -> bool);
  rctx : option (jsstring -> bool);
  consumes : option nat;
}.

Record LanguageRules := {
  rules_language : jsstring;
  rules : list Rule;
}.

Record LanguageHeuristic := {
  heur_language : jsstring;
  weight : Q;
  predicate : jsstring -> bool;
  transliterator : option (jsstring -> jsstring);
}.

Record BMPMConfig := {
  nameType : NameType;
  ruleType : RuleType;
  maxExpansions : Z;
  minKeyLength : Z;
  collapseDuplicates : bool;
  languageHeuristics : list LanguageHeuristic;
  languageRuleSets : gmap jsstring LanguageRules;
  mergerTable : option (list (jsstring * jsstring));
  topLanguages : option Q;
}.

Record EncodeState := {
  pos : nat;
  key : jsstring;
}.

Record EncodeResult := {
  res_language : jsstring;
  keys : gset jsstring;
}.

(** An entry of the list [detectLanguages] returns. *)
Record Candidate := {
  cand_language : jsstring;
  score : Q;
}.

(** The built-in string functions whose Unicode tables live outside the
    repository. *)
Record Builtins := {
  toLowerCase : jsstring -> jsstring;
  normalizeNFC : jsstring -> jsstring;
  normalizeNFKD : jsstring -> jsstring;
}.

(* ------------------------------------------------------------------ *)
(** ** Utilities *)

Definition isCombiningMark (c : char) : bool := char_in_range 768 879 c.

Definition isLowerAsciiLetter (c : char) : bool := char_in_range 97 122 c.

(** The class [[a-z\u00df\u00e4\u00f6\u00fc\s]]. *)
Definition isLetterOrSpace (c : char) : bool :=
  isLowerAsciiLetter c || (c =? 223)%N || (c =? 228)%N || (c =? 246)%N
  || (c =? 252)%N || isWhiteSpace c.

Definition preprocess (U : Builtins) (raw : jsstring) : jsstring :=
  let lower := toLowerCase U raw in
  let nfkd := normalizeNFKD U lower in
  let noMarks := replaceEach isCombiningMark [] nfkd in
  let lettersSpaces :=
    replaceRuns (fun c => negb (isLetterOrSpace c)) (str " ") noMarks in
  let mapped :=
    replaceEach (N.eqb 252%N) (str "ue")
      (replaceEach (N.eqb 246%N) (str "oe")
         (replaceEach (N.eqb 228%N) (str "ae")
            (replaceEach (N.eqb 223%N) (str "ss") lettersSpaces))) in
  trim (replaceRuns isWhiteSpace (str " ") mapped).

(** [/[aeiouy]/.test(ch)] for a one-code-unit [ch]. *)
Definition isVowel (ch : char) : bool :=
  existsb (N.eqb ch) (str "aeiouy").

Fixpoint collapseRepeatsFrom (prev : char) (s : jsstring) : jsstring :=
  match s with
  | [] => []
  | c :: s' =>
      if (c =? prev)%N then collapseRepeatsFrom c s'
      else c :: collapseRepeatsFrom c s'
  end.

Definition collapseRepeats (s : jsstring) : jsstring :=
  match s with
  | [] => []
  | c :: s' => c :: collapseRepeatsFrom c s'
  end.

(** [merger[sym]] for a key [sym] of the table. *)
Fixpoint mergerGet (merger : list (jsstring * jsstring)) (sym : jsstring)
  : jsstring :=
  match merger with
  | [] => []
  | (k, v) :: merger' =>
      if bool_decide (k = sym) then v else mergerGet merger' sym
  end.

(** The [while (i < key.length)] loop of [applyMergerTable]; [rest] is
    [key.slice(i)]. A matched symbol of length zero leaves [i] where it was,
    so the loop can run forever: [None] is "out of fuel". *)
Fixpoint mergerLoop (fuel : nat) (symbols : list jsstring)
  (merger : list (jsstring * jsstring)) (rest out : jsstring)
  : option jsstring :=
  match fuel with
  | O => None
  | S fuel' =>
      match rest with
      | [] => Some out
      | c :: rest' =>
          match List.find (fun sym => isPrefix sym rest) symbols with
          | Some sym =>
              mergerLoop fuel' symbols merger (drop (length sym) rest)
                (out ++ mergerGet merger sym)
          | None => mergerLoop fuel' symbols merger rest' (out ++ [c])
          end
      end
  end.

Definition longerFirst (a b : jsstring) : bool :=
  (0 <? Z.of_nat (length b) - Z.of_nat (length a))%Z.

Definition applyMergerTable (fuel : nat) (key : jsstring)
  (merger : option (list (jsstring * jsstring))) : option jsstring :=
  match merger with
  | None => Some key
  | Some m =>
      let symbols := jsSort longerFirst (List.map fst m) in
      mergerLoop fuel symbols m key []
  end.

Definition fallbackMapChar (ch : char) (ruleType : RuleType) : jsstring :=
  match ruleType with
  | EXACT => if isVowel ch then str "A" else []
  | APPROX => []
  end.

(* ------------------------------------------------------------------ *)
(** ** Language detection *)

Definition mkCandidate (l : string) (s : Q) : Candidate :=
  {| cand_language := str l; score := s |}.

Definition defaults (nt : NameType) : list Candidate :=
  match nt with
  | GENERIC =>
      [mkCandidate "english" 1; mkCandidate "german" 1;
       mkCandidate "french" 1]
  | ASHKENAZI =>
      [mkCandidate "yiddish" 2; mkCandidate "german" 1;
       mkCandidate "polish" 1; mkCandidate "russian" 1;
       mkCandidate "hebrew" 1]
  | SEPHARDIC =>
      [mkCandidate "spanish" 2; mkCandidate "portuguese" 1;
       mkCandidate "hebrew" 1]
  end.

Definition higherScoreFirst (a b : Candidate) : bool :=
  negb (Qle_bool (score b - score a) 0).

Definition detectLanguages (name : jsstring) (cfg : BMPMConfig)
  : list Candidate :=
  let fired :=
    flat_map
      (fun h =>
         if predicate h name
         then [{| cand_language := heur_language h; score := weight h |}]
         else [])
      (languageHeuristics cfg) in
  let candidates :=
    match fired with
    | [] => defaults (nameType cfg)
    | _ => fired
    end in
  let total := fold_left (fun acc c => (acc + score c)%Q) candidates 0%Q in
  let normalized :=
    if Qeq_bool total 0 then candidates
    else
      List.map
        (fun c =>
           {| cand_language := cand_language c;
              score := (score c / total)%Q |})
        candidates in
  let sorted := jsSort higherScoreFirst normalized in
  match topLanguages cfg with
  | Some n => if Qeq_bool n 0 then sorted else sliceTo n sorted
  | None => sorted
  end.

Definition transliterateForLanguage (name language : jsstring)
  (cfg : BMPMConfig) : jsstring :=
  match
    List.find (fun x => bool_decide (heur_language x = language))
      (languageHeuristics cfg)
  with
  | Some h =>
      match transliterator h with
      | Some f => f name
      | None => name
      end
  | None => name
  end.

(* ------------------------------------------------------------------ *)
(** ** Encoding engine *)

(** [r.consumes ?? r.pattern.length]. *)
Definition consumed (r : Rule) : nat :=
  default (length (pattern r)) (consumes r).

Definition ctxHolds (ctx : option (jsstring -> bool)) (s : jsstring) : bool :=
  match ctx with
  | Some f => f s
  | None => true
  end.

(** The body of the [for] loop of [selectApplicableRules]: does [r] go to
    [matches]? *)
Definition ruleMatches (text : jsstring) (pos : nat) (r : Rule) : bool :=
  let left := take pos text in
  if negb (startsWith text (pattern r) pos) then false
  else
    let right := drop (pos + consumed r) text in
    ctxHolds (lctx r) left && ctxHolds (rctx r) right.

(** [Math.max(...l)] on a list that is not empty. *)
Definition maxZ (l : list Z) : Z := foldr Z.max (hd 0%Z l) l.

(** The same on natural numbers. *)
Definition maxNat (l : list nat) : nat := foldr Nat.max 0 l.

Definition selectApplicableRules (text : jsstring) (pos : nat)
  (rules : list Rule) : list Rule :=
  let matches := List.filter (ruleMatches text pos) rules in
  match matches with
  | [] => []
  | _ =>
      let maxPr := maxZ (List.map priority matches) in
      let top := List.filter (fun m => (priority m =? maxPr)%Z) matches in
      let maxLen := maxNat (List.map consumed top) in
      List.filter (fun m => consumed m =? maxLen) top
  end.

(** The comparator of [pruneFrontier] returns a positive number. *)
Definition pruneAfter (a b : EncodeState) : bool :=
  (0 <? jsOr (Z.of_nat (pos b) - Z.of_nat (pos a))
          (Z.of_nat (length (key a)) - Z.of_nat (length (key b))))%Z.

Definition pruneFrontier (frontier : list EncodeState) (cap : nat)
  : list EncodeState :=
  take cap (jsSort pruneAfter frontier).

Definition finalizeKey (fuel : nat) (key : jsstring) (cfg : BMPMConfig)
  : option jsstring :=
  match ruleType cfg with
  | APPROX =>
      match applyMergerTable fuel key (mergerTable cfg) with
      | Some out => Some (collapseRepeats out)
      | None => None
      end
  | EXACT => Some key
  end.

(** The variables of the [while] loop of [encodeWithRules]. *)
Record LoopState := {
  frontier : list EncodeState;
  results : gset jsstring;
  expansions : Z;
}.

(** [frontier.push(s); if (++expansions > cfg.maxExpansions) frontier =
    pruneFrontier(frontier)], on the pair (frontier, expansions). *)
Definition pushExpansion (cfg : BMPMConfig) (fe : list EncodeState * Z)
  (s : EncodeState) : list EncodeState * Z :=
  let frontier := fe.1 ++ [s] in
  let expansions := (fe.2 + 1)%Z in
  if (maxExpansions cfg <? expansions)%Z
  then (pruneFrontier frontier 1024, expansions)
  else (frontier, expansions).

(** The inner [for (const outSym of rule.outputs)] loop. *)
Definition applyRule (cfg : BMPMConfig) (state : EncodeState)
  (fe : list EncodeState * Z) (rule : Rule) : list EncodeState * Z :=
  let consume := consumed rule in
  fold_left
    (fun fe outSym =>
       let newKey := key state ++ outSym in
       let newKey :=
         if collapseDuplicates cfg then collapseRepeats newKey else newKey in
       pushExpansion cfg fe {| pos := pos state + consume; key := newKey |})
    (outputs rule) fe.

(** The outer [for (const rule of applicable)] loop. *)
Definition applyRules (cfg : BMPMConfig) (state : EncodeState)
  (applicable : list Rule) (fe : list EncodeState * Z)
  : list EncodeState * Z :=
  fold_left (applyRule cfg state) applicable fe.

(** One iteration of the [while] loop, [state] being the element shifted off
    and [st] the loop variables after the shift. [text !! pos] is [None]
    exactly when [state.pos >= text.length]. *)
Definition encodeStep (fuel : nat) (text : jsstring) (langRules : LanguageRules)
  (cfg : BMPMConfig) (state : EncodeState) (st : LoopState)
  : option LoopState :=
  match text !! pos state with
  | None =>
      match finalizeKey fuel (key state) cfg with
      | Some f =>
          Some
            {| frontier := frontier st;
               results :=
                 if (minKeyLength cfg <=? Z.of_nat (length f))%Z
                 then results st ∪ {[ f ]}
                 else results st;
               expansions := expansions st |}
      | None => None
      end
  | Some ch =>
      if (ch =? 32)%N then
        Some
          {| frontier :=
               frontier st ++ [{| pos := pos state + 1; key := key state |}];
             results := results st;
             expansions := expansions st |}
      else
        let applicable :=
          selectApplicableRules text (pos state) (rules langRules) in
        match applicable with
        | [] =>
            let mapped := fallbackMapChar ch (ruleType cfg) in
            Some
              {| frontier :=
                   frontier st
                   ++ [{| pos := pos state + 1; key := key state ++ mapped |}];
                 results := results st;
                 expansions := expansions st |}
        | _ =>
            let fe :=
              applyRules cfg state applicable (frontier st, expansions st) in
            Some
              {| frontier := fe.1; results := results st;
                 expansions := fe.2 |}
        end
  end.

Fixpoint encodeLoop (fuel : nat) (text : jsstring) (langRules : LanguageRules)
  (cfg : BMPMConfig) (st : LoopState) : option (gset jsstring) :=
  match fuel with
  | O => None
  | S fuel' =>
      match frontier st with
      | [] => Some (results st)
      | state :: rest =>
          match
            encodeStep fuel' text langRules cfg state
              {| frontier := rest; results := results st;
                 expansions := expansions st |}
          with
          | Some st' => encodeLoop fuel' text langRules cfg st'
          | None => None
          end
      end
  end.

Definition initialState : LoopState :=
  {| frontier := [{| pos := 0; key := [] |}]; results := ∅;
     expansions := 0 |}.

Definition encodeWithRules (fuel : nat) (text : jsstring)
  (langRules : LanguageRules) (cfg : BMPMConfig) : option (gset jsstring) :=
  encodeLoop fuel text langRules cfg initialState.

(* ------------------------------------------------------------------ *)
(** ** Top-level APIs *)

Section TopLevel.

Variable U : Builtins.

(** The [for (const { language } of langs)] loop of [bmpmEncode]. *)
Fixpoint encodeLanguages (fuel : nat) (rawForDetect : jsstring)
  (cfg : BMPMConfig) (langs : list Candidate) : option (list EncodeResult) :=
  match langs with
  | [] => Some []
  | c :: langs' =>
      let language := cand_language c in
      match languageRuleSets cfg !! language with
      | None => encodeLanguages fuel rawForDetect cfg langs'
      | Some rules =>
          let translit :=
            transliterateForLanguage rawForDetect language cfg in
          let norm := preprocess U translit in
          match norm with
          | [] => encodeLanguages fuel rawForDetect cfg langs'
          | _ =>
              match encodeWithRules fuel norm rules cfg with
              | None => None
              | Some keys =>
                  match encodeLanguages fuel rawForDetect cfg langs' with
                  | None => None
                  | Some out =>
                      Some
                        (if size keys =? 0 then out
                         else {| res_language := language; keys := keys |}
                              :: out)
                  end
              end
          end
      end
  end.

Definition bmpmEncode (fuel : nat) (rawName : jsstring) (cfg : BMPMConfig)
  : option (list EncodeResult) :=
  let raw := rawName in
  match trim raw with
  | [] => Some []
  | _ =>
      let rawForDetect := toLowerCase U (normalizeNFC U raw) in
      let langs := detectLanguages rawForDetect cfg in
      encodeLanguages fuel rawForDetect cfg langs
  end.

(** [new Set([...A.flatMap((r) => [...r.keys])])]. *)
Definition allKeys (A : list EncodeResult) : gset jsstring :=
  list_to_set (flat_map (fun r => elements (keys r)) A).

Definition bmpmMatch (fuel : nat) (a b : jsstring) (cfg : BMPMConfig)
  : option bool :=
  match bmpmEncode fuel a cfg, bmpmEncode fuel b cfg with
  | Some A, Some B =>
      let setA := allKeys A in
      let setB := allKeys B in
      Some (existsb (fun k => bool_decide (k ∈ setB)) (elements setA))
  | _, _ => None
  end.

Definition bmpmSimilarity (fuel : nat) (a b : jsstring) (cfg : BMPMConfig)
  : option Q :=
  match bmpmEncode fuel a cfg, bmpmEncode fuel b cfg with
  | Some A, Some B =>
      let setA := allKeys A in
      let setB := allKeys B in
      let inter :=
        length
          (List.filter (fun x => bool_decide (x ∈ setB)) (elements setA)) in
      let union :=
        size (list_to_set (elements setA ++ elements setB) : gset jsstring) in
      Some
        (if union =? 0 then 0%Q
         else (Z.of_nat inter # Pos.of_nat union)%Q)
  | _, _ => None
  end.

End TopLevel.

(* ------------------------------------------------------------------ *)
(** ** Vocabulary of the properties *)

(** [a] may stand before [b]: the comparator [after] is not positive. *)
Definition notAfter {A} (after : A -> A -> bool) (a b : A) : Prop :=
  after a b = false.

(** Farther cursor first; for equal cursors, shorter key first. *)
Definition pruneOrder (a b : EncodeState) : Prop :=
  pos b < pos a \/ (pos a = pos b /\ length (key a) <= length (key b)).

(** Number of frontier elements the rules of [applicable] push. *)
Definition pushCount (applicable : list Rule) : nat :=
  foldr (fun r n => length (outputs r) + n) 0 applicable.

(** A rule passes the loop of [selectApplicableRules] and wins both
    tie-breaks against every rule of [rules] that passes it. *)
Definition survives (text : jsstring) (pos : nat) (rules : list Rule)
  (r : Rule) : Prop :=
  ruleMatches text pos r = true /\
  (forall m, In m rules -> ruleMatches text pos m = true ->
             (priority m <= priority r)%Z) /\
  (forall m, In m rules -> ruleMatches text pos m = true ->
             priority m = priority r -> consumed m <= consumed r).

(** A lowercase ASCII letter or the space. *)
Definition isPlainChar (c : char) : bool := isLowerAsciiLetter c || (c =? 32)%N.

(** What is assumed of the built-ins: [toLowerCase] and NFKD normalization
    leave a string of lowercase ASCII letters and spaces as it is. *)
Class BuiltinsSpec (U : Builtins) : Prop := {
  toLowerCase_plain :
    forall s, forallb isPlainChar s = true -> toLowerCase U s = s;
  normalizeNFKD_plain :
    forall s, forallb isPlainChar s = true -> normalizeNFKD U s = s;
}.

(** Words of letters [a-z] separated by single spaces; [afterLetter] tells
    that the previous code unit was a letter, so that a space or the end may
    follow. *)
Fixpoint wordsFrom (afterLetter : bool) (s : jsstring) : bool :=
  match s with
  | [] => afterLetter
  | c :: s' =>
      if (c =? 32)%N then afterLetter && wordsFrom false s'
      else isLowerAsciiLetter c && wordsFrom true s'
  end.

(** The strings [preprocess] returns: empty, or words of [a-z] separated by
    single spaces, with no space at either end. *)
Definition normalForm (s : jsstring) : bool :=
  match s with
  | [] => true
  | _ => wordsFrom false s
  end.

(** Letters and spaces with no two spaces in a row; [prevSpace] tells that
    the previous code unit was a space. *)
Fixpoint spaced (prevSpace : bool) (s : jsstring) : bool :=
  match s with
  | [] => true
  | c :: s' =>
      if (c =? 32)%N then negb prevSpace && spaced true s'
      else isLowerAsciiLetter c && spaced false s'
  end.

(** [k] is a key of some language of the encoding [A]. *)
Definition hasKey (A : list EncodeResult) (k : jsstring) : Prop :=
  exists r, In r A /\ k ∈ keys r.

(** The score as a function of the two key sets. *)
Definition jaccard (X Y : gset jsstring) : Q :=
  if size (X ∪ Y) =? 0 then 0%Q
  else (Z.of_nat (size (X ∩ Y)) # Pos.of_nat (size (X ∪ Y)))%Q.

Definition longEnough (cfg : BMPMConfig) (k : jsstring) : Prop :=
  (minKeyLength cfg <= Z.of_nat (length k))%Z.

(** One iteration of the [while] loop of [encodeWithRules], as a relation
    between the loop variables before and after it. *)
Inductive loopStep (text : jsstring) (langRules : LanguageRules)
  (cfg : BMPMConfig) : LoopState -> LoopState -> Prop :=
| loopStep_intro fuel st state rest st' :
    frontier st = state :: rest ->
    encodeStep fuel text langRules cfg state
      {| frontier := rest; results := results st;
         expansions := expansions st |} = Some st' ->
    loopStep text langRules cfg st st'.

(** Number of rule-derived elements the iteration on [state] pushes: none at
    the end of the text, on a space, or when the fallback applies. *)
Definition rulePushes (text : jsstring) (langRules : LanguageRules)
  (state : EncodeState) : nat :=
  match text !! pos state with
  | Some ch =>
      if (ch =? 32)%N then 0
      else pushCount (selectApplicableRules text (pos state) (rules langRules))
  | None => 0
  end.

(** The elements the two [for] loops push for the element [state] shifted
    off the frontier, in the order of the pushes: for every applicable rule
    in turn, one element per output symbol. *)
Definition ruleExpansions (cfg : BMPMConfig) (state : EncodeState)
  (applicable : list Rule) : list EncodeState :=
  flat_map
    (fun rule =>
       List.map
         (fun outSym =>
            {| pos := pos state + consumed rule;
               key :=
                 if collapseDuplicates cfg
                 then collapseRepeats (key state ++ outSym)
                 else key state ++ outSym |})
         (outputs rule))
    applicable.



(** Every rule moves the cursor. *)
Definition rulesAdvance (langRules : LanguageRules) : bool :=
  forallb (fun r => 1 <=? consumed r) (rules langRules).

(** Merger folding is off, or no key of the merger table is empty. *)
Definition mergerAdvances (cfg : BMPMConfig) : bool :=
  match ruleType cfg, mergerTable cfg with
  | APPROX, Some m => forallb (fun kv => 1 <=? length kv.1) m
  | _, _ => true
  end.

(** Every rule of every rule set of the configuration moves the cursor. *)
Definition allRulesAdvance (cfg : BMPMConfig) : bool :=
  forallb (fun kv => rulesAdvance kv.2) (map_to_list (languageRuleSets cfg)).

(** The members every object inherits from [Object.prototype]. *)
Definition objectPrototypeMembers : list string :=
  [ "constructor"; "hasOwnProperty"; "isPrototypeOf";
    "propertyIsEnumerable"; "toLocaleString"; "toString"; "valueOf";
    "__proto__"; "__defineGetter__"; "__defineSetter__";
    "__lookupGetter__"; "__lookupSetter__" ].

(** Every language a heuristic can propose is a key of [languageRuleSets]
    or names no inherited member, so that the property access
    [cfg.languageRuleSets[language]] is the lookup of the model. (The
    default languages name no inherited member.) *)
Definition ownLanguageLookups (cfg : BMPMConfig) : bool :=
  forallb
    (fun h =>
       match languageRuleSets cfg !! heur_language h with
       | Some _ => true
       | None =>
           negb
             (existsb (fun m => bool_decide (heur_language h = str m))
                objectPrototypeMembers)
       end)
    (languageHeuristics cfg).

(** The bound on the frontier at the head of the loop. *)
Definition frontierBound (cfg : BMPMConfig) : Z :=
  Z.max 1024 (maxExpansions cfg + 1).

(** One more than the number of elements a single iteration can push. *)
Definition branching (langRules : LanguageRules) : nat :=
  pushCount (rules langRules) + 2.

(** The weight of a frontier element: it shrinks by the factor [branching]
    with every code unit the cursor moves. *)
Definition stateWeight (text : jsstring) (langRules : LanguageRules)
  (s : EncodeState) : nat :=
  branching langRules ^ (length text - pos s).

Definition frontierWeight (text : jsstring) (langRules : LanguageRules)
  (fr : list EncodeState) : nat :=
  foldr (fun s n => stateWeight text langRules s + n) 0 fr.

(** After a push: at most 1024 elements once the counter has overflowed,
    and before that at most one element per counted push besides the first. *)
Definition frontierInv (cfg : BMPMConfig) (fr : list EncodeState) (e : Z)
  : Prop :=
  (maxExpansions cfg < e /\ Z.of_nat (length fr) <= 1024)%Z \/
  (e <= maxExpansions cfg /\ Z.of_nat (length fr) <= e + 1)%Z.

(** The same between the shift and the pushes of an iteration that applies
    rules. *)
Definition pushInv (cfg : BMPMConfig) (fe : list EncodeState * Z) : Prop :=
  (maxExpansions cfg < fe.2 /\ Z.of_nat (length fe.1) <= 1024)%Z \/
  (fe.2 <= maxExpansions cfg /\ Z.of_nat (length fe.1) <= fe.2)%Z.

(** [{ ...cfg, ruleType, mergerTable }]. *)
Definition withMode (cfg : BMPMConfig) (rt : RuleType)
  (merger : option (list (jsstring * jsstring))) : BMPMConfig :=
  {| nameType := nameType cfg;
     ruleType := rt;
     maxExpansions := maxExpansions cfg;
     minKeyLength := minKeyLength cfg;
     collapseDuplicates := collapseDuplicates cfg;
     languageHeuristics := languageHeuristics cfg;
     languageRuleSets := languageRuleSets cfg;
     mergerTable := merger;
     topLanguages := topLanguages cfg |}.

(** Folding cannot push a key under the minimum length: nothing is too
    short, or only the empty key is and no replacement is empty. *)
Definition keysSurviveFolding (minLen : Z)
  (merger : option (list (jsstring * jsstring))) : bool :=
  (minLen <=? 0)%Z
  || ((minLen <=? 1)%Z
      && match merger with
         | Some m => forallb (fun kv => 1 <=? length kv.2) m
         | None => true
         end).

(** Wherever [text] has a vowel, some rule is applicable, so that the
    fallback never maps a vowel. *)
Definition vowelsCovered (text : jsstring) (langRules : LanguageRules)
  : bool :=
  forallb
    (fun p =>
       match text !! p with
       | Some ch =>
           negb (isVowel ch)
           || match selectApplicableRules text p (rules langRules) with
              | [] => false
              | _ => true
              end
       | None => true
       end)
    (seq 0 (length text)).

(** The same for every text [bmpmEncode] hands to the encoder. *)
Definition fallbackSkipsVowels (U : Builtins) (rawName : jsstring)
  (cfg : BMPMConfig) : bool :=
  let rawForDetect := toLowerCase U (normalizeNFC U rawName) in
  forallb
    (fun c =>
       match languageRuleSets cfg !! cand_language c with
       | Some langRules =>
           vowelsCovered
             (preprocess U
                (transliterateForLanguage rawForDetect (cand_language c) cfg))
             langRules
       | None => true
       end)
    (detectLanguages rawForDetect cfg).

(** [k'] is what finalization under [approxCfg] makes of the raw key [k]. *)
Definition foldsTo (approxCfg : BMPMConfig) (k k' : jsstring) : Prop :=
  exists fuel, finalizeKey fuel k approxCfg = Some k'.

(** Every key of [RE] has its folded form in [RA]. *)
Definition foldedInto (approxCfg : BMPMConfig) (RE RA : gset jsstring)
  : Prop :=
  forall k, k ∈ RE -> exists k', k' ∈ RA /\ foldsTo approxCfg k k'.

(** No code unit is followed by an equal one. *)
Fixpoint noAdjacentRepeats (s : jsstring) : bool :=
  match s with
  | a :: s' =>
      match s' with
      | b :: _ => negb (a =? b)%N && noAdjacentRepeats s'
      | [] => true
      end
  | [] => true
  end.

(** No key of the merger table starts at any position of [key]. *)
Fixpoint noSymbolOccurs (merger : list (jsstring * jsstring))
  (key : jsstring) : bool :=
  match key with
  | [] => true
  | _ :: key' =>
      forallb (fun kv => negb (isPrefix kv.1 key)) merger
      && noSymbolOccurs merger key'
  end.

(** The languages of the heuristics whose predicate holds of [name]. *)
Definition firedLanguages (name : jsstring) (cfg : BMPMConfig)
  : list jsstring :=
  List.map heur_language
    (List.filter (fun h => predicate h name) (languageHeuristics cfg)).

(** The pool [detectLanguages] ranks: the fired languages, or the defaults
    of the name type when no heuristic fires. *)
Definition candidateLanguages (name : jsstring) (cfg : BMPMConfig)
  : list jsstring :=
  match firedLanguages name cfg with
  | [] => List.map cand_language (defaults (nameType cfg))
  | fired => fired
  end.

(** [slice(0, topLanguages)] when [topLanguages] is set and not zero. *)
Definition truncateTop {A} (top : option Q) (l : list A) : list A :=
  match top with
  | Some n => if Qeq_bool n 0 then l else sliceTo n l
  | None => l
  end.

(** Higher score first. *)
Definition scoreOrder (a b : Candidate) : Prop := (score b <= score a)%Q.

(** The key the encoder builds when no rule ever applies: nothing for a
    space, the fallback symbol for every other code unit. *)
Definition fallbackKey (rt : RuleType) (text : jsstring) : jsstring :=
  flat_map (fun ch => if (ch =? 32)%N then [] else fallbackMapChar ch rt) text.

(** At every position of [text] that does not hold a space, no rule is
    applicable. *)
Definition onlyFallback (text : jsstring) (langRules : LanguageRules)
  : bool :=
  forallb
    (fun p =>
       match text !! p with
       | Some ch =>
           (ch =? 32)%N
           || match selectApplicableRules text p (rules langRules) with
              | [] => true
              | _ => false
              end
       | None => true
       end)
    (seq 0 (length text)).

(** [c] occurs in an output symbol of a rule of [langRules]. *)
Definition ruleOutputChar (langRules : LanguageRules) (c : char) : Prop :=
  exists r o, In r (rules langRules) /\ In o (outputs r) /\ In c o.

(** [c] can occur in a key in progress: it comes from a rule output or is
    the "A" of the EXACT fallback. *)
Definition rawKeyChar (langRules : LanguageRules) (cfg : BMPMConfig)
  (c : char) : Prop :=
  ruleOutputChar langRules c \/ (ruleType cfg = EXACT /\ c = 65%N).

(** [c] can occur in a finalized key: as above, or in APPROX mode from a
    replacement of the merger table. *)
Definition keyChar (langRules : LanguageRules) (cfg : BMPMConfig)
  (c : char) : Prop :=
  rawKeyChar langRules cfg c \/
  (ruleType cfg = APPROX /\
   exists m kv, mergerTable cfg = Some m /\ In kv m /\ In c kv.2).

(** Every key in progress of the frontier [fr] is made of rule outputs and
    fallback symbols. *)
Definition rawKeys (langRules : LanguageRules) (cfg : BMPMConfig)
  (fr : list EncodeState) : Prop :=
  forall s c, In s fr -> In c (key s) -> rawKeyChar langRules cfg c.

(* ------------------------------------------------------------------ *)
(** ** Concrete configurations *)

(** The built-ins restricted to ASCII, where [normalize] changes nothing and
    [toLowerCase] moves [A-Z] to [a-z]. *)
Definition asciiBuiltins : Builtins :=
  {| toLowerCase :=
       List.map (fun c => if char_in_range 65 90 c then (c + 32)%N else c);
     normalizeNFC := fun s => s;
     normalizeNFKD := fun s => s |}.

(** The rule builder [R] of [src/bmpm.ts], its outputs given as an array. *)
Definition R (pattern : string) (outputs : list string) (priority : Z)
  (lctx rctx : option (jsstring -> bool)) (consumes : option nat) : Rule :=
  {| pattern := str pattern;
     outputs := List.map str outputs;
     priority := priority;
     lctx := lctx;
     rctx := rctx;
     consumes := Some (default (length (str pattern)) consumes) |}.



(** A rule that matches "a" and consumes nothing. *)
Definition stuckRules : LanguageRules :=
  {| rules_language := str "english";
     rules := [R "a" ["A"] 1 None None (Some 0)] |}.

(** Two branching rules whose outputs the merger table folds together. *)
Definition foldRules : LanguageRules :=
  {| rules_language := str "english";
     rules := [R "v" ["V"; "F"] 1 None None None;
               R "w" ["V"; "F"; "W"] 1 None None None] |}.

(** One heuristic that always fires, with [topLanguages] to choose. *)
Definition oneLanguageCfg (top : Q) : BMPMConfig :=
  {| nameType := GENERIC;
     ruleType := APPROX;
     maxExpansions := 20000;
     minKeyLength := 1;
     collapseDuplicates := true;
     languageHeuristics :=
       [{| heur_language := str "english"; weight := 1;
           predicate := fun _ => true; transliterator := None |}];
     languageRuleSets := {[ str "english" := foldRules ]};
     mergerTable := None;
     topLanguages := Some top |}.

Definition foldCfg (rt : RuleType) (collapse : bool)
  (merger : option (list (jsstring * jsstring))) : BMPMConfig :=
  {| nameType := GENERIC;
     ruleType := rt;
     maxExpansions := 20000;
     minKeyLength := 1;
     collapseDuplicates := collapse;
     languageHeuristics := [];
     languageRuleSets := {[ str "english" := foldRules ]};
     mergerTable := merger;
     topLanguages := Some 5%Q |}.

Definition foldApproxCfg : BMPMConfig :=
  foldCfg APPROX true (Some [(str "V", str "F")]).

Definition foldExactCfg (collapse : bool) : BMPMConfig :=
  foldCfg EXACT collapse None.

(** What [foldApproxCfg] makes of the names "v" and "w". *)
Definition foldEncodingV : list EncodeResult :=
  [{| res_language := str "english"; keys := {[ str "F" ]} |}].

Definition foldEncodingW : list EncodeResult :=
  [{| res_language := str "english"; keys := {[ str "F"; str "W" ]} |}].

Definition stuckCfg : BMPMConfig :=
  {| nameType := GENERIC;
     ruleType := APPROX;
     maxExpansions := 20000;
     minKeyLength := 1;
     collapseDuplicates := true;
     languageHeuristics := [];
     languageRuleSets := {[ str "english" := stuckRules ]};
     mergerTable := None;
     topLanguages := Some 5%Q |}.

(* ------------------------------------------------------------------ *)
(** ** The rule tables of [src/bmpm.ts] *)

(** Context helpers. *)
Definition ANY : jsstring -> bool := fun _ => true.

(** [left.length === 0 || /\s$/.test(left)]. *)
Definition atWordStart (left : jsstring) : bool :=
  (length left =? 0)
  || match last left with
     | Some c => isWhiteSpace c
     | None => false
     end.

(** [right.length === 0 || /^\s/.test(right)]. *)
Definition atWordEnd (right : jsstring) : bool :=
  (length right =? 0)
  || match right with
     | c :: _ => isWhiteSpace c
     | [] => false
     end.

Definition leftEndsWith (s : string) (left : jsstring) : bool :=
  isPrefix (rev (str s)) (rev left).

Definition rightStartsWith (s : string) (right : jsstring) : bool :=
  isPrefix (str s) right.

(** *** Transliteration *)

(** The object [m] of [cyrillicToLatinBasic], keyed by the code unit of the
    Cyrillic letter. Its keys are distinct, so that the first entry found is
    the property of the object. *)
Definition cyrillicMap : list (char * string) :=
  [ (1072, "a"); (1073, "b"); (1074, "v"); (1075, "g"); (1076, "d");
    (1077, "e"); (1105, "yo"); (1078, "zh"); (1079, "z");
    (1080, "i"); (1081, "y"); (1082, "k"); (1083, "l"); (1084, "m");
    (1085, "n"); (1086, "o"); (1087, "p"); (1088, "r");
    (1089, "s"); (1090, "t"); (1091, "u"); (1092, "f"); (1093, "kh");
    (1094, "ts"); (1095, "ch"); (1096, "sh");
    (1097, "shch"); (1099, "y"); (1101, "e"); (1102, "yu"); (1103, "ya");
    (1100, ""); (1098, "") ]%N.

(** [m[c] ?? c]: an empty string in the object is kept, only a missing
    key gives [c] back. *)
Definition cyrillicLookup (c : char) : jsstring :=
  match List.find (fun kv => (fst kv =? c)%N) cyrillicMap with
  | Some kv => str (snd kv)
  | None => [c]
  end.

(** The class [[\u0410-\u042f\u0401]] of the capital Russian letters, and
    [c.toLowerCase()] on a letter of that class. *)
Definition isUpperCyrillic (c : char) : bool :=
  char_in_range 1040 1071 c || (c =? 1025)%N.

Definition cyrillicLower (c : char) : char :=
  if (c =? 1025)%N then 1105%N else (c + 32)%N.

(** The class [[a-z\s]] that the last replacement keeps. *)
Definition isLowerOrWhiteSpace (c : char) : bool :=
  isLowerAsciiLetter c || isWhiteSpace c.

(** [cyrillicToLatinBasic]: capitals to small letters, every code unit
    through the object [m], then everything outside [[a-z\s]] deleted. The
    dot of the second replacement skips the line terminators, which the
    object does not hold either. *)
Definition cyrillicToLatinBasic (s : jsstring) : jsstring :=
  let lowered :=
    List.map (fun c => if isUpperCyrillic c then cyrillicLower c else c) s in
  let mapped := flat_map cyrillicLookup lowered in
  List.filter isLowerOrWhiteSpace mapped.

(** [s.replace(/c/g, rep)] for one code unit [c]. *)
Definition replaceChar (c : char) (rep : string) (s : jsstring) : jsstring :=
  replaceEach (N.eqb c) (str rep) s.

(** [s.replace(/ab/g, rep)] for a pattern of two code units: matches are
    taken from the left and do not overlap. *)
Fixpoint replacePair (a b : char) (rep : jsstring) (s : jsstring)
  : jsstring :=
  match s with
  | [] => []
  | x :: t =>
      match t with
      | y :: r =>
          if (x =? a)%N && (y =? b)%N then rep ++ replacePair a b rep r
          else x :: replacePair a b rep t
      | [] => [x]
      end
  end.

(** The classes of the last replacement of [hebrewToLatinBasic]:
    [[bcdfghjklmnpqrstvwxz]], [[iy]] and the word characters that decide
    [\b]. *)
Definition isLatinConsonant (c : char) : bool :=
  existsb (N.eqb c) (str "bcdfghjklmnpqrstvwxz").

Definition isIOrY (c : char) : bool := (c =? 105)%N || (c =? 121)%N.

Definition isWordChar (c : char) : bool :=
  char_in_range 97 122 c || char_in_range 65 90 c || char_in_range 48 57 c
  || (c =? 95)%N.

(** A word boundary after a word character: the end of the string or a
    code unit that is no word character. *)
Definition wordEndsBefore (rest : jsstring) : bool :=
  match rest with
  | [] => true
  | c :: _ => negb (isWordChar c)
  end.

(** [s.replace(/([bcdfghjklmnpqrstvwxz])v([iy])\b/g, "$1evi")]. *)
Fixpoint insertVowelBeforeVi (s : jsstring) : jsstring :=
  match s with
  | [] => []
  | c1 :: t =>
      match t with
      | v :: c3 :: rest =>
          if isLatinConsonant c1 && (v =? 118)%N && isIOrY c3
             && wordEndsBefore rest
          then c1 :: str "evi" ++ insertVowelBeforeVi rest
          else c1 :: insertVowelBeforeVi t
      | _ => c1 :: insertVowelBeforeVi t
      end
  end.

(** [hebrewToLatinBasic], in three parts: the replacements up to the one
    of kaf, the two replacements of a letter followed by geresh, and the
    rest with the final replacement on [base]. *)
Definition hebrewDigraphs (s : jsstring) : jsstring :=
  let s := replaceEach (fun c => (c =? 1523)%N || (c =? 1524)%N) [] s in
  let s := replaceChar 1513 "sh" s in
  let s := replaceChar 1510 "ts" s in
  let s := replaceChar 1495 "kh" s in
  replaceChar 1499 "kh" s.

Definition hebrewGeresh (s : jsstring) : jsstring :=
  let s := replacePair 1490 1523 (str "j") s in
  replacePair 1494 1523 (str "zh") s.

Definition hebrewLetters (s : jsstring) : jsstring :=
  let s := replaceChar 1490 "g" s in
  let s := replaceChar 1491 "d" s in
  let s := replaceChar 1496 "t" s in
  let s := replaceChar 1514 "t" s in
  let s := replaceChar 1508 "p" s in
  let s := replaceChar 1489 "b" s in
  let s := replaceChar 1493 "v" s in
  let s := replaceChar 1502 "m" s in
  let s := replaceEach (fun c => (c =? 1503)%N || (c =? 1504)%N) (str "n") s in
  let s := replaceChar 1500 "l" s in
  let s := replaceChar 1512 "r" s in
  let s := replaceChar 1511 "k" s in
  let s := replaceEach (fun c => (c =? 1506)%N || (c =? 1488)%N) (str "a") s in
  let base := replaceChar 1497 "y" s in
  insertVowelBeforeVi base.

Definition hebrewToLatinBasic (s : jsstring) : jsstring :=
  hebrewLetters (hebrewGeresh (hebrewDigraphs s)).

(** The code units of the Russian alphabet, capital and small. *)
Definition isRussianLetter (c : char) : bool :=
  isUpperCyrillic c || char_in_range 1072 1103 c || (c =? 1105)%N.

(** The builder [R] for a pattern given by its code units (the patterns
    with letters outside ASCII). *)
Definition Rw (pattern : jsstring) (outputs : list string) (priority : Z)
  (lctx rctx : option (jsstring -> bool)) (consumes : option nat) : Rule :=
  {| pattern := pattern;
     outputs := List.map str outputs;
     priority := priority;
     lctx := lctx;
     rctx := rctx;
     consumes := Some (default (length pattern) consumes) |}.

(** [c.toUpperCase()] for a string of ASCII letters. *)
Definition toUpperAscii (s : jsstring) : jsstring :=
  List.map (fun c => if char_in_range 97 122 c then (c - 32)%N else c) s.

(** [cs.map((c) => R(c, c.toUpperCase(), 1))]. *)
Definition singles (cs : list string) : list Rule :=
  List.map
    (fun c =>
       {| pattern := str c; outputs := [toUpperAscii (str c)]; priority := 1;
          lctx := None; rctx := None; consumes := Some (length (str c)) |})
    cs.

(** [cs.map((c) => R(c, c === "h" ? "" : c.toUpperCase(), 1))]. *)
Definition singlesSilentH (cs : list string) : list Rule :=
  List.map
    (fun c =>
       {| pattern := str c;
          outputs := [if String.eqb c "h" then [] else toUpperAscii (str c)];
          priority := 1;
          lctx := None; rctx := None; consumes := Some (length (str c)) |})
    cs.

(** [vs.map((v) => R(v, "A", 1))]. *)
Definition vowelRules (vs : list string) : list Rule :=
  List.map (fun v => R v ["A"] 1 None None None) vs.

Definition english : LanguageRules :=
  {| rules_language := str "english";
     rules :=
       [R "ough" ["AF"; "OF"; "AU"] 10 None None None;
        R "eigh" ["EY"] 10 None None None;
        R "ph" ["F"] 9 None None None;
        R "gh" [""] 8 None None None;
        R "ch" ["X"] 8 None None None;
        R "c" ["S"] 8 (Some ANY) (Some (rightStartsWith "e")) None;
        R "c" ["S"] 8 (Some ANY) (Some (rightStartsWith "i")) None;
        R "c" ["K"] 7 None None None;
        R "kh" ["H"] 8 None None None;
        R "sh" ["X"] 8 None None None;
        R "th" ["T"] 8 None None None;
        R "wr" ["R"] 7 (Some atWordStart) None None;
        R "kn" ["N"] 7 (Some atWordStart) None None;
        R "qu" ["KW"] 6 None None None;
        R "tz" ["S"] 7 None None None;
        R "shw" ["XV"] 9 None None None;
        R "en" ["AN"; "N"] 7 (Some ANY) (Some atWordEnd) None]
       ++ singles ["b"; "d"; "g"; "k"; "p"; "t"; "m"; "n"; "l"; "r"; "f";
                   "s"; "x"; "v"; "z"; "j"; "w"; "y"; "h"]
       ++ vowelRules ["a"; "e"; "i"; "o"; "u"; "y"] |}.

Definition german : LanguageRules :=
  {| rules_language := str "german";
     rules :=
       [R "schm" ["SM"] 11 None None None;
        R "schw" ["XV"] 11 None None None;
        R "sch" ["X"] 10 None None None;
        R "tsch" ["X"] 10 None None None;
        R "dt" ["T"] 9 None None None;
        R "sp" ["SP"] 7 (Some atWordStart) None None;
        R "st" ["ST"] 7 (Some atWordStart) None None;
        R "ch" ["X"] 9 (Some (leftEndsWith "s")) None None;
        R "ch" ["X"] 9 (Some (leftEndsWith "t")) None None;
        R "ch" ["H"] 8 None None None;
        R "ph" ["F"] 8 None None None;
        R "v" ["F"] 7 None None None;
        R "w" ["V"] 7 None None None;
        R "z" ["S"] 7 None None None;
        R "tz" ["S"] 8 None None None;
        R "th" ["T"] 6 None None None;
        R "qu" ["KV"] 6 None None None]
       ++ singles ["b"; "d"; "g"; "k"; "p"; "t"; "m"; "n"; "l"; "r"; "f";
                   "s"; "x"; "j"; "c"; "h"]
       ++ vowelRules ["a"; "e"; "i"; "o"; "u"; "y"] |}.

Definition french : LanguageRules :=
  {| rules_language := str "french";
     rules :=
       [R "eaux" ["O"] 10 None None None;
        R "eau" ["O"] 10 None None None;
        R "au" ["O"] 9 None None None;
        R "aux" ["O"] 9 None None None;
        R "oi" ["WA"] 9 None None None;
        R "ou" ["U"] 9 None None None;
        R "an" ["AN"] 9 None None None;
        R "en" ["AN"] 9 None None None;
        R "on" ["ON"] 9 None None None;
        R "in" ["IN"] 9 None None None;
        R "ain" ["IN"] 9 None None None;
        R "gn" ["GN"] 8 None None None;
        R "ph" ["F"] 8 None None None;
        R "ch" ["X"] 8 None None None;
        R "th" ["T"] 7 None None None;
        R "s" [""] 2 (Some ANY) (Some atWordEnd) None;
        R "t" [""] 2 (Some ANY) (Some atWordEnd) None]
       ++ singlesSilentH ["b"; "d"; "g"; "k"; "p"; "m"; "n"; "l"; "r"; "f";
                          "v"; "z"; "j"; "x"; "c"; "h"; "w"; "y"]
       ++ vowelRules ["a"; "e"; "i"; "o"; "u"; "y"] |}.

Definition spanish : LanguageRules :=
  {| rules_language := str "spanish";
     rules :=
       [R "c" ["S"] 8 (Some ANY) (Some (rightStartsWith "e")) None;
        R "c" ["S"] 8 (Some ANY) (Some (rightStartsWith "i")) None;
        R "c" ["K"] 7 None None None;
        R "ll" ["Y"] 10 None None None;
        Rw [241%N] ["NY"] 10 None None None;
        R "ch" ["X"] 9 None None None;
        R "j" ["X"] 9 None None None;
        R "ge" ["X"] 9 None None None;
        R "gi" ["X"] 9 None None None;
        R "gue" ["GE"] 8 None None None;
        R "gui" ["GI"] 8 None None None;
        R "que" ["KE"] 8 None None None;
        R "qui" ["KI"] 8 None None None;
        R "v" ["B"] 7 None None None;
        R "z" ["S"] 7 None None None;
        R "c" ["S"] 7 (Some ANY) (Some (rightStartsWith "e")) None;
        R "c" ["S"] 7 (Some ANY) (Some (rightStartsWith "i")) None;
        R "h" [""] 7 None None None]
       ++ singles ["b"; "d"; "g"; "k"; "p"; "t"; "m"; "n"; "l"; "r"; "f";
                   "s"; "x"; "y"; "w"]
       ++ vowelRules ["a"; "e"; "i"; "o"; "u"] |}.

Definition portuguese : LanguageRules :=
  {| rules_language := str "portuguese";
     rules :=
       [R "c" ["S"] 8 (Some ANY) (Some (rightStartsWith "e")) None;
        R "c" ["S"] 8 (Some ANY) (Some (rightStartsWith "i")) None;
        R "c" ["K"] 7 None None None;
        Rw [231%N; 245%N; 101%N; 115%N] ["SOIS"] 10 None None None;
        Rw [231%N; 227%N; 111%N] ["SAO"] 10 None None None;
        R "nh" ["NY"; "N"] 9 None None None;
        R "lh" ["LY"] 9 None None None;
        R "ch" ["X"] 9 None None None;
        R "x" ["SH"; "S"; "Z"; "KS"] 8 None None None;
        R "j" ["ZH"] 9 None None None;
        R "ge" ["ZH"] 9 None None None;
        R "gi" ["ZH"] 9 None None None;
        R "gue" ["GE"] 8 None None None;
        R "gui" ["GI"] 8 None None None;
        R "que" ["KE"] 8 None None None;
        R "qui" ["KI"] 8 None None None;
        Rw [227%N; 111%N] ["AO"] 9 None None None;
        Rw [227%N; 101%N; 115%N] ["AES"] 9 None None None;
        R "em" ["E~"] 7 (Some ANY) (Some atWordEnd) None;
        R "ens" ["E~"] 7 (Some ANY) (Some atWordEnd) None]
       ++ singlesSilentH ["b"; "d"; "g"; "k"; "p"; "t"; "m"; "n"; "l"; "r";
                          "f"; "s"; "v"; "z"; "w"; "y"; "h"]
       ++ vowelRules ["a"; "e"; "i"; "o"; "u"] |}.

Definition polish : LanguageRules :=
  {| rules_language := str "polish";
     rules :=
       [R "szcz" ["X"] 10 None None None;
        Rw [100%N; 378%N] ["J"] 9 None None None;
        Rw [100%N; 380%N] ["J"] 9 None None None;
        R "cz" ["X"] 9 None None None;
        R "sz" ["X"] 9 None None None;
        R "rz" ["Z"] 9 None None None;
        Rw [380%N] ["Z"] 9 None None None;
        Rw [378%N] ["Z"] 9 None None None;
        Rw [347%N] ["S"] 8 None None None;
        Rw [263%N] ["X"] 8 None None None;
        Rw [324%N] ["NY"] 8 None None None;
        R "w" ["V"] 7 None None None;
        Rw [322%N] ["W"] 7 None None None;
        R "ch" ["H"] 8 None None None;
        Rw [243%N] ["A"] 7 None None None]
       ++ singlesSilentH ["b"; "d"; "g"; "k"; "p"; "t"; "m"; "n"; "l"; "r";
                          "f"; "s"; "z"; "j"; "y"; "h"]
       ++ vowelRules ["a"; "e"; "i"; "o"; "u"] |}.

Definition russian : LanguageRules :=
  {| rules_language := str "russian";
     rules :=
       [R "shch" ["X"] 10 None None None;
        R "zh" ["Z"] 9 None None None;
        R "sh" ["X"] 9 None None None;
        R "ch" ["X"] 9 None None None;
        R "kh" ["H"] 9 None None None;
        R "ts" ["C"] 8 None None None;
        R "sky" ["SKI"] 6 (Some ANY) (Some atWordEnd) None;
        R "ski" ["SKI"] 6 (Some ANY) (Some atWordEnd) None;
        R "ov" ["OF"] 6 (Some ANY) (Some atWordEnd) None;
        R "ova" ["OFA"] 6 (Some ANY) (Some atWordEnd) None;
        R "ev" ["EF"] 6 (Some ANY) (Some atWordEnd) None;
        R "eva" ["EFA"] 6 (Some ANY) (Some atWordEnd) None]
       ++ singlesSilentH ["b"; "d"; "g"; "k"; "p"; "t"; "m"; "n"; "l"; "r";
                          "f"; "s"; "z"; "v"; "j"; "y"; "h"]
       ++ vowelRules ["a"; "e"; "i"; "o"; "u"] |}.

Definition hebrew : LanguageRules :=
  {| rules_language := str "hebrew";
     rules :=
       [R "tz" ["C"] 9 None None None;
        R "ts" ["C"] 9 None None None;
        R "kh" ["H"] 9 None None None;
        R "ch" ["H"] 9 None None None;
        R "sh" ["X"] 9 None None None;
        R "zh" ["Z"] 9 None None None;
        R "th" ["T"] 7 None None None]
       ++ singles ["b"; "d"; "g"; "k"; "p"; "t"; "m"; "n"; "l"; "r"; "f";
                   "s"; "z"; "v"; "j"; "w"; "y"; "h"]
       ++ vowelRules ["a"; "e"; "i"; "o"; "u"; "y"] |}.

(** The merger table, in the order of its keys. *)
Definition mergerApprox : list (jsstring * jsstring) :=
  List.map (fun kv => (str kv.1, str kv.2))
    [("V", "F"); ("W", "F"); ("KV", "K"); ("KW", "K"); ("GE", "G");
     ("GI", "G"); ("KE", "K"); ("KI", "K"); ("ZH", "Z"); ("SH", "X");
     ("NY", "N"); ("LY", "L"); ("GN", "N"); ("C", "S"); ("AO", "A");
     ("AN", "A"); ("ON", "A"); ("IN", "A"); ("OI", "A"); ("AI", "A");
     ("EI", "A"); ("E~", "A"); ("SAO", "SA"); ("SOIS", "SS")].

(** The entries of [languageRuleSets]. *)
Definition shippedTables : list (jsstring * LanguageRules) :=
  [(str "english", english); (str "german", german);
   (str "french", french); (str "spanish", spanish);
   (str "portuguese", portuguese); (str "polish", polish);
   (str "russian", russian); (str "hebrew", hebrew)].

Definition languageRuleSetsShipped : gmap jsstring LanguageRules :=
  list_to_map shippedTables.

(** [ExtendedBMPMConfig] without its heuristics, so that the languages are
    the defaults of the name type. *)
Definition shippedCfg : BMPMConfig :=
  {| nameType := GENERIC;
     ruleType := APPROX;
     maxExpansions := 20000;
     minKeyLength := 1;
     collapseDuplicates := true;
     languageHeuristics := [];
     languageRuleSets := languageRuleSetsShipped;
     mergerTable := Some mergerApprox;
     topLanguages := Some 5%Q |}.

(** Some rule of the table has the one-code-unit pattern [ch] and no
    context predicate. *)
Definition hasPlainRule (langRules : LanguageRules) (ch : char) : bool :=
  existsb
    (fun r =>
       bool_decide (pattern r = [ch])
       && match lctx r, rctx r with
          | None, None => true
          | _, _ => false
          end)
    (rules langRules).

(* ================================================================== *)
(** * Properties *)

(* ------------------------------------------------------------------ *)
(** ** The model at work *)

Example collapseRepeats_runs : collapseRepeats (str "AABBA") = str "ABA".
Proof. reflexivity. Qed.

(** Longest symbol first: "KV" is folded before "V" is tried. *)
Example applyMergerTable_longest_first :
  applyMergerTable 10 (str "KVNYV")
    (Some [(str "V", str "F"); (str "KV", str "K"); (str "NY", str "N")])
  = Some (str "KNF").
Proof. reflexivity. Qed.

Example preprocess_apostrophe :
  preprocess asciiBuiltins (str " O'Connor  x ") = str "o connor x".
Proof. reflexivity. Qed.

(** Priority first, then consumed-length: of "sch" (10), "s" (1) and
    "sc" (10) at the start of "schmidt", only "sch" survives. *)
Example selectApplicableRules_schmidt :
  List.map pattern
    (selectApplicableRules (str "schmidt") 0
       [R "s" ["S"] 1 None None None; R "sc" ["SK"] 10 None None None;
        R "sch" ["X"] 10 None None None])
  = [str "sch"].
Proof. reflexivity. Qed.

Example pruneFrontier_order :
  pruneFrontier
    [{| pos := 1; key := str "AB" |}; {| pos := 3; key := str "ABC" |};
     {| pos := 3; key := str "A" |}; {| pos := 2; key := [] |}] 3
  = [{| pos := 3; key := str "A" |}; {| pos := 3; key := str "ABC" |};
     {| pos := 2; key := [] |}].
Proof. reflexivity. Qed.

Example encodeWithRules_branches :
  encodeWithRules 20 (str "v w") foldRules (foldExactCfg true)
  = Some {[ str "VF"; str "VW"; str "FV"; str "F"; str "FW"; str "V" ]}.
Proof. vm_compute. reflexivity. Qed.

(* ------------------------------------------------------------------ *)
(** ** Rule selection *)

Lemma maxZ_ge (l : list Z) (x : Z) : In x l -> (x <= maxZ l)%Z.
Proof.
  unfold maxZ. generalize (hd 0%Z l) as d.
  induction l as [|y l IH]; simpl; intros d Hx; [easy|].
  destruct Hx as [->|Hx]; [lia|]. specialize (IH d Hx). lia.
Qed.

Lemma maxZ_in (l : list Z) : l <> [] -> In (maxZ l) l.
Proof.
  destruct l as [|d l]; [easy|intros _].
  unfold maxZ; simpl hd.
  assert (H : forall l', In (foldr Z.max d l') (d :: l')).
  { induction l' as [|y l' IH]; simpl; [auto|].
    destruct (Z.max_spec y (foldr Z.max d l')) as [[_ ->]|[_ ->]].
    - destruct IH as [IH|IH]; auto.
    - auto. }
  simpl. destruct (Z.max_spec d (foldr Z.max d l)) as [[_ ->]|[_ ->]]; auto.
  destruct (H l) as [<-|Hin]; auto.
Qed.

Lemma maxNat_ge (l : list nat) (x : nat) : In x l -> x <= maxNat l.
Proof.
  unfold maxNat. induction l as [|y l IH]; simpl; [easy|].
  intros [->|Hx]; [lia|]. specialize (IH Hx). lia.
Qed.

Lemma maxNat_in (l : list nat) : l <> [] -> In (maxNat l) l.
Proof.
  unfold maxNat. induction l as [|y l IH]; [easy|intros _].
  simpl. destruct l as [|z l].
  - simpl. left. lia.
  - destruct (Nat.max_spec y (foldr Nat.max 0 (z :: l))) as [[_ ->]|[_ ->]].
    + right. apply IH. easy.
    + now left.
Qed.

Lemma filter_filter_andb {A} (p q : A -> bool) (l : list A) :
  List.filter q (List.filter p l) = List.filter (fun x => p x && q x) l.
Proof.
  induction l as [|x l IH]; simpl; [easy|].
  destruct (p x); simpl; [destruct (q x)|]; now rewrite IH.
Qed.

Lemma survives_perm text pos rules rules' r :
  Permutation rules rules' ->
  survives text pos rules r -> survives text pos rules' r.
Proof.
  intros HP (Hm & Hpr & Hlen). repeat split; [easy| |].
  - intros m Hin. apply Hpr. eapply Permutation_in; [symmetry|]; eauto.
  - intros m Hin. apply Hlen. eapply Permutation_in; [symmetry|]; eauto.
Qed.

(** The selection is a filter of the declared rules by a test that holds
    exactly of the surviving rules. *)
Lemma selectApplicableRules_filter text pos rules :
  exists keep : Rule -> bool,
    selectApplicableRules text pos rules = List.filter keep rules /\
    forall r, In r rules -> (keep r = true <-> survives text pos rules r).
Proof.
  unfold selectApplicableRules.
  set (matches := List.filter (ruleMatches text pos) rules).
  destruct matches as [|m0 ms] eqn:Hmatches.
  - exists (fun _ => false). split.
    + clear. induction rules; simpl; auto.
    + intros r Hin. split; [easy|]. intros (Hm & _).
      assert (In r matches) as Habs by (apply filter_In; auto).
      rewrite Hmatches in Habs. destruct Habs.
  - rewrite <- Hmatches.
    set (maxPr := maxZ (List.map priority matches)).
    set (top := List.filter (fun m => (priority m =? maxPr)%Z) matches).
    set (maxLen := maxNat (List.map consumed top)).
    exists (fun r => ruleMatches text pos r && (priority r =? maxPr)%Z
                     && (consumed r =? maxLen)).
    split.
    { subst top matches.
      rewrite (filter_filter_andb (ruleMatches text pos)).
      now rewrite filter_filter_andb. }
    assert (HmaxPr : exists w, priority w = maxPr /\ In w matches).
    { apply in_map_iff. apply maxZ_in. rewrite Hmatches. easy. }
    destruct HmaxPr as (w & Hwpr & Hw).
    assert (Htop : In w top).
    { apply filter_In. split; [easy|]. now apply Z.eqb_eq. }
    assert (HmaxLen : exists v, consumed v = maxLen /\ In v top).
    { apply in_map_iff. apply maxNat_in. intros Hnil.
      apply map_eq_nil in Hnil. rewrite Hnil in Htop. destruct Htop. }
    destruct HmaxLen as (v & Hvlen & Hv).
    apply filter_In in Hv as [Hv Hvpr]. apply Z.eqb_eq in Hvpr.
    apply filter_In in Hv as [Hvin Hvm].
    intros r Hin. rewrite !andb_true_iff, Z.eqb_eq, Nat.eqb_eq. split.
    + intros [[Hm Hpr] Hlen]. repeat split; [easy| |].
      * intros m Hmin Hmm. rewrite Hpr. apply maxZ_ge.
        apply in_map. apply filter_In. auto.
      * intros m Hmin Hmm Heq. rewrite Hlen. apply maxNat_ge.
        apply in_map. apply filter_In. split.
        -- apply filter_In. auto.
        -- apply Z.eqb_eq. congruence.
    + intros (Hm & Hpr & Hlen).
      assert (Hr : priority r = maxPr).
      { apply Z.le_antisymm.
        - apply maxZ_ge, in_map, filter_In. auto.
        - rewrite <- Hwpr. apply filter_In in Hw as [Hw1 Hw2]. auto. }
      repeat split; [easy|easy|].
      apply Nat.le_antisymm.
      * apply maxNat_ge, in_map, filter_In. split.
        -- apply filter_In. auto.
        -- now apply Z.eqb_eq.
      * rewrite <- Hvlen. apply Hlen; auto. congruence.
Qed.

(** C5. At every cursor position, [selectApplicableRules] returns exactly
    the rules that match at the cursor with both context predicates holding
    (an absent predicate counts as true), whose priority is the maximum among
    those matches, and whose consumed-length is the maximum among the
    priority survivors; reordering the rule set leaves the surviving rules
    the same, up to their order. *)
Theorem selectApplicableRules_two_level_tie_break
  (text : jsstring) (pos : nat) (rules : list Rule) :
  (forall r, In r (selectApplicableRules text pos rules) <->
             In r rules /\ survives text pos rules r) /\
  (forall r, ruleMatches text pos r =
             startsWith text (pattern r) pos
             && ctxHolds (lctx r) (take pos text)
             && ctxHolds (rctx r) (drop (pos + consumed r) text)) /\
  (forall rules', Permutation rules rules' ->
             Permutation (selectApplicableRules text pos rules)
                         (selectApplicableRules text pos rules')).
Proof.
  split; [|split].
  - destruct (selectApplicableRules_filter text pos rules) as (keep & -> & Hk).
    intros r. rewrite filter_In. split.
    + intros [Hin Hr]. split; [easy|]. now apply Hk.
    + intros [Hin Hr]. split; [easy|]. now apply Hk.
  - intros r. unfold ruleMatches.
    destruct (startsWith text (pattern r) pos); simpl; reflexivity.
  - intros rules' HP.
    destruct (selectApplicableRules_filter text pos rules) as (k1 & -> & H1).
    destruct (selectApplicableRules_filter text pos rules') as (k2 & -> & H2).
    rewrite (filter_ext_in k1 k2 rules).
    + clear H1 H2. induction HP; simpl.
      * constructor.
      * destruct (k2 x); [constructor|]; easy.
      * destruct (k2 x), (k2 y); try easy; constructor.
      * etransitivity; eauto.
    + intros r Hin.
      assert (Hin' : In r rules') by (eapply Permutation_in; eauto).
      specialize (H1 r Hin). specialize (H2 r Hin').
      destruct (k1 r), (k2 r); try easy.
      * symmetry. apply H2. eapply survives_perm; [eauto|]. now apply H1.
      * apply H1. eapply survives_perm; [symmetry; eauto|]. now apply H2.
Qed.

(* ------------------------------------------------------------------ *)
(** ** Sorting and pruning *)

Section JsSort.

Context {A : Type} (after : A -> A -> bool).

Lemma sortInsert_perm (x : A) (l : list A) :
  Permutation (sortInsert after x l) (x :: l).
Proof.
  induction l as [|y l IH]; simpl; [reflexivity|].
  destruct (after x y); [|reflexivity].
  rewrite IH. apply perm_swap.
Qed.

Lemma jsSort_perm (l : list A) : Permutation (jsSort after l) l.
Proof.
  induction l as [|x l IH]; simpl; [reflexivity|].
  rewrite sortInsert_perm. now constructor.
Qed.

Hypothesis after_total : forall a b, after a b = true -> after b a = false.
Hypothesis notAfter_trans :
  forall a b c, notAfter after a b -> notAfter after b c -> notAfter after a c.

Lemma sortInsert_sorted (x : A) (l : list A) :
  StronglySorted (notAfter after) l ->
  StronglySorted (notAfter after) (sortInsert after x l).
Proof.
  induction 1 as [|y l Hs IH Hall]; simpl.
  - repeat constructor.
  - destruct (after x y) eqn:Hxy.
    + constructor; [exact IH|].
      eapply Permutation_Forall; [symmetry; apply sortInsert_perm|].
      constructor; [now apply after_total|exact Hall].
    + constructor; [now constructor|].
      constructor; [exact Hxy|].
      eapply Forall_impl; [exact Hall|].
      intros z Hyz. now apply notAfter_trans with y.
Qed.

Lemma jsSort_sorted (l : list A) :
  StronglySorted (notAfter after) (jsSort after l).
Proof.
  induction l as [|x l IH]; simpl; [constructor|].
  now apply sortInsert_sorted.
Qed.

End JsSort.

Lemma StronglySorted_weaken {A} (R S : A -> A -> Prop) (l : list A) :
  (forall a b, R a b -> S a b) -> StronglySorted R l -> StronglySorted S l.
Proof.
  intros HRS. induction 1 as [|x l Hs IH Hall]; constructor; [exact IH|].
  eapply Forall_impl; [exact Hall|]. intros y. apply HRS.
Qed.

Lemma pruneAfter_false (a b : EncodeState) :
  pruneAfter a b = false <-> pruneOrder a b.
Proof.
  unfold pruneAfter, pruneOrder, jsOr.
  destruct (Z.eqb_spec (Z.of_nat (pos b) - Z.of_nat (pos a)) 0);
    rewrite Z.ltb_ge; lia.
Qed.

Lemma pruneFrontier_sorted (fr : list EncodeState) :
  StronglySorted pruneOrder (jsSort pruneAfter fr).
Proof.
  apply StronglySorted_weaken with (R := notAfter pruneAfter);
    [intros a b; apply pruneAfter_false | apply jsSort_sorted].
  - intros a b Hab.
    destruct (pruneAfter b a) eqn:Hba; [|reflexivity].
    exfalso. revert Hab Hba. unfold pruneAfter, jsOr.
    repeat match goal with |- context [Z.eqb ?x ?y] =>
      destruct (Z.eqb_spec x y) end; rewrite !Z.ltb_lt; lia.
  - intros a b c Hab Hbc. apply pruneAfter_false.
    apply pruneAfter_false in Hab, Hbc. unfold pruneOrder in *. lia.
Qed.

Lemma pruneFrontier_length (fr : list EncodeState) (cap : nat) :
  length (pruneFrontier fr cap) <= cap.
Proof. unfold pruneFrontier. rewrite length_take. lia. Qed.

Lemma pushExpansion_count cfg fe s :
  (pushExpansion cfg fe s).2 = (fe.2 + 1)%Z.
Proof. unfold pushExpansion. now destruct (_ <? _)%Z. Qed.

Lemma applyRule_count cfg state rule fe :
  (applyRule cfg state fe rule).2 =
  (fe.2 + Z.of_nat (length (outputs rule)))%Z.
Proof.
  unfold applyRule. revert fe.
  induction (outputs rule) as [|o os IH]; intros fe; simpl.
  - lia.
  - rewrite IH, pushExpansion_count. lia.
Qed.

Lemma applyRules_count cfg state applicable fe :
  (applyRules cfg state applicable fe).2 =
  (fe.2 + Z.of_nat (pushCount applicable))%Z.
Proof.
  unfold applyRules. revert fe.
  induction applicable as [|r rs IH]; intros fe; simpl.
  - lia.
  - rewrite IH, applyRule_count. lia.
Qed.

Lemma encodeStep_count fuel text langRules cfg state st st' :
  encodeStep fuel text langRules cfg state st = Some st' ->
  expansions st' =
  (expansions st + Z.of_nat (rulePushes text langRules state))%Z.
Proof.
  unfold encodeStep, rulePushes.
  destruct (text !! pos state) as [ch|].
  - destruct (ch =? 32)%N; [intros [= <-]; simpl; lia|].
    destruct (selectApplicableRules _ _ _) as [|r0 rs].
    + intros [= <-]. simpl. lia.
    + intros [= <-]. cbn [expansions].
      rewrite applyRules_count, applyRule_count. simpl. lia.
  - destruct (finalizeKey _ _ _); [|easy]. intros [= <-]. simpl. lia.
Qed.




Lemma ruleExpansions_length cfg state applicable :
  length (ruleExpansions cfg state applicable) = pushCount applicable.
Proof.
  unfold ruleExpansions, pushCount.
  induction applicable as [|r rs IH]; simpl; [reflexivity|].
  now rewrite length_app, length_map, IH.
Qed.



(* ------------------------------------------------------------------ *)
(** ** Normalization *)

Ltac char_facts :=
  unfold isPlainChar, isLetterOrSpace, isCombiningMark, isLowerAsciiLetter,
    isWhiteSpace, char_in_range in *; lia.

Lemma trimStart_whitespace (s : jsstring) :
  forallb isWhiteSpace s = true -> trimStart s = [].
Proof.
  induction s as [|c s IH]; simpl; [easy|].
  intros H. apply andb_true_iff in H as [-> H]. auto.
Qed.

Lemma trim_whitespace (s : jsstring) :
  forallb isWhiteSpace s = true -> trim s = [].
Proof. intros H. unfold trim. now rewrite trimStart_whitespace. Qed.

Lemma replaceEach_id cls rep (s : jsstring) :
  forallb (fun c => negb (cls c)) s = true -> replaceEach cls rep s = s.
Proof.
  unfold replaceEach. induction s as [|c s IH]; simpl; [easy|].
  intros H. apply andb_true_iff in H as [Hc H].
  destruct (cls c); [easy|]. simpl. now rewrite IH.
Qed.

Lemma replaceRunsFrom_id cls rep b (s : jsstring) :
  forallb (fun c => negb (cls c)) s = true -> replaceRunsFrom cls rep b s = s.
Proof.
  revert b. induction s as [|c s IH]; simpl; intros b H; [easy|].
  apply andb_true_iff in H as [Hc H].
  destruct (cls c); [easy|]. now rewrite IH.
Qed.

Lemma replaceEach_forallb (P cls : char -> bool) rep (s : jsstring) :
  forallb P rep = true ->
  forallb (fun c => cls c || P c) s = true ->
  forallb P (replaceEach cls rep s) = true.
Proof.
  intros Hrep. unfold replaceEach.
  induction s as [|c s IH]; simpl; [easy|].
  intros H. apply andb_true_iff in H as [Hc H].
  rewrite forallb_app, (IH H), andb_true_r.
  destruct (cls c); [easy|]. simpl in *. now rewrite Hc.
Qed.

Lemma replaceRunsFrom_forallb (P cls : char -> bool) rep b (s : jsstring) :
  forallb P rep = true ->
  (forall c, cls c = false -> P c = true) ->
  forallb P (replaceRunsFrom cls rep b s) = true.
Proof.
  intros Hrep Hcls. revert b.
  induction s as [|c s IH]; simpl; intros b; [easy|].
  destruct (cls c) eqn:Hc.
  - rewrite forallb_app, IH, andb_true_r. now destruct b.
  - simpl. now rewrite IH, Hcls.
Qed.

Lemma forallb_weaken {A} (P Q : A -> bool) (l : list A) :
  (forall x, P x = true -> Q x = true) ->
  forallb P l = true -> forallb Q l = true.
Proof.
  intros HPQ. induction l as [|x l IH]; simpl; [easy|].
  intros H. apply andb_true_iff in H as [Hx H].
  now rewrite (HPQ x Hx), IH.
Qed.

(** After the umlaut replacements only [a-z] and white space are left. *)
Lemma mapped_chars (s : jsstring) :
  forallb isLetterOrSpace s = true ->
  forallb (fun c => isLowerAsciiLetter c || isWhiteSpace c)
    (replaceEach (N.eqb 252%N) (str "ue")
       (replaceEach (N.eqb 246%N) (str "oe")
          (replaceEach (N.eqb 228%N) (str "ae")
             (replaceEach (N.eqb 223%N) (str "ss") s)))) = true.
Proof.
  intros H.
  apply replaceEach_forallb; [reflexivity|].
  eapply forallb_weaken with
    (P := fun c => isLetterOrSpace c && negb (c =? 223)%N
                   && negb (c =? 228)%N && negb (c =? 246)%N);
    [intros c; char_facts|].
  apply replaceEach_forallb; [reflexivity|].
  eapply forallb_weaken with
    (P := fun c => isLetterOrSpace c && negb (c =? 223)%N
                   && negb (c =? 228)%N);
    [intros c; char_facts|].
  apply replaceEach_forallb; [reflexivity|].
  eapply forallb_weaken with
    (P := fun c => isLetterOrSpace c && negb (c =? 223)%N);
    [intros c; char_facts|].
  apply replaceEach_forallb; [reflexivity|].
  eapply forallb_weaken; [|exact H]. intros c; char_facts.
Qed.

Lemma whitespace_runs_spaced b (s : jsstring) :
  forallb (fun c => isLowerAsciiLetter c || isWhiteSpace c) s = true ->
  spaced b (replaceRunsFrom isWhiteSpace (str " ") b s) = true.
Proof.
  revert b. induction s as [|c s IH]; simpl; intros b H; [easy|].
  apply andb_true_iff in H as [Hc H].
  destruct (isWhiteSpace c) eqn:Hws.
  - destruct b; simpl; now rewrite IH.
  - simpl. rewrite (IH false H).
    replace (c =? 32)%N with false by char_facts.
    rewrite andb_true_r. char_facts.
Qed.

Lemma trimStart_spaced b (s : jsstring) :
  spaced b s = true -> spaced true (trimStart s) = true.
Proof.
  revert b. induction s as [|c s IH]; simpl; intros b H; [easy|].
  destruct (N.eqb_spec c 32) as [->|Hc].
  - apply andb_true_iff in H as [_ H]. simpl. eauto.
  - apply andb_true_iff in H as [Hl H].
    replace (isWhiteSpace c) with false by char_facts.
    simpl. apply N.eqb_neq in Hc. now rewrite Hc, Hl, H.
Qed.

Lemma trimEnd_spaced b (s : jsstring) :
  spaced b s = true ->
  trimEnd s = [] \/ wordsFrom (negb b) (trimEnd s) = true.
Proof.
  revert b. induction s as [|c s IH]; simpl; intros b H; [now left|].
  destruct (N.eqb_spec c 32) as [->|Hc].
  - apply andb_true_iff in H as [Hb H]. destruct b; [easy|].
    destruct (IH true H) as [->|Hw]; [now left|].
    destruct (trimEnd s) eqn:Ht; [now left|right].
    simpl in *. exact Hw.
  - apply andb_true_iff in H as [Hl H]. right.
    apply N.eqb_neq in Hc.
    specialize (IH false H).
    destruct (trimEnd s) eqn:Ht.
    + replace (isWhiteSpace c) with false by char_facts.
      simpl. now rewrite Hc, Hl.
    + destruct IH as [|Hw]; [easy|].
      simpl in *. now rewrite Hc, Hl, Hw.
Qed.

Lemma preprocess_normalForm (U : Builtins) (raw : jsstring) :
  normalForm (preprocess U raw) = true.
Proof.
  unfold preprocess, trim, replaceRuns.
  match goal with |- context [replaceRunsFrom isWhiteSpace _ false ?m] =>
    assert (Hm : forallb (fun c => isLowerAsciiLetter c || isWhiteSpace c) m
                 = true)
  end.
  { apply mapped_chars. apply replaceRunsFrom_forallb; [reflexivity|].
    intros c Hc. now apply negb_false_iff in Hc. }
  apply (whitespace_runs_spaced false) in Hm.
  apply trimStart_spaced in Hm. apply trimEnd_spaced in Hm.
  destruct Hm as [->|Hm]; [reflexivity|].
  unfold normalForm. now destruct (trimEnd _).
Qed.

Lemma wordsFrom_plain a (s : jsstring) :
  wordsFrom a s = true -> forallb isPlainChar s = true.
Proof.
  revert a. induction s as [|c s IH]; simpl; intros a H; [easy|].
  destruct (N.eqb_spec c 32) as [->|Hc];
    apply andb_true_iff in H as [H1 H2]; rewrite (IH _ H2), andb_true_r.
  - reflexivity.
  - char_facts.
Qed.

Lemma wordsFrom_runs a (s : jsstring) :
  wordsFrom a s = true ->
  replaceRunsFrom isWhiteSpace (str " ") (negb a) s = s.
Proof.
  revert a. induction s as [|c s IH]; simpl; intros a H; [easy|].
  destruct (N.eqb_spec c 32) as [->|Hc];
    apply andb_true_iff in H as [H1 H2].
  - subst a. specialize (IH false H2). simpl in *. now rewrite IH.
  - replace (isWhiteSpace c) with false by char_facts.
    specialize (IH true H2). simpl in *. now rewrite IH.
Qed.

Lemma wordsFrom_trimEnd a (s : jsstring) :
  wordsFrom a s = true -> s <> [] -> trimEnd s = s.
Proof.
  revert a. induction s as [|c s IH]; simpl; intros a H Hne; [easy|].
  destruct (N.eqb_spec c 32) as [->|Hc];
    apply andb_true_iff in H as [H1 H2].
  - destruct s as [|d s]; [easy|]. rewrite (IH false H2); easy.
  - destruct s as [|d s].
    + simpl. now replace (isWhiteSpace c) with false by char_facts.
    + rewrite (IH true H2); easy.
Qed.

Lemma preprocess_fixes_normalForm (U : Builtins) `{!BuiltinsSpec U}
  (s : jsstring) :
  normalForm s = true -> preprocess U s = s.
Proof.
  destruct s as [|c0 s0] eqn:Hs.
  { intros _. unfold preprocess.
    rewrite toLowerCase_plain, normalizeNFKD_plain by reflexivity.
    reflexivity. }
  rewrite <- Hs. assert (Hne : s <> []) by now rewrite Hs.
  unfold normalForm. rewrite Hs, <- Hs. intros Hw. clear Hs c0 s0.
  pose proof (wordsFrom_plain _ _ Hw) as Hplain.
  unfold preprocess.
  rewrite toLowerCase_plain, normalizeNFKD_plain by exact Hplain.
  rewrite (replaceEach_id isCombiningMark)
    by (eapply forallb_weaken; [|exact Hplain]; intros c; char_facts).
  unfold replaceRuns at 2.
  rewrite replaceRunsFrom_id
    by (eapply forallb_weaken; [|exact Hplain]; intros c; char_facts).
  rewrite (replaceEach_id (N.eqb 223%N)), (replaceEach_id (N.eqb 228%N)),
    (replaceEach_id (N.eqb 246%N)), (replaceEach_id (N.eqb 252%N))
    by (eapply forallb_weaken; [|exact Hplain]; intros c; char_facts).
  assert (Hruns : replaceRuns isWhiteSpace (str " ") s = s).
  { unfold replaceRuns. destruct s as [|c s]; [easy|]. simpl in *.
    destruct (N.eqb_spec c 32); [easy|].
    apply andb_true_iff in Hw as [Hl Hw].
    replace (isWhiteSpace c) with false by char_facts.
    pose proof (wordsFrom_runs true s Hw) as E. simpl in E. now rewrite E. }
  rewrite Hruns. unfold trim.
  assert (Hstart : trimStart s = s).
  { destruct s as [|c s]; [easy|]. simpl in *.
    destruct (N.eqb_spec c 32); [easy|].
    apply andb_true_iff in Hw as [Hl _].
    now replace (isWhiteSpace c) with false by char_facts. }
  rewrite Hstart. now apply wordsFrom_trimEnd with false.
Qed.

(** C10. [preprocess] is idempotent: its output is empty or consists of
    words of lowercase ASCII letters separated by single spaces, with no
    white space at either end, and [preprocess] maps such a string to
    itself ([toLowerCase] and NFKD normalization leave it unchanged). *)
Theorem preprocess_idempotent (U : Builtins) (HU : BuiltinsSpec U)
  (s : jsstring) :
  normalForm (preprocess U s) = true /\
  preprocess U (preprocess U s) = preprocess U s.
Proof.
  split; [apply preprocess_normalForm|].
  apply preprocess_fixes_normalForm; [exact HU|apply preprocess_normalForm].
Qed.

Lemma asciiBuiltins_spec : BuiltinsSpec asciiBuiltins.
Proof.
  split; [|reflexivity].
  intros s. simpl. induction s as [|c s IH]; simpl; [easy|].
  intros H. apply andb_true_iff in H as [Hc H]. rewrite (IH H).
  replace (char_in_range 65 90 c) with false by char_facts. reflexivity.
Qed.

Lemma preprocess_idempotent_witness :
  BuiltinsSpec asciiBuiltins /\
  normalForm (preprocess asciiBuiltins (str " O'Connor  x ")) = true /\
  preprocess asciiBuiltins (preprocess asciiBuiltins (str " O'Connor  x "))
  = preprocess asciiBuiltins (str " O'Connor  x ").
Proof.
  split; [exact asciiBuiltins_spec|].
  exact (preprocess_idempotent asciiBuiltins asciiBuiltins_spec
           (str " O'Connor  x ")).
Defined.

(* ------------------------------------------------------------------ *)
(** ** Empty input *)

(** C8. For every configuration, [bmpmEncode] returns the empty list, and
    does so without entering any loop (for every fuel, zero included), when
    the input is empty or consists only of white space. *)
Theorem bmpmEncode_empty_input (U : Builtins) (fuel : nat) (s : jsstring)
  (cfg : BMPMConfig) :
  forallb isWhiteSpace s = true -> bmpmEncode U fuel s cfg = Some [].
Proof.
  intros H. unfold bmpmEncode. now rewrite trim_whitespace.
Qed.

Lemma bmpmEncode_empty_input_witness :
  (forallb isWhiteSpace (str "") = true /\
   bmpmEncode asciiBuiltins 0 (str "") foldApproxCfg = Some []) /\
  (forallb isWhiteSpace (str "   ") = true /\
   bmpmEncode asciiBuiltins 0 (str "   ") foldApproxCfg = Some []).
Proof.
  split; (split; [reflexivity|]).
  - apply (bmpmEncode_empty_input asciiBuiltins 0 (str "") foldApproxCfg).
    reflexivity.
  - apply (bmpmEncode_empty_input asciiBuiltins 0 (str "   ") foldApproxCfg).
    reflexivity.
Defined.

(* ------------------------------------------------------------------ *)
(** ** Matching and similarity *)

Lemma elem_of_allKeys (A : list EncodeResult) (k : jsstring) :
  k ∈ allKeys A <-> hasKey A k.
Proof.
  unfold allKeys, hasKey.
  rewrite elem_of_list_to_set, list_elem_of_In, in_flat_map.
  split; intros (r & Hr & Hk); exists r; split; auto.
  - now apply elem_of_elements, list_elem_of_In.
  - now apply list_elem_of_In, elem_of_elements.
Qed.

Section SetCounting.

Implicit Types X Y : gset jsstring.

Lemma existsb_shared X Y :
  existsb (fun k => bool_decide (k ∈ Y)) (elements X) = true <->
  exists k, k ∈ X /\ k ∈ Y.
Proof.
  rewrite existsb_exists. split; intros (k & Hx & Hy); exists k.
  - apply list_elem_of_In, elem_of_elements in Hx.
    apply bool_decide_eq_true in Hy. auto.
  - split; [now apply list_elem_of_In, elem_of_elements|].
    now apply bool_decide_eq_true.
Qed.

Lemma inter_count X Y :
  length (List.filter (fun x => bool_decide (x ∈ Y)) (elements X))
  = size (X ∩ Y).
Proof.
  unfold size, set_size. simpl. apply Permutation_length.
  apply NoDup_Permutation.
  - apply NoDup_ListNoDup, List.NoDup_filter, NoDup_ListNoDup, NoDup_elements.
  - apply NoDup_elements.
  - intros k. rewrite elem_of_elements, elem_of_intersection.
    rewrite list_elem_of_In, filter_In, <- list_elem_of_In.
    now rewrite elem_of_elements, bool_decide_eq_true.
Qed.

Lemma union_count X Y :
  size (list_to_set (elements X ++ elements Y) : gset jsstring)
  = size (X ∪ Y).
Proof. now rewrite list_to_set_app_L, !list_to_set_elements_L. Qed.

Lemma inter_le_union X Y : size (X ∩ Y) <= size (X ∪ Y).
Proof.
  apply subseteq_size. intros k Hk.
  apply elem_of_intersection in Hk as [Hk _].
  apply elem_of_union. now left.
Qed.

Lemma inter_pos X Y : 0 < size (X ∩ Y) <-> exists k, k ∈ X /\ k ∈ Y.
Proof.
  split.
  - intros H. destruct (set_choose_L (X ∩ Y)) as [k Hk].
    + intros E. rewrite E, size_empty in H. lia.
    + exists k. set_solver.
  - intros (k & Hx & Hy).
    assert (size (X ∩ Y) <> 0); [|lia].
    intros E. apply size_empty_inv in E. set_solver.
Qed.

End SetCounting.

Lemma bmpmSimilarity_jaccard U fuel a b cfg A B :
  bmpmEncode U fuel a cfg = Some A ->
  bmpmEncode U fuel b cfg = Some B ->
  bmpmSimilarity U fuel a b cfg = Some (jaccard (allKeys A) (allKeys B)).
Proof.
  intros HA HB. unfold bmpmSimilarity, jaccard.
  now rewrite HA, HB, inter_count, union_count.
Qed.

Lemma jaccard_pos X Y : (0 < jaccard X Y)%Q <-> exists k, k ∈ X /\ k ∈ Y.
Proof.
  rewrite <- inter_pos. unfold jaccard.
  pose proof (inter_le_union X Y) as Hle.
  destruct (Nat.eqb_spec (size (X ∪ Y)) 0) as [E|E].
  - split; [intros H; now apply Qlt_irrefl in H|lia].
  - unfold Qlt. simpl. lia.
Qed.

Lemma jaccard_range X Y : (0 <= jaccard X Y)%Q /\ (jaccard X Y <= 1)%Q.
Proof.
  unfold jaccard. pose proof (inter_le_union X Y) as Hle.
  destruct (Nat.eqb_spec (size (X ∪ Y)) 0) as [E|E].
  - split; [apply Qle_refl|easy].
  - unfold Qle. simpl. split; [lia|].
    rewrite <- (positive_nat_Z (Pos.of_nat (size (X ∪ Y)))).
    rewrite Nat2Pos.id by exact E. lia.
Qed.

Lemma encodeLanguages_keys_nonempty U fuel raw cfg langs out :
  encodeLanguages U fuel raw cfg langs = Some out ->
  forall r, In r out -> keys r <> ∅.
Proof.
  revert out. induction langs as [|c langs IH]; simpl; intros out H.
  - injection H as <-. easy.
  - destruct (languageRuleSets cfg !! cand_language c) as [lr|]; [|eauto].
    destruct (preprocess U _) as [|c0 norm]; [eauto|].
    destruct (encodeWithRules _ _ _ _) as [ks|]; [|easy].
    destruct (encodeLanguages _ _ _ _ _) as [out'|]; [|easy].
    injection H as <-. specialize (IH out' eq_refl).
    destruct (Nat.eqb_spec (size ks) 0) as [E|E]; [exact IH|].
    intros r [<-|Hr]; [|now apply IH]. simpl.
    intros ->. now rewrite size_empty in E.
Qed.

Lemma bmpmEncode_keys_nonempty U fuel a cfg A :
  bmpmEncode U fuel a cfg = Some A -> A <> [] -> allKeys A <> ∅.
Proof.
  unfold bmpmEncode. destruct (trim a).
  - intros [= <-]. easy.
  - intros H Hne. destruct A as [|r A]; [easy|].
    pose proof (encodeLanguages_keys_nonempty _ _ _ _ _ _ H r) as Hr.
    specialize (Hr (or_introl eq_refl)).
    apply set_choose_L in Hr as [k Hk]. intros E.
    assert (k ∈ allKeys (r :: A)) as Hin.
    { apply elem_of_allKeys. exists r. split; [now left|easy]. }
    rewrite E in Hin. now apply not_elem_of_empty in Hin.
Qed.

(** C3. When both names are encoded, [bmpmMatch] returns true exactly when
    some key of some language of the first encoding is also a key of some
    language of the second, and exactly when [bmpmSimilarity] is positive. *)
Theorem bmpmMatch_iff_keys_intersect (U : Builtins) (fuel : nat)
  (a b : jsstring) (cfg : BMPMConfig) (A B : list EncodeResult) :
  bmpmEncode U fuel a cfg = Some A ->
  bmpmEncode U fuel b cfg = Some B ->
  exists m s,
    bmpmMatch U fuel a b cfg = Some m /\
    bmpmSimilarity U fuel a b cfg = Some s /\
    (m = true <-> exists k, hasKey A k /\ hasKey B k) /\
    (m = true <-> (0 < s)%Q).
Proof.
  intros HA HB. eexists _, _.
  split; [unfold bmpmMatch; rewrite HA, HB; reflexivity|].
  split; [exact (bmpmSimilarity_jaccard _ _ _ _ _ _ _ HA HB)|].
  rewrite existsb_shared, jaccard_pos. split; [|reflexivity].
  split; intros (k & Hka & Hkb); exists k.
  - now rewrite <- !elem_of_allKeys.
  - now rewrite !elem_of_allKeys.
Qed.

Lemma bmpmMatch_iff_keys_intersect_witness :
  bmpmEncode asciiBuiltins 10 (str "v") foldApproxCfg = Some foldEncodingV /\
  bmpmEncode asciiBuiltins 10 (str "w") foldApproxCfg = Some foldEncodingW /\
  exists m s,
    bmpmMatch asciiBuiltins 10 (str "v") (str "w") foldApproxCfg = Some m /\
    bmpmSimilarity asciiBuiltins 10 (str "v") (str "w") foldApproxCfg
    = Some s /\
    (m = true <-> exists k, hasKey foldEncodingV k /\ hasKey foldEncodingW k)
    /\ (m = true <-> (0 < s)%Q).
Proof.
  split; [vm_compute; reflexivity|]. split; [vm_compute; reflexivity|].
  apply (bmpmMatch_iff_keys_intersect asciiBuiltins 10 (str "v") (str "w")
           foldApproxCfg); vm_compute; reflexivity.
Defined.

(** C9. [bmpmMatch] and [bmpmSimilarity] give the same result, or both
    fail to return, when their two names are swapped. *)
Theorem match_and_similarity_symmetric (U : Builtins) (fuel : nat)
  (a b : jsstring) (cfg : BMPMConfig) :
  bmpmMatch U fuel a b cfg = bmpmMatch U fuel b a cfg /\
  bmpmSimilarity U fuel a b cfg = bmpmSimilarity U fuel b a cfg.
Proof.
  unfold bmpmMatch, bmpmSimilarity.
  destruct (bmpmEncode U fuel a cfg) as [A|],
           (bmpmEncode U fuel b cfg) as [B|]; try easy.
  split.
  - f_equal. apply eq_true_iff_eq. rewrite !existsb_shared.
    split; intros (k & H1 & H2); exists k; auto.
  - rewrite !inter_count, !union_count.
    assert (allKeys A ∩ allKeys B = allKeys B ∩ allKeys A) as ->
      by apply (comm_L _).
    assert (allKeys A ∪ allKeys B = allKeys B ∪ allKeys A) as ->
      by apply (comm_L _).
    reflexivity.
Qed.

(* ------------------------------------------------------------------ *)
(** ** Key length *)

Lemma encodeStep_results fuel text langRules cfg state st st' :
  encodeStep fuel text langRules cfg state st = Some st' ->
  forall k, k ∈ results st' -> k ∈ results st \/ longEnough cfg k.
Proof.
  unfold encodeStep. intros H k.
  destruct (text !! pos state) as [ch|].
  - destruct (ch =? 32)%N; [injection H as <-; simpl; auto|].
    destruct (selectApplicableRules _ _ _);
      injection H as <-; simpl; auto.
  - destruct (finalizeKey fuel (key state) cfg) as [f|]; [|easy].
    injection H as <-. simpl.
    destruct (Z.leb_spec (minKeyLength cfg) (Z.of_nat (length f))); auto.
    rewrite elem_of_union, elem_of_singleton. intros [Hk| ->]; auto.
Qed.

Lemma encodeLoop_results fuel text langRules cfg st ks :
  encodeLoop fuel text langRules cfg st = Some ks ->
  (forall k, k ∈ results st -> longEnough cfg k) ->
  forall k, k ∈ ks -> longEnough cfg k.
Proof.
  revert st. induction fuel as [|fuel IH]; simpl; intros st H Hst; [easy|].
  destruct (frontier st) as [|state rest].
  - injection H as <-. exact Hst.
  - destruct (encodeStep _ _ _ _ _ _) as [st'|] eqn:Hstep; [|easy].
    apply (IH st' H). intros k Hk.
    destruct (encodeStep_results _ _ _ _ _ _ _ Hstep k Hk) as [Hold|]; auto.
Qed.

Lemma encodeWithRules_long_enough fuel text langRules cfg ks k :
  encodeWithRules fuel text langRules cfg = Some ks ->
  k ∈ ks -> longEnough cfg k.
Proof.
  intros H. apply (encodeLoop_results _ _ _ _ _ _ H).
  intros k' Hk'. simpl in Hk'. now apply not_elem_of_empty in Hk'.
Qed.

Lemma encodeLanguages_long_enough U fuel raw cfg langs out r k :
  encodeLanguages U fuel raw cfg langs = Some out ->
  In r out -> k ∈ keys r -> longEnough cfg k.
Proof.
  revert out. induction langs as [|c langs IH]; simpl; intros out H.
  - injection H as <-. easy.
  - destruct (languageRuleSets cfg !! cand_language c) as [lr|]; [|eauto].
    destruct (preprocess U _) as [|c0 norm] eqn:Hnorm; [eauto|].
    destruct (encodeWithRules _ _ _ _) as [ks|] eqn:Hks; [|easy].
    destruct (encodeLanguages _ _ _ _ _) as [out'|]; [|easy].
    injection H as <-. specialize (IH out' eq_refl).
    destruct (size ks =? 0); [exact IH|].
    intros [<-|Hr]; [|now apply IH]. simpl.
    now apply encodeWithRules_long_enough with (1 := Hks).
Qed.

(** C7. Every key of every key set [encodeWithRules] returns, and every
    key of every [EncodeResult] [bmpmEncode] returns, has length at least
    [cfg.minKeyLength] (the length is that of the finalized key, after merger
    folding and duplicate collapsing in APPROX mode). *)
Theorem keys_at_least_minKeyLength (U : Builtins) (fuel : nat)
  (cfg : BMPMConfig) :
  (forall text langRules ks k,
     encodeWithRules fuel text langRules cfg = Some ks ->
     k ∈ ks -> (minKeyLength cfg <= Z.of_nat (length k))%Z) /\
  (forall raw A r k,
     bmpmEncode U fuel raw cfg = Some A ->
     In r A -> k ∈ keys r -> (minKeyLength cfg <= Z.of_nat (length k))%Z).
Proof.
  split.
  - intros text langRules ks k. apply encodeWithRules_long_enough.
  - intros raw A r k. unfold bmpmEncode. destruct (trim raw).
    + intros [= <-]. easy.
    + apply encodeLanguages_long_enough.
Qed.

Lemma keys_at_least_minKeyLength_witness :
  (encodeWithRules 10 (str "v") foldRules foldApproxCfg
   = Some {[ str "F" ]} /\
   (minKeyLength foldApproxCfg <= Z.of_nat (length (str "F")))%Z) /\
  (bmpmEncode asciiBuiltins 10 (str "w") foldApproxCfg = Some foldEncodingW /\
   (minKeyLength foldApproxCfg <= Z.of_nat (length (str "W")))%Z).
Proof.
  pose proof (keys_at_least_minKeyLength asciiBuiltins 10 foldApproxCfg)
    as [Hrules Hencode].
  split; (split; [vm_compute; reflexivity|]).
  - apply (Hrules (str "v") foldRules {[ str "F" ]} (str "F")).
    + vm_compute. reflexivity.
    + now apply elem_of_singleton.
  - apply (Hencode (str "w") foldEncodingW
             {| res_language := str "english";
                keys := {[ str "F"; str "W" ]} |} (str "W")).
    + vm_compute. reflexivity.
    + now left.
    + simpl. apply elem_of_union. right. now apply elem_of_singleton.
Defined.

(* ------------------------------------------------------------------ *)
(** ** Termination and the size of the frontier *)

Lemma stuck_loop (fuel : nat) (k : jsstring) (res : gset jsstring) (e : Z) :
  k = [] \/ k = str "A" ->
  encodeLoop fuel (str "a") stuckRules stuckCfg
    {| frontier := [{| pos := 0; key := k |}]; results := res;
       expansions := e |} = None.
Proof.
  revert k res e. induction fuel as [|fuel IH]; intros k res e Hk; [easy|].
  simpl. unfold encodeStep. simpl.
  change (selectApplicableRules (str "a") 0 (rules stuckRules))
    with (rules stuckRules).
  simpl. unfold applyRule, pushExpansion. simpl.
  assert (Hkey : collapseRepeats (k ++ str "A") = str "A")
    by (destruct Hk as [-> | ->]; reflexivity).
  rewrite Hkey.
  change (consumed (R "a" ["A"] 1 None None (Some 0))) with 0.
  destruct (20000 <? e + 1)%Z; simpl; apply IH; now right.
Qed.

(** A rule that consumes nothing keeps the loop of [encodeWithRules]
    running forever. *)
Lemma encodeWithRules_diverges :
  ~ exists fuel keys,
      encodeWithRules fuel (str "a") stuckRules stuckCfg = Some keys.
Proof.
  intros (fuel & ks & H). unfold encodeWithRules, initialState in H.
  rewrite stuck_loop in H; [easy|now left].
Qed.

(** *** Fuel *)

Lemma mergerLoop_mono fuel fuel' symbols merger rest out v :
  mergerLoop fuel symbols merger rest out = Some v ->
  fuel <= fuel' ->
  mergerLoop fuel' symbols merger rest out = Some v.
Proof.
  revert fuel' rest out.
  induction fuel as [|fuel IH]; intros fuel' rest out H Hle; [easy|].
  destruct fuel' as [|fuel']; [lia|]. simpl in *.
  destruct rest as [|c rest]; [exact H|].
  destruct (List.find _ symbols); apply IH; auto; lia.
Qed.

Lemma finalizeKey_mono fuel fuel' k cfg f :
  finalizeKey fuel k cfg = Some f ->
  fuel <= fuel' ->
  finalizeKey fuel' k cfg = Some f.
Proof.
  unfold finalizeKey, applyMergerTable. intros H Hle.
  destruct (ruleType cfg); [exact H|].
  destruct (mergerTable cfg) as [m|]; [|exact H].
  destruct (mergerLoop fuel _ _ _ _) as [v|] eqn:Hv; [|easy].
  now rewrite (mergerLoop_mono _ _ _ _ _ _ _ Hv Hle).
Qed.

Lemma encodeStep_mono fuel fuel' text langRules cfg state st st' :
  encodeStep fuel text langRules cfg state st = Some st' ->
  fuel <= fuel' ->
  encodeStep fuel' text langRules cfg state st = Some st'.
Proof.
  unfold encodeStep. destruct (text !! pos state); [now intros H _|].
  destruct (finalizeKey fuel _ _) as [f|] eqn:Hf; [|easy].
  intros H Hle. now rewrite (finalizeKey_mono _ _ _ _ _ Hf Hle).
Qed.

Lemma encodeLoop_mono fuel fuel' text langRules cfg st ks :
  encodeLoop fuel text langRules cfg st = Some ks ->
  fuel <= fuel' ->
  encodeLoop fuel' text langRules cfg st = Some ks.
Proof.
  revert fuel' st. induction fuel as [|fuel IH]; intros fuel' st H Hle;
    [easy|].
  destruct fuel' as [|fuel']; [lia|]. simpl in *.
  destruct (frontier st) as [|state rest]; [exact H|].
  destruct (encodeStep fuel _ _ _ _ _) as [st'|] eqn:Hstep; [|easy].
  rewrite (encodeStep_mono _ fuel' _ _ _ _ _ _ Hstep) by lia.
  apply IH; [exact H|lia].
Qed.

Lemma encodeLanguages_mono U fuel fuel' raw cfg langs out :
  encodeLanguages U fuel raw cfg langs = Some out ->
  fuel <= fuel' ->
  encodeLanguages U fuel' raw cfg langs = Some out.
Proof.
  intros H Hle. revert out H.
  induction langs as [|c langs IH]; simpl; intros out H; [exact H|].
  destruct (languageRuleSets cfg !! cand_language c) as [lr|]; [|eauto].
  destruct (preprocess U _) as [|c0 norm]; [eauto|].
  destruct (encodeWithRules fuel _ _ _) as [ks|] eqn:Hks; [|easy].
  destruct (encodeLanguages U fuel _ _ _) as [out'|]; [|easy].
  unfold encodeWithRules in *.
  rewrite (encodeLoop_mono _ fuel' _ _ _ _ _ Hks Hle).
  now rewrite (IH out' eq_refl).
Qed.

Lemma bmpmEncode_mono U fuel fuel' raw cfg out :
  bmpmEncode U fuel raw cfg = Some out ->
  fuel <= fuel' ->
  bmpmEncode U fuel' raw cfg = Some out.
Proof.
  unfold bmpmEncode. destruct (trim raw); [easy|].
  apply encodeLanguages_mono.
Qed.

Lemma mergerLoop_terminates symbols merger :
  Forall (fun sym => 1 <= length sym) symbols ->
  forall fuel rest out,
    length rest < fuel ->
    exists v, mergerLoop fuel symbols merger rest out = Some v.
Proof.
  intros Hsym. induction fuel as [|fuel IH]; intros rest out Hlt; [lia|].
  simpl. destruct rest as [|c rest]; [eauto|].
  destruct (List.find (fun sym => isPrefix sym (c :: rest)) symbols)
    as [sym|] eqn:Hfind.
  - apply find_some in Hfind as [Hin _].
    rewrite Forall_forall in Hsym. apply list_elem_of_In, Hsym in Hin.
    apply IH. rewrite length_drop. simpl in *. lia.
  - apply IH. simpl in Hlt. lia.
Qed.

Lemma finalizeKey_terminates cfg k :
  mergerAdvances cfg = true ->
  exists f, forall fuel, length k < fuel -> finalizeKey fuel k cfg = Some f.
Proof.
  unfold mergerAdvances, finalizeKey, applyMergerTable. intros Hadv.
  destruct (ruleType cfg); [eauto|].
  destruct (mergerTable cfg) as [m|]; [|eauto].
  set (symbols := jsSort longerFirst (List.map fst m)).
  assert (Hsym : Forall (fun sym => 1 <= length sym) symbols).
  { eapply Permutation_Forall; [symmetry; apply jsSort_perm|].
    apply Forall_forall. intros sym Hin.
    apply list_elem_of_In, in_map_iff in Hin as ([k' v'] & <- & Hin).
    rewrite forallb_forall in Hadv. specialize (Hadv _ Hin).
    now apply Nat.leb_le in Hadv. }
  destruct (mergerLoop_terminates symbols m Hsym (S (length k)) k [])
    as [v Hv]; [lia|].
  exists (collapseRepeats v). intros fuel Hlt.
  rewrite (mergerLoop_mono _ fuel _ _ _ _ _ Hv); [reflexivity|lia].
Qed.

(** *** A measure that every iteration decreases *)

Section Measure.

Variables (text : jsstring) (langRules : LanguageRules) (cfg : BMPMConfig).

Local Abbreviation weight := (stateWeight text langRules).
Local Abbreviation total := (frontierWeight text langRules).

Lemma frontierWeight_app fr1 fr2 :
  total (fr1 ++ fr2) = total fr1 + total fr2.
Proof. induction fr1 as [|s fr1 IH]; simpl; lia. Qed.

Lemma frontierWeight_perm fr1 fr2 :
  Permutation fr1 fr2 -> total fr1 = total fr2.
Proof. induction 1; simpl; lia. Qed.

Lemma frontierWeight_take n fr :
  total (take n fr) <= total fr.
Proof.
  revert n. induction fr as [|s fr IH]; intros [|n]; simpl; try lia.
  specialize (IH n). lia.
Qed.

Lemma stateWeight_pos s : 1 <= weight s.
Proof.
  unfold stateWeight, branching.
  apply Nat.neq_0_lt_0, Nat.pow_nonzero. lia.
Qed.

Lemma stateWeight_advance s s' :
  pos s < length text -> pos s + 1 <= pos s' ->
  branching langRules * weight s' <= weight s.
Proof.
  unfold stateWeight. intros Hlt Hadv.
  replace (length text - pos s) with (S (length text - pos s - 1)) by lia.
  rewrite Nat.pow_succ_r'. apply Nat.mul_le_mono_l.
  apply Nat.pow_le_mono_r; [unfold branching|]; lia.
Qed.

Lemma pushExpansion_weight fe s :
  total (pushExpansion cfg fe s).1
  <= total fe.1 + weight s.
Proof.
  unfold pushExpansion. destruct (_ <? _)%Z; simpl.
  - unfold pruneFrontier. etransitivity; [apply frontierWeight_take|].
    rewrite (frontierWeight_perm _ _ (jsSort_perm _ _)).
    rewrite frontierWeight_app. simpl. lia.
  - rewrite frontierWeight_app. simpl. lia.
Qed.

Lemma applyRule_weight state fe rule w :
  (forall k, weight {| pos := pos state + consumed rule; key := k |}
             <= w) ->
  total (applyRule cfg state fe rule).1
  <= total fe.1 + length (outputs rule) * w.
Proof.
  intros Hw. unfold applyRule. revert fe.
  induction (outputs rule) as [|o os IH]; intros fe; simpl; [lia|].
  etransitivity; [apply IH|].
  pose proof (pushExpansion_weight fe
    {| pos := pos state + consumed rule;
       key := if collapseDuplicates cfg
              then collapseRepeats (key state ++ o)
              else key state ++ o |}) as Hpush.
  specialize (Hw (if collapseDuplicates cfg
                  then collapseRepeats (key state ++ o)
                  else key state ++ o)).
  lia.
Qed.

Lemma applyRules_weight state applicable fe w :
  (forall rule k, In rule applicable ->
     weight {| pos := pos state + consumed rule; key := k |} <= w) ->
  total (applyRules cfg state applicable fe).1
  <= total fe.1 + pushCount applicable * w.
Proof.
  unfold applyRules. revert fe.
  induction applicable as [|r rs IH]; intros fe Hw; simpl; [lia|].
  etransitivity; [apply IH; intros; apply Hw; now right|].
  pose proof (applyRule_weight state fe r w) as Hr.
  specialize (Hr (fun k => Hw r k (or_introl eq_refl))). lia.
Qed.

Lemma pushCount_filter keep (l : list Rule) :
  pushCount (List.filter keep l) <= pushCount l.
Proof.
  induction l as [|r l IH]; simpl; [lia|].
  destruct (keep r); simpl; lia.
Qed.

(** Each iteration returns, given fuel for the finalization of its key,
    and leaves a frontier of smaller weight. *)
Lemma encodeStep_progress state st :
  rulesAdvance langRules = true ->
  mergerAdvances cfg = true ->
  exists st',
    (forall fuel, length (key state) < fuel ->
       encodeStep fuel text langRules cfg state st = Some st') /\
    total (frontier st')
    < weight state + total (frontier st).
Proof.
  intros Hrules Hmerger. unfold encodeStep.
  pose proof (stateWeight_pos state) as Hpos.
  destruct (text !! pos state) as [ch|] eqn:Hch.
  - apply lookup_lt_Some in Hch.
    assert (Hnext : forall k,
      weight {| pos := pos state + 1; key := k |} < weight state).
    { intros k.
      pose proof (stateWeight_advance state
        {| pos := pos state + 1; key := k |} Hch) as Hadv.
      pose proof (stateWeight_pos {| pos := pos state + 1; key := k |}).
      simpl in Hadv. unfold branching in Hadv. specialize (Hadv ltac:(lia)).
      nia. }
    destruct (ch =? 32)%N.
    { eexists; split; [reflexivity|]. simpl.
      rewrite frontierWeight_app. simpl.
      specialize (Hnext (key state)). lia. }
    destruct (selectApplicableRules_filter text (pos state)
                (rules langRules)) as (keep & Hsel & _).
    destruct (selectApplicableRules _ _ _) as [|r0 rs] eqn:Happ.
    { eexists; split; [reflexivity|]. simpl.
      rewrite frontierWeight_app. simpl.
      specialize (Hnext (key state ++ fallbackMapChar ch (ruleType cfg))).
      lia. }
    eexists; split; [reflexivity|]. cbn [frontier].
    set (w := weight {| pos := pos state + 1; key := [] |}).
    eapply Nat.le_lt_trans;
      [apply (applyRules_weight state (r0 :: rs) _ w)|].
    + intros rule k Hin. rewrite Hsel in Hin.
      apply filter_In in Hin as [Hin _].
      unfold rulesAdvance in Hrules. rewrite forallb_forall in Hrules.
      apply Hrules, Nat.leb_le in Hin.
      unfold w, stateWeight. simpl.
      apply Nat.pow_le_mono_r; [unfold branching|]; lia.
    + cbn [fst].
      pose proof (pushCount_filter keep (rules langRules)) as Hcount.
      rewrite <- Hsel in Hcount.
      pose proof (stateWeight_advance state
        {| pos := pos state + 1; key := [] |} Hch) as Hadv.
      cbn [pos] in Hadv. specialize (Hadv ltac:(lia)). fold w in Hadv.
      pose proof (stateWeight_pos {| pos := pos state + 1; key := [] |})
        as Hw. fold w in Hw. unfold branching in Hadv.
      generalize dependent (pushCount (r0 :: rs)).
      generalize dependent (pushCount (rules langRules)).
      intros K Hadv c Hcount. clearbody w. nia.
  - destruct (finalizeKey_terminates cfg (key state) Hmerger) as [f Hf].
    eexists; split.
    + intros fuel Hlt. rewrite (Hf fuel Hlt). reflexivity.
    + simpl. lia.
Qed.

Lemma encodeLoop_terminates :
  rulesAdvance langRules = true ->
  mergerAdvances cfg = true ->
  forall n st,
    total (frontier st) < n ->
    exists fuel0 ks,
      forall fuel, fuel0 <= fuel ->
        encodeLoop fuel text langRules cfg st = Some ks.
Proof.
  intros Hrules Hmerger. induction n as [|n IH]; intros st Hlt; [lia|].
  destruct (frontier st) as [|state rest] eqn:Hfr.
  - exists 1, (results st). intros [|fuel] Hle; [lia|]. simpl.
    now rewrite Hfr.
  - destruct (encodeStep_progress state
      {| frontier := rest; results := results st;
         expansions := expansions st |} Hrules Hmerger)
      as (st' & Hstep & Hdec).
    simpl in Hlt, Hdec.
    destruct (IH st') as (fuel1 & ks & Hks); [lia|].
    exists (S (Nat.max fuel1 (S (length (key state))))), ks.
    intros [|fuel] Hle; [lia|]. simpl. rewrite Hfr.
    rewrite Hstep by lia. apply Hks. lia.
Qed.

End Measure.

(** *** The frontier stays small *)

Lemma pushExpansion_inv cfg fe s :
  pushInv cfg fe -> pushInv cfg (pushExpansion cfg fe s).
Proof.
  unfold pushInv, pushExpansion. intros H.
  destruct (Z.ltb_spec (maxExpansions cfg) (fe.2 + 1)); simpl.
  - left. split; [lia|].
    pose proof (pruneFrontier_length (fe.1 ++ [s]) 1024). lia.
  - right. rewrite length_app. simpl. lia.
Qed.

Lemma applyRules_inv cfg state applicable fe :
  pushInv cfg fe -> pushInv cfg (applyRules cfg state applicable fe).
Proof.
  unfold applyRules. revert fe.
  induction applicable as [|r rs IH]; intros fe H; simpl; [exact H|].
  apply IH. unfold applyRule. clear IH. revert fe H.
  induction (outputs r) as [|o os IHo]; intros fe H; simpl; [exact H|].
  apply IHo. now apply pushExpansion_inv.
Qed.

Lemma loopStep_inv text langRules cfg st st' :
  loopStep text langRules cfg st st' ->
  frontierInv cfg (frontier st) (expansions st) ->
  frontierInv cfg (frontier st') (expansions st').
Proof.
  intros [fuel st0 state rest st1 Hfr Hstep]. rewrite Hfr.
  unfold frontierInv. simpl length. intros Hinv.
  assert (Hpush : pushInv cfg (rest, expansions st0))
    by (unfold pushInv; simpl; lia).
  unfold encodeStep in Hstep.
  destruct (text !! pos state) as [ch|].
  - destruct (ch =? 32)%N.
    { injection Hstep as <-. simpl. rewrite length_app. simpl. lia. }
    destruct (selectApplicableRules _ _ _) as [|r0 rs].
    { injection Hstep as <-. simpl. rewrite length_app. simpl. lia. }
    injection Hstep as <-. cbn [frontier expansions].
    pose proof (applyRules_inv cfg state (r0 :: rs) _ Hpush) as H.
    unfold pushInv, applyRules in *. cbn [fold_left] in H. lia.
  - destruct (finalizeKey _ _ _); [|easy].
    injection Hstep as <-. simpl. lia.
Qed.

Lemma frontierInv_bound cfg fr e :
  frontierInv cfg fr e -> (Z.of_nat (length fr) <= frontierBound cfg)%Z.
Proof. unfold frontierInv, frontierBound. lia. Qed.

(** C1, as amended. For every text, rule set and configuration, at the
    head of every iteration of the loop of [encodeWithRules] the frontier
    holds at most max(1024, maxExpansions + 1) elements, whether or not the
    loop ever ends. And when every rule consumes at least one code unit and,
    in APPROX mode, no key of the merger table is empty, [encodeWithRules]
    returns: from some amount of fuel on it yields one and the same key
    set. *)
Theorem encodeWithRules_terminates_bounded (text : jsstring)
  (langRules : LanguageRules) (cfg : BMPMConfig) :
  (forall st,
     rtc (loopStep text langRules cfg) initialState st ->
     (Z.of_nat (length (frontier st)) <= frontierBound cfg)%Z) /\
  (rulesAdvance langRules = true ->
   mergerAdvances cfg = true ->
   exists fuel0 ks,
     forall fuel, fuel0 <= fuel ->
       encodeWithRules fuel text langRules cfg = Some ks).
Proof.
  split.
  - intros st Hreach. apply frontierInv_bound with (expansions st).
    revert st Hreach. apply rtc_ind_r.
    + unfold frontierInv. simpl. lia.
    + intros st1 st2 _ Hstep IH. eapply loopStep_inv; eauto.
  - intros Hrules Hmerger. unfold encodeWithRules.
    eapply encodeLoop_terminates; [exact Hrules|exact Hmerger|].
    apply Nat.lt_succ_diag_r.
Qed.

(** The bound holds of the rule set whose loop never ends, and the loop of
    a rule set whose rules advance ends. *)
Lemma encodeWithRules_terminates_bounded_witness :
  (rulesAdvance stuckRules = false /\
   forall st,
     rtc (loopStep (str "a") stuckRules stuckCfg) initialState st ->
     (Z.of_nat (length (frontier st)) <= frontierBound stuckCfg)%Z) /\
  (rulesAdvance foldRules = true /\
   mergerAdvances foldApproxCfg = true /\
   exists fuel0 ks,
     forall fuel, fuel0 <= fuel ->
       encodeWithRules fuel (str "vw") foldRules foldApproxCfg = Some ks).
Proof.
  split.
  - split; [reflexivity|].
    exact (proj1 (encodeWithRules_terminates_bounded (str "a") stuckRules
                    stuckCfg)).
  - split; [reflexivity|]. split; [reflexivity|].
    exact (proj2 (encodeWithRules_terminates_bounded (str "vw") foldRules
                    foldApproxCfg) eq_refl eq_refl).
Defined.

(** *** The top-level functions return *)

Lemma allRulesAdvance_lookup cfg language langRules :
  allRulesAdvance cfg = true ->
  languageRuleSets cfg !! language = Some langRules ->
  rulesAdvance langRules = true.
Proof.
  unfold allRulesAdvance. rewrite forallb_forall. intros Hall Hlook.
  apply (Hall (language, langRules)).
  now apply list_elem_of_In, elem_of_map_to_list.
Qed.

Lemma encodeLanguages_terminates U raw cfg langs :
  allRulesAdvance cfg = true ->
  mergerAdvances cfg = true ->
  exists fuel0 out,
    forall fuel, fuel0 <= fuel ->
      encodeLanguages U fuel raw cfg langs = Some out.
Proof.
  intros Hrules Hmerger.
  induction langs as [|c langs (fuel2 & out' & IH)]; simpl.
  - exists 0, []. reflexivity.
  - destruct (languageRuleSets cfg !! cand_language c) as [lr|] eqn:Hlook;
      [|eauto].
    destruct (preprocess U _) as [|c0 norm]; [eauto|].
    destruct (encodeLoop_terminates (c0 :: norm) lr cfg
                (allRulesAdvance_lookup _ _ _ Hrules Hlook) Hmerger
                (S (frontierWeight (c0 :: norm) lr (frontier initialState)))
                initialState (Nat.lt_succ_diag_r _))
      as (fuel1 & ks & Hks).
    exists (Nat.max fuel1 fuel2). eexists. intros fuel Hle.
    unfold encodeWithRules. rewrite Hks, IH by lia. reflexivity.
Qed.

Lemma bmpmEncode_terminates U raw cfg :
  allRulesAdvance cfg = true ->
  mergerAdvances cfg = true ->
  exists fuel0 out,
    forall fuel, fuel0 <= fuel -> bmpmEncode U fuel raw cfg = Some out.
Proof.
  intros Hrules Hmerger. unfold bmpmEncode.
  destruct (trim raw); [exists 0, []; reflexivity|].
  now apply encodeLanguages_terminates.
Qed.

Lemma stuck_bmpmEncode (fuel : nat) :
  bmpmEncode asciiBuiltins fuel (str "a") stuckCfg = None.
Proof.
  assert (Hd : exists sc langs,
            detectLanguages
              (toLowerCase asciiBuiltins
                 (normalizeNFC asciiBuiltins (str "a"))) stuckCfg
            = {| cand_language := str "english"; score := sc |} :: langs)
    by (vm_compute; eauto).
  destruct Hd as (sc & langs & Hd).
  unfold bmpmEncode. change (trim (str "a")) with [97%N]. cbv iota.
  rewrite Hd. cbn [encodeLanguages cand_language].
  assert (Hl : languageRuleSets stuckCfg !! str "english" = Some stuckRules)
    by (vm_compute; reflexivity).
  rewrite Hl.
  assert (Hp : preprocess asciiBuiltins
                 (transliterateForLanguage
                    (toLowerCase asciiBuiltins
                       (normalizeNFC asciiBuiltins (str "a")))
                    (str "english") stuckCfg) = [97%N])
    by (vm_compute; reflexivity).
  rewrite Hp. unfold encodeWithRules, initialState.
  change [97%N] with (str "a").
  rewrite stuck_loop; [reflexivity|now left].
Qed.

(** With a rule that consumes nothing, [bmpmSimilarity] does not return,
    whatever the fuel. *)
Lemma bmpmSimilarity_diverges :
  ~ exists fuel s,
      bmpmSimilarity asciiBuiltins fuel (str "a") (str "a") stuckCfg = Some s.
Proof.
  intros (fuel & s & H). unfold bmpmSimilarity in H.
  now rewrite stuck_bmpmEncode in H.
Qed.

(** C4, as amended. Whenever [bmpmSimilarity] returns, its value lies in
    [0, 1]; and for a name whose encoding is not empty (so that its key set
    is not empty), the similarity of the name with itself is 1. It returns,
    from some amount of fuel on with one and the same value, for all names
    when every rule of every rule set of the configuration consumes at
    least one code unit, no key of the merger table is empty in APPROX
    mode, and the languages of the heuristics are keys of
    [languageRuleSets] or name no member of [Object.prototype] (the last
    condition keeps the property access inside the model). *)
Theorem bmpmSimilarity_range (U : Builtins) (a : jsstring)
  (cfg : BMPMConfig) :
  (forall fuel b s, bmpmSimilarity U fuel a b cfg = Some s ->
                    (0 <= s)%Q /\ (s <= 1)%Q) /\
  (forall fuel A, bmpmEncode U fuel a cfg = Some A -> A <> [] ->
             allKeys A <> ∅ /\
             exists s, bmpmSimilarity U fuel a a cfg = Some s /\ (s == 1)%Q) /\
  (allRulesAdvance cfg = true ->
   mergerAdvances cfg = true ->
   ownLanguageLookups cfg = true ->
   forall b,
     exists fuel0 s,
       (forall fuel, fuel0 <= fuel ->
          bmpmSimilarity U fuel a b cfg = Some s) /\
       (0 <= s)%Q /\ (s <= 1)%Q).
Proof.
  split; [|split].
  - intros fuel b s. unfold bmpmSimilarity.
    destruct (bmpmEncode U fuel a cfg) as [A|]; [|easy].
    destruct (bmpmEncode U fuel b cfg) as [B|]; [|easy].
    rewrite inter_count, union_count. intros [= <-].
    apply jaccard_range.
  - intros fuel A HA Hne.
    pose proof (bmpmEncode_keys_nonempty _ _ _ _ _ HA Hne) as Hkeys.
    split; [exact Hkeys|].
    rewrite (bmpmSimilarity_jaccard _ _ _ _ _ _ _ HA HA).
    eexists; split; [reflexivity|]. unfold jaccard.
    assert (allKeys A ∩ allKeys A = allKeys A) as -> by apply (idemp_L _).
    assert (allKeys A ∪ allKeys A = allKeys A) as -> by apply (idemp_L _).
    destruct (Nat.eqb_spec (size (allKeys A)) 0) as [E|E].
    + apply size_empty_inv in E. exfalso. apply Hkeys. now apply leibniz_equiv.
    + unfold Qeq. simpl.
      rewrite <- (positive_nat_Z (Pos.of_nat (size (allKeys A)))).
      rewrite Nat2Pos.id by exact E. lia.
  - intros Hrules Hmerger _ b.
    destruct (bmpmEncode_terminates U a cfg Hrules Hmerger)
      as (fuelA & A & HA).
    destruct (bmpmEncode_terminates U b cfg Hrules Hmerger)
      as (fuelB & B & HB).
    exists (Nat.max fuelA fuelB), (jaccard (allKeys A) (allKeys B)).
    split; [|apply jaccard_range].
    intros fuel Hle. apply bmpmSimilarity_jaccard; [apply HA|apply HB]; lia.
Qed.

Lemma bmpmSimilarity_range_witness :
  (bmpmSimilarity asciiBuiltins 10 (str "v") (str "w") foldApproxCfg
   = Some (1 # 2)%Q /\
   (0 <= 1 # 2)%Q /\ (1 # 2 <= 1)%Q) /\
  (bmpmEncode asciiBuiltins 10 (str "v") foldApproxCfg = Some foldEncodingV /\
   foldEncodingV <> [] /\
   allKeys foldEncodingV <> ∅ /\
   exists s,
     bmpmSimilarity asciiBuiltins 10 (str "v") (str "v") foldApproxCfg
     = Some s /\ (s == 1)%Q) /\
  (allRulesAdvance foldApproxCfg = true /\
   mergerAdvances foldApproxCfg = true /\
   ownLanguageLookups foldApproxCfg = true /\
   exists fuel0 s,
     (forall fuel, fuel0 <= fuel ->
        bmpmSimilarity asciiBuiltins fuel (str "v") (str "w") foldApproxCfg
        = Some s) /\
     (0 <= s)%Q /\ (s <= 1)%Q).
Proof.
  pose proof (bmpmSimilarity_range asciiBuiltins (str "v") foldApproxCfg)
    as (Hrange & Hself & Hreturns).
  split; [|split].
  - split; [vm_compute; reflexivity|].
    apply (Hrange 10 (str "w")). vm_compute. reflexivity.
  - split; [vm_compute; reflexivity|]. split; [easy|].
    apply (Hself 10); [vm_compute; reflexivity|easy].
  - split; [vm_compute; reflexivity|]. split; [reflexivity|].
    split; [reflexivity|].
    apply Hreturns; vm_compute; reflexivity.
Defined.

(* ------------------------------------------------------------------ *)
(** ** EXACT against APPROX *)

(** Folding can lower the score: with the rules v -> V|F and w -> V|F|W and
    the merger table V -> F, the names "v" and "w" score 2/3 under EXACT,
    with or without duplicate collapsing during the search, and 1/2 under
    APPROX. *)
Lemma foldApprox_lower_than_exact :
  exists sA sE,
    bmpmSimilarity asciiBuiltins 10 (str "v") (str "w") foldApproxCfg
    = Some sA /\
    bmpmSimilarity asciiBuiltins 10 (str "v") (str "w") (foldExactCfg true)
    = Some sE /\
    bmpmSimilarity asciiBuiltins 10 (str "v") (str "w") (foldExactCfg false)
    = Some sE /\
    (sA < sE)%Q.
Proof.
  exists (1 # 2)%Q, (2 # 3)%Q. repeat split; vm_compute; reflexivity.
Qed.

Lemma mergerGet_nonempty merger sym :
  forallb (fun kv => 1 <=? length kv.2) merger = true ->
  In sym (List.map fst merger) -> mergerGet merger sym <> [].
Proof.
  induction merger as [|[k v] merger IH]; simpl; [easy|].
  intros H Hin. apply andb_true_iff in H as [Hv H].
  case_bool_decide.
  - now destruct v.
  - destruct Hin as [->|Hin]; [easy|]. now apply IH.
Qed.

Lemma mergerLoop_nonempty fuel symbols merger rest out v :
  (forall sym, In sym symbols -> mergerGet merger sym <> []) ->
  mergerLoop fuel symbols merger rest out = Some v ->
  rest <> [] \/ out <> [] -> v <> [].
Proof.
  intros Hget. revert rest out.
  induction fuel as [|fuel IH]; intros rest out H Hne; [easy|].
  simpl in H. destruct rest as [|c rest].
  - injection H as <-. now destruct Hne.
  - destruct (List.find (fun sym => isPrefix sym (c :: rest)) symbols)
      as [sym|] eqn:Hfind.
    + apply find_some in Hfind as [Hin _]. apply (IH _ _ H). right.
      specialize (Hget sym Hin).
      destruct (mergerGet merger sym); [easy|]. now destruct out.
    + apply (IH _ _ H). right. now destruct out.
Qed.

Section ExactApprox.

Variables (U : Builtins) (cfg : BMPMConfig).
Variables (mergerE mergerA : option (list (jsstring * jsstring))).

Let exactCfg : BMPMConfig := withMode cfg EXACT mergerE.
Let approxCfg : BMPMConfig := withMode cfg APPROX mergerA.

(** Under both modes an iteration away from the end of the text pushes
    the same elements. *)
Lemma encodeStep_same_frontier fuel text langRules state rest resE resA e ch :
  vowelsCovered text langRules = true ->
  text !! pos state = Some ch ->
  exists fr' e',
    encodeStep fuel text langRules exactCfg state
      {| frontier := rest; results := resE; expansions := e |}
    = Some {| frontier := fr'; results := resE; expansions := e' |} /\
    forall fuelA,
      encodeStep fuelA text langRules approxCfg state
        {| frontier := rest; results := resA; expansions := e |}
      = Some {| frontier := fr'; results := resA; expansions := e' |}.
Proof.
  intros Hcov Hch. unfold encodeStep. rewrite Hch.
  destruct (ch =? 32)%N; [eexists _, _; split; reflexivity|].
  destruct (selectApplicableRules _ _ _) as [|r0 rs] eqn:Happ.
  - unfold vowelsCovered in Hcov. rewrite forallb_forall in Hcov.
    assert (Hin : In (pos state) (seq 0 (length text))).
    { apply in_seq. apply lookup_lt_Some in Hch. lia. }
    specialize (Hcov _ Hin). cbv beta in Hcov.
    rewrite Hch, Happ, orb_false_r in Hcov.
    apply negb_true_iff in Hcov.
    eexists _, _. split; [reflexivity|]. intros _. simpl.
    now rewrite Hcov.
  - eexists _, _. split; reflexivity.
Qed.

(** When the loop ends under EXACT it ends under APPROX, given a merger
    table that advances. *)
Lemma encodeLoop_approx_returns fuel text langRules stE stA ksE :
  vowelsCovered text langRules = true ->
  mergerAdvances approxCfg = true ->
  frontier stE = frontier stA ->
  expansions stE = expansions stA ->
  encodeLoop fuel text langRules exactCfg stE = Some ksE ->
  exists fuelA ksA, encodeLoop fuelA text langRules approxCfg stA = Some ksA.
Proof.
  intros Hcov Hadv. revert stE stA ksE.
  induction fuel as [|fuel IH]; intros stE stA ksE Hfr Hexp H; [easy|].
  simpl in H. destruct (frontier stE) as [|state rest] eqn:HfrE.
  - exists 1, (results stA). simpl. now rewrite <- Hfr.
  - destruct (encodeStep fuel text langRules exactCfg state _) as [stE'|]
      eqn:HE; [|easy].
    destruct (text !! pos state) as [ch|] eqn:Hch.
    + destruct (encodeStep_same_frontier fuel text langRules state rest
                  (results stE) (results stA) (expansions stE) ch Hcov Hch)
        as (fr' & e' & HsE & HsA).
      rewrite HsE in HE. injection HE as <-.
      destruct (IH {| frontier := fr'; results := results stE;
                      expansions := e' |}
                   {| frontier := fr'; results := results stA;
                      expansions := e' |} ksE eq_refl eq_refl H)
        as (fuelA & ksA & HA).
      exists (S fuelA), ksA. simpl. rewrite <- Hfr, <- Hexp, HsA. exact HA.
    + destruct (finalizeKey_terminates approxCfg (key state) Hadv) as [f Hf].
      unfold encodeStep in HE. rewrite Hch in HE.
      destruct (finalizeKey fuel (key state) exactCfg) as [fE|]; [|easy].
      injection HE as <-.
      match type of H with
      | encodeLoop _ _ _ _ ?stE' = _ =>
          destruct (IH stE'
                      {| frontier := rest;
                         results :=
                           if (minKeyLength approxCfg
                               <=? Z.of_nat (length f))%Z
                           then results stA ∪ {[ f ]}
                           else results stA;
                         expansions := expansions stA |} ksE
                      eq_refl Hexp H)
            as (fuelA & ksA & HA)
      end.
      exists (S (Nat.max fuelA (S (length (key state))))), ksA.
      simpl. rewrite <- Hfr. unfold encodeStep. rewrite Hch, Hf by lia.
      eapply encodeLoop_mono; [exact HA|lia].
Qed.

Lemma encodeLanguages_approx_returns fuel raw langs outE :
  forallb
    (fun c =>
       match languageRuleSets cfg !! cand_language c with
       | Some langRules =>
           vowelsCovered
             (preprocess U
                (transliterateForLanguage raw (cand_language c) cfg))
             langRules
       | None => true
       end) langs = true ->
  mergerAdvances approxCfg = true ->
  encodeLanguages U fuel raw exactCfg langs = Some outE ->
  exists fuelA outA, encodeLanguages U fuelA raw approxCfg langs = Some outA.
Proof.
  intros Hcov Hadv. revert outE Hcov.
  induction langs as [|c langs IH]; intros outE.
  - intros _ _. exists 0, []. reflexivity.
  - simpl. intros Hcov. apply andb_true_iff in Hcov as [Hc Hcov].
    fold exactCfg approxCfg.
    destruct (languageRuleSets cfg !! cand_language c) as [lr|];
      [|intros H; exact (IH _ Hcov H)].
    change (transliterateForLanguage raw (cand_language c) exactCfg)
      with (transliterateForLanguage raw (cand_language c) cfg).
    change (transliterateForLanguage raw (cand_language c) approxCfg)
      with (transliterateForLanguage raw (cand_language c) cfg).
    destruct (preprocess U _) as [|c0 norm] eqn:Hnorm;
      [intros H; exact (IH _ Hcov H)|].
    destruct (encodeWithRules fuel _ lr exactCfg) as [ksE|] eqn:HE; [|easy].
    destruct (encodeLanguages U fuel raw exactCfg langs) as [restE|] eqn:HR;
      [|easy].
    intros _.
    destruct (encodeLoop_approx_returns fuel (c0 :: norm) lr initialState
                initialState ksE Hc Hadv eq_refl eq_refl HE)
      as (fuel1 & ksA & HA).
    destruct (IH restE Hcov eq_refl) as (fuel2 & restA & HRA).
    exists (Nat.max fuel1 fuel2). eexists. unfold encodeWithRules.
    rewrite (encodeLoop_mono _ (Nat.max fuel1 fuel2) _ _ _ _ _ HA) by lia.
    rewrite (encodeLanguages_mono _ _ (Nat.max fuel1 fuel2) _ _ _ _ HRA)
      by lia.
    reflexivity.
Qed.

Lemma bmpmEncode_approx_returns fuel raw outE :
  fallbackSkipsVowels U raw cfg = true ->
  mergerAdvances approxCfg = true ->
  bmpmEncode U fuel raw exactCfg = Some outE ->
  exists fuelA outA, bmpmEncode U fuelA raw approxCfg = Some outA.
Proof.
  unfold bmpmEncode, fallbackSkipsVowels. intros Hcov Hadv.
  destruct (trim raw).
  - intros _. exists 0, []. reflexivity.
  - now apply encodeLanguages_approx_returns.
Qed.

Hypothesis survive : keysSurviveFolding (minKeyLength cfg) mergerA = true.

Lemma foldsTo_fun k k1 k2 :
  foldsTo approxCfg k k1 -> foldsTo approxCfg k k2 -> k1 = k2.
Proof.
  intros [n1 H1] [n2 H2].
  apply finalizeKey_mono with (fuel' := Nat.max n1 n2) in H1; [|lia].
  apply finalizeKey_mono with (fuel' := Nat.max n1 n2) in H2; [|lia].
  congruence.
Qed.

Lemma foldsTo_long_enough k k' :
  foldsTo approxCfg k k' -> longEnough exactCfg k -> longEnough approxCfg k'.
Proof.
  unfold longEnough, foldsTo, finalizeKey, applyMergerTable. simpl.
  intros [fuel H] Hlen. unfold keysSurviveFolding in survive.
  apply orb_true_iff in survive as [Hmin|Hmin]; [lia|].
  apply andb_true_iff in Hmin as [Hmin Hvals].
  assert (Hk : k <> [] -> k' <> []).
  { intros Hk. destruct mergerA as [m|].
    - destruct (mergerLoop _ _ _ _ _) as [v|] eqn:Hv; [|easy].
      injection H as <-.
      assert (v <> []) as Hne.
      { eapply mergerLoop_nonempty; [|exact Hv|now left].
        intros sym Hin. apply mergerGet_nonempty; [exact Hvals|].
        eapply Permutation_in; [apply jsSort_perm|exact Hin]. }
      now destruct v.
    - injection H as <-. now destruct k. }
  destruct k as [|c k]; simpl in *; [lia|].
  specialize (Hk ltac:(easy)). destruct k'; simpl; [easy|lia].
Qed.

Lemma encodeStep_folded fuel text langRules state stE stA stE' stA' :
  vowelsCovered text langRules = true ->
  frontier stE = frontier stA ->
  expansions stE = expansions stA ->
  foldedInto approxCfg (results stE) (results stA) ->
  encodeStep fuel text langRules exactCfg state stE = Some stE' ->
  encodeStep fuel text langRules approxCfg state stA = Some stA' ->
  frontier stE' = frontier stA' /\
  expansions stE' = expansions stA' /\
  foldedInto approxCfg (results stE') (results stA').
Proof.
  intros Hcov Hfr Hexp Hres. unfold encodeStep.
  destruct (text !! pos state) as [ch|] eqn:Hch.
  - destruct (ch =? 32)%N.
    { intros [= <-] [= <-]. simpl. now rewrite Hfr. }
    destruct (selectApplicableRules _ _ _) as [|r0 rs] eqn:Happ.
    + intros [= <-] [= <-]. simpl. split; [|easy].
      unfold vowelsCovered in Hcov. rewrite forallb_forall in Hcov.
      assert (Hin : In (pos state) (seq 0 (length text))).
      { apply in_seq. apply lookup_lt_Some in Hch. lia. }
      specialize (Hcov _ Hin). cbv beta in Hcov.
      rewrite Hch, Happ, orb_false_r in Hcov.
      apply negb_true_iff in Hcov. now rewrite Hcov, Hfr.
    + intros [= <-] [= <-]. simpl. rewrite Hfr, Hexp.
      repeat split; [exact Hres].
  - simpl finalizeKey at 1. unfold finalizeKey at 1. simpl ruleType.
    destruct (finalizeKey fuel (key state) approxCfg) as [f|] eqn:Hf;
      [|easy].
    intros [= <-] [= <-]. simpl. repeat split; [easy..|].
    assert (Hfold : foldsTo approxCfg (key state) f) by (now exists fuel).
    intros k Hk.
    destruct (Z.leb_spec (minKeyLength cfg)
                (Z.of_nat (length (key state)))) as [Hlong|Hshort].
    + apply foldsTo_long_enough in Hfold as Hf'; [|exact Hlong].
      unfold longEnough in Hf'. simpl in Hf'.
      apply Z.leb_le in Hf'. rewrite Hf'.
      apply elem_of_union in Hk as [Hk|Hk].
      * destruct (Hres k Hk) as (k' & Hk' & Hkk').
        exists k'. split; [|easy]. apply elem_of_union. now left.
      * apply elem_of_singleton in Hk as ->.
        exists f. split; [|easy]. apply elem_of_union. right.
        now apply elem_of_singleton.
    + destruct (Hres k Hk) as (k' & Hk' & Hkk').
      exists k'. split; [|easy].
      destruct (_ <=? _)%Z; [|easy]. apply elem_of_union. now left.
Qed.

Lemma encodeLoop_folded fuel text langRules stE stA ksE ksA :
  vowelsCovered text langRules = true ->
  frontier stE = frontier stA ->
  expansions stE = expansions stA ->
  foldedInto approxCfg (results stE) (results stA) ->
  encodeLoop fuel text langRules exactCfg stE = Some ksE ->
  encodeLoop fuel text langRules approxCfg stA = Some ksA ->
  foldedInto approxCfg ksE ksA.
Proof.
  intros Hcov. revert stE stA.
  induction fuel as [|fuel IH]; intros stE stA Hfr Hexp Hres; [easy|].
  simpl. rewrite <- Hfr.
  destruct (frontier stE) as [|state rest].
  - now intros [= <-] [= <-].
  - destruct (encodeStep fuel text langRules exactCfg _ _) as [stE'|]
      eqn:HE; [|easy].
    destruct (encodeStep fuel text langRules approxCfg _ _) as [stA'|]
      eqn:HA; [|easy].
    destruct (encodeStep_folded fuel text langRules state
                {| frontier := rest; results := results stE;
                   expansions := expansions stE |}
                {| frontier := rest; results := results stA;
                   expansions := expansions stA |}
                stE' stA' Hcov eq_refl Hexp Hres HE HA)
      as (Hfr' & Hexp' & Hres').
    now apply IH.
Qed.

Lemma encodeLanguages_folded fuel raw langs outE outA :
  forallb
    (fun c =>
       match languageRuleSets cfg !! cand_language c with
       | Some langRules =>
           vowelsCovered
             (preprocess U
                (transliterateForLanguage raw (cand_language c) cfg))
             langRules
       | None => true
       end) langs = true ->
  encodeLanguages U fuel raw exactCfg langs = Some outE ->
  encodeLanguages U fuel raw approxCfg langs = Some outA ->
  foldedInto approxCfg (allKeys outE) (allKeys outA).
Proof.
  revert outE outA. induction langs as [|c langs IH]; intros outE outA.
  - intros _ [= <-] [= <-] k Hk. now apply not_elem_of_empty in Hk.
  - simpl. intros Hcov. apply andb_true_iff in Hcov as [Hc Hcov].
    fold exactCfg approxCfg.
    destruct (languageRuleSets cfg !! cand_language c) as [lr|]; [|eauto].
    change (transliterateForLanguage raw (cand_language c) exactCfg)
      with (transliterateForLanguage raw (cand_language c) cfg).
    change (transliterateForLanguage raw (cand_language c) approxCfg)
      with (transliterateForLanguage raw (cand_language c) cfg).
    destruct (preprocess U _) as [|c0 norm] eqn:Hnorm; [eauto|].
    destruct (encodeWithRules fuel _ lr exactCfg) as [ksE|] eqn:HE; [|easy].
    destruct (encodeWithRules fuel _ lr approxCfg) as [ksA|] eqn:HA; [|easy].
    destruct (encodeLanguages U fuel raw exactCfg langs) as [restE|];
      [|easy].
    destruct (encodeLanguages U fuel raw approxCfg langs) as [restA|];
      [|easy].
    specialize (IH restE restA Hcov eq_refl eq_refl).
    assert (Hks : foldedInto approxCfg ksE ksA).
    { eapply encodeLoop_folded; [exact Hc|reflexivity|reflexivity| |
                                 exact HE|exact HA].
      intros k Hk. now apply not_elem_of_empty in Hk. }
    intros [= <-] [= <-] k Hk.
    assert (Hcase : k ∈ ksE /\ size ksE <> 0 \/ k ∈ allKeys restE).
    { destruct (Nat.eqb_spec (size ksE) 0); [now right|].
      apply elem_of_allKeys in Hk as (r & [<-|Hr] & Hkr).
      - now left.
      - right. apply elem_of_allKeys. now exists r. }
    assert (Hrest : forall k', k' ∈ allKeys restA ->
              k' ∈ allKeys (if size ksA =? 0 then restA
                            else {| res_language := cand_language c;
                                    keys := ksA |} :: restA)).
    { intros k' Hk'. destruct (size ksA =? 0); [easy|].
      apply elem_of_allKeys in Hk' as (r & Hr & Hkr).
      apply elem_of_allKeys. exists r. split; [now right|easy]. }
    destruct Hcase as [[HkE _]|HkE].
    + destruct (Hks k HkE) as (k' & Hk' & Hkk'). exists k'. split; [|easy].
      destruct (Nat.eqb_spec (size ksA) 0) as [E|E].
      * apply size_empty_inv in E. apply E in Hk'.
        now apply not_elem_of_empty in Hk'.
      * apply elem_of_allKeys. eexists. split; [now left|easy].
    + destruct (IH k HkE) as (k' & Hk' & Hkk'). exists k'. split; auto.
Qed.

Lemma bmpmEncode_folded fuel raw outE outA :
  fallbackSkipsVowels U raw cfg = true ->
  bmpmEncode U fuel raw exactCfg = Some outE ->
  bmpmEncode U fuel raw approxCfg = Some outA ->
  foldedInto approxCfg (allKeys outE) (allKeys outA).
Proof.
  unfold bmpmEncode, fallbackSkipsVowels. intros Hcov.
  destruct (trim raw).
  - intros [= <-] [= <-] k Hk. now apply not_elem_of_empty in Hk.
  - apply encodeLanguages_folded. exact Hcov.
Qed.

End ExactApprox.

(** C2, as amended. Let the EXACT and the APPROX configuration differ only
    in [ruleType] and [mergerTable]. If folding cannot push a key under
    [minKeyLength], no key of the APPROX merger table is empty and, for
    both names, every vowel of every text handed to the encoder has an
    applicable rule, then whenever the EXACT similarity is returned and
    positive, the APPROX similarity is returned too (from some amount of
    fuel on, with one and the same value) and is positive: APPROX matches
    whatever EXACT matches. *)
Theorem approx_matches_what_exact_matches (U : Builtins) (cfg : BMPMConfig)
  (mergerE mergerA : option (list (jsstring * jsstring))) (fuel : nat)
  (a b : jsstring) (sE : Q) :
  keysSurviveFolding (minKeyLength cfg) mergerA = true ->
  mergerAdvances (withMode cfg APPROX mergerA) = true ->
  fallbackSkipsVowels U a cfg = true ->
  fallbackSkipsVowels U b cfg = true ->
  bmpmSimilarity U fuel a b (withMode cfg EXACT mergerE) = Some sE ->
  (0 < sE)%Q ->
  exists fuel0 sA,
    (forall fuel', fuel0 <= fuel' ->
       bmpmSimilarity U fuel' a b (withMode cfg APPROX mergerA) = Some sA) /\
    (0 < sA)%Q.
Proof.
  intros Hsurvive Hadv Hcova Hcovb HsE.
  destruct (bmpmEncode U fuel a (withMode cfg EXACT mergerE)) as [AE|]
    eqn:HAE; [|unfold bmpmSimilarity in HsE; now rewrite HAE in HsE].
  destruct (bmpmEncode U fuel b (withMode cfg EXACT mergerE)) as [BE|]
    eqn:HBE; [|unfold bmpmSimilarity in HsE; now rewrite HAE, HBE in HsE].
  destruct (bmpmEncode_approx_returns U cfg mergerE mergerA fuel a AE
              Hcova Hadv HAE) as (fuelA & AA & HAA).
  destruct (bmpmEncode_approx_returns U cfg mergerE mergerA fuel b BE
              Hcovb Hadv HBE) as (fuelB & BA & HBA).
  rewrite (bmpmSimilarity_jaccard _ _ _ _ _ _ _ HAE HBE) in HsE.
  injection HsE as <-. intros Hpos.
  exists (Nat.max fuelA fuelB), (jaccard (allKeys AA) (allKeys BA)).
  split.
  - intros fuel' Hle.
    apply bmpmSimilarity_jaccard; eapply bmpmEncode_mono; eauto; lia.
  - set (F := Nat.max fuel (Nat.max fuelA fuelB)).
    assert (HAE' := bmpmEncode_mono _ _ F _ _ _ HAE ltac:(lia)).
    assert (HBE' := bmpmEncode_mono _ _ F _ _ _ HBE ltac:(lia)).
    assert (HAA' := bmpmEncode_mono _ _ F _ _ _ HAA ltac:(lia)).
    assert (HBA' := bmpmEncode_mono _ _ F _ _ _ HBA ltac:(lia)).
    apply jaccard_pos in Hpos as (k & Hka & Hkb). apply jaccard_pos.
    destruct (bmpmEncode_folded U cfg mergerE mergerA Hsurvive
                F a AE AA Hcova HAE' HAA' k Hka) as (ka & Hka' & Hfa).
    destruct (bmpmEncode_folded U cfg mergerE mergerA Hsurvive
                F b BE BA Hcovb HBE' HBA' k Hkb) as (kb & Hkb' & Hfb).
    exists ka. split; [exact Hka'|].
    assert (ka = kb) as -> by (eapply foldsTo_fun; eauto).
    exact Hkb'.
Qed.

Lemma approx_matches_what_exact_matches_witness :
  keysSurviveFolding (minKeyLength foldApproxCfg)
    (Some [(str "V", str "F")]) = true /\
  mergerAdvances (withMode foldApproxCfg APPROX (Some [(str "V", str "F")]))
  = true /\
  fallbackSkipsVowels asciiBuiltins (str "v") foldApproxCfg = true /\
  fallbackSkipsVowels asciiBuiltins (str "w") foldApproxCfg = true /\
  bmpmSimilarity asciiBuiltins 10 (str "v") (str "w")
    (withMode foldApproxCfg EXACT None) = Some (2 # 3)%Q /\
  (0 < 2 # 3)%Q /\
  (exists fuel0 sA,
     (forall fuel', fuel0 <= fuel' ->
        bmpmSimilarity asciiBuiltins fuel' (str "v") (str "w")
          (withMode foldApproxCfg APPROX (Some [(str "V", str "F")]))
        = Some sA) /\
     (0 < sA)%Q) /\
  bmpmSimilarity asciiBuiltins 10 (str "v") (str "w")
    (withMode foldApproxCfg APPROX (Some [(str "V", str "F")]))
  = Some (1 # 2)%Q.
Proof.
  repeat (split; [vm_compute; reflexivity|]).
  split; [|vm_compute; reflexivity].
  apply (approx_matches_what_exact_matches asciiBuiltins foldApproxCfg
           None (Some [(str "V", str "F")]) 10 (str "v") (str "w")
           (2 # 3)%Q);
    vm_compute; reflexivity.
Defined.


(* ================================================================== *)
(** * Further properties of the engine *)

(* ------------------------------------------------------------------ *)
(** ** Duplicate collapsing and merger folding *)

Lemma collapseRepeatsFrom_head prev (s : jsstring) :
  noAdjacentRepeats (prev :: collapseRepeatsFrom prev s) = true.
Proof.
  revert prev. induction s as [|c s IH]; intros prev; [reflexivity|].
  simpl. destruct (N.eqb_spec c prev) as [->|Hne].
  - apply IH.
  - specialize (IH c). simpl in IH.
    apply N.eqb_neq in Hne. rewrite N.eqb_sym, Hne. simpl. exact IH.
Qed.

Lemma collapseRepeatsFrom_fixed prev (s : jsstring) :
  noAdjacentRepeats (prev :: s) = true -> collapseRepeatsFrom prev s = s.
Proof.
  revert prev. induction s as [|c s IH]; intros prev H; [reflexivity|].
  simpl in *. apply andb_true_iff in H as [Hne H].
  rewrite N.eqb_sym. apply negb_true_iff in Hne. rewrite Hne.
  f_equal. now apply IH.
Qed.

Lemma collapseRepeatsFrom_length prev (s : jsstring) :
  length (collapseRepeatsFrom prev s) <= length s.
Proof.
  revert prev. induction s as [|c s IH]; intros prev; simpl; [lia|].
  destruct (c =? prev)%N; simpl; specialize (IH c); lia.
Qed.

(** X1. [collapseRepeats] returns a string in which no code unit is
    followed by an equal one, leaves such a string as it is (so it is
    idempotent), never lengthens its argument, and returns the empty string
    only for the empty string. *)
Theorem collapseRepeats_canonical (s : jsstring) :
  noAdjacentRepeats (collapseRepeats s) = true /\
  (noAdjacentRepeats s = true -> collapseRepeats s = s) /\
  collapseRepeats (collapseRepeats s) = collapseRepeats s /\
  length (collapseRepeats s) <= length s /\
  (collapseRepeats s = [] <-> s = []).
Proof.
  assert (Hfix : forall t, noAdjacentRepeats t = true -> collapseRepeats t = t).
  { intros [|c t] H; [reflexivity|]. simpl.
    now rewrite collapseRepeatsFrom_fixed. }
  assert (Hcan : noAdjacentRepeats (collapseRepeats s) = true).
  { destruct s as [|c s]; [reflexivity|]. apply collapseRepeatsFrom_head. }
  split; [exact Hcan|]. split; [apply Hfix|]. split; [now apply Hfix|].
  split.
  - destruct s as [|c s]; simpl; [lia|].
    pose proof (collapseRepeatsFrom_length c s). lia.
  - now destruct s.
Qed.

Lemma find_isPrefix_none (symbols : list jsstring)
  (merger : list (jsstring * jsstring)) (rest : jsstring) :
  Permutation symbols (List.map fst merger) ->
  forallb (fun kv => negb (isPrefix kv.1 rest)) merger = true ->
  List.find (fun sym => isPrefix sym rest) symbols = None.
Proof.
  intros HP Hall.
  destruct (List.find _ symbols) as [sym|] eqn:Hfind; [|reflexivity].
  apply find_some in Hfind as [Hin Hpre].
  eapply Permutation_in in Hin; [|exact HP].
  apply in_map_iff in Hin as (kv & <- & Hin).
  rewrite forallb_forall in Hall. specialize (Hall kv Hin).
  now rewrite Hpre in Hall.
Qed.

Lemma mergerLoop_passthrough fuel symbols merger (rest out : jsstring) :
  Permutation symbols (List.map fst merger) ->
  noSymbolOccurs merger rest = true ->
  length rest < fuel ->
  mergerLoop fuel symbols merger rest out = Some (out ++ rest).
Proof.
  intros HP. revert rest out.
  induction fuel as [|fuel IH]; intros rest out Hno Hlt; [lia|].
  destruct rest as [|c rest]; simpl; [now rewrite app_nil_r|].
  simpl in Hno. apply andb_true_iff in Hno as [Hhere Hno].
  rewrite (find_isPrefix_none _ _ _ HP Hhere).
  rewrite IH; [|exact Hno|simpl in Hlt; lia].
  now rewrite <- app_assoc.
Qed.

(** X2. When no key of the merger table is empty, [applyMergerTable]
    returns for every key: fuel beyond the length of the key is enough, and
    more fuel gives the same result. Without a table the key is returned as
    it is. *)
Theorem applyMergerTable_returns (merger : list (jsstring * jsstring))
  (key : jsstring) :
  forallb (fun kv => 1 <=? length kv.1) merger = true ->
  (exists v, forall fuel, length key < fuel ->
     applyMergerTable fuel key (Some merger) = Some v) /\
  (forall fuel, applyMergerTable fuel key None = Some key).
Proof.
  intros Hkeys. split; [|reflexivity]. unfold applyMergerTable.
  set (symbols := jsSort longerFirst (List.map fst merger)).
  assert (Hsym : Forall (fun sym => 1 <= length sym) symbols).
  { eapply Permutation_Forall; [symmetry; apply jsSort_perm|].
    apply Forall_forall. intros sym Hin.
    apply list_elem_of_In, in_map_iff in Hin as (kv & <- & Hin).
    rewrite forallb_forall in Hkeys. now apply Nat.leb_le, Hkeys. }
  destruct (mergerLoop_terminates symbols merger Hsym (S (length key)) key [])
    as [v Hv]; [lia|].
  exists v. intros fuel Hlt.
  apply (mergerLoop_mono _ fuel _ _ _ _ _ Hv). lia.
Qed.

Lemma applyMergerTable_returns_witness :
  forallb (fun kv => 1 <=? length kv.1)
    [(str "V", str "F"); (str "KV", str "K")] = true /\
  (exists v, forall fuel, length (str "KVAV") < fuel ->
     applyMergerTable fuel (str "KVAV")
       (Some [(str "V", str "F"); (str "KV", str "K")]) = Some v) /\
  (forall fuel, applyMergerTable fuel (str "KVAV") None = Some (str "KVAV")).
Proof.
  split; [reflexivity|].
  apply (applyMergerTable_returns [(str "V", str "F"); (str "KV", str "K")]
           (str "KVAV")).
  reflexivity.
Defined.

(** X3. A key in which no key of the merger table occurs at any position
    passes through [applyMergerTable] unchanged. *)
Theorem applyMergerTable_passthrough (fuel : nat)
  (merger : list (jsstring * jsstring)) (key : jsstring) :
  noSymbolOccurs merger key = true ->
  length key < fuel ->
  applyMergerTable fuel key (Some merger) = Some key.
Proof.
  intros Hno Hlt. unfold applyMergerTable.
  rewrite mergerLoop_passthrough; [reflexivity|apply jsSort_perm|easy|easy].
Qed.

Lemma applyMergerTable_passthrough_witness :
  noSymbolOccurs [(str "V", str "F"); (str "KV", str "K")] (str "SMAT")
  = true /\
  length (str "SMAT") < 5 /\
  applyMergerTable 5 (str "SMAT")
    (Some [(str "V", str "F"); (str "KV", str "K")]) = Some (str "SMAT").
Proof.
  split; [reflexivity|]. split; [simpl; lia|].
  apply (applyMergerTable_passthrough 5
           [(str "V", str "F"); (str "KV", str "K")] (str "SMAT"));
    [reflexivity|simpl; lia].
Defined.

Lemma find_isPrefix_empty (symbols : list jsstring) (rest : jsstring) :
  In [] symbols ->
  (forall sym, In sym symbols -> isPrefix sym rest = true -> sym = []) ->
  List.find (fun sym => isPrefix sym rest) symbols = Some [].
Proof.
  intros Hin Honly.
  destruct (List.find _ symbols) as [sym|] eqn:Hfind.
  - apply find_some in Hfind as [Hs Hpre]. now rewrite (Honly sym Hs Hpre).
  - eapply find_none in Hfind; [|exact Hin]. now destruct rest.
Qed.

(** X4. An empty key in the merger table can keep [applyMergerTable] from
    returning: when the empty string is a key and no other key of the table
    starts the (non-empty) key being folded, the loop never advances, however
    much fuel it is given. *)
Theorem applyMergerTable_empty_symbol_diverges (fuel : nat)
  (merger : list (jsstring * jsstring)) (key : jsstring) :
  In [] (List.map fst merger) ->
  forallb (fun kv => negb (isPrefix kv.1 key) || (length kv.1 =? 0)) merger
  = true ->
  key <> [] ->
  applyMergerTable fuel key (Some merger) = None.
Proof.
  intros Hin Honly Hne. unfold applyMergerTable.
  set (symbols := jsSort longerFirst (List.map fst merger)).
  assert (Hfind : List.find (fun sym => isPrefix sym key) symbols = Some []).
  { apply find_isPrefix_empty.
    - eapply Permutation_in; [symmetry; apply jsSort_perm|exact Hin].
    - intros sym Hs Hpre.
      eapply Permutation_in in Hs; [|apply jsSort_perm].
      apply in_map_iff in Hs as (kv & <- & Hkv).
      rewrite forallb_forall in Honly. specialize (Honly kv Hkv).
      rewrite Hpre in Honly. simpl in Honly.
      apply Nat.eqb_eq in Honly. now destruct (kv.1). }
  generalize (@nil N) as out.
  induction fuel as [|fuel IH]; intros out; [reflexivity|].
  destruct key as [|c key]; [easy|].
  cbn [mergerLoop]. rewrite Hfind. apply IH.
Qed.

Lemma applyMergerTable_empty_symbol_diverges_witness :
  In [] (List.map fst [(str "V", str "F"); ([], str "X")]) /\
  str "AV" <> [] /\
  applyMergerTable 1000 (str "AV") (Some [(str "V", str "F"); ([], str "X")])
  = None.
Proof.
  split; [right; now left|]. split; [easy|].
  apply (applyMergerTable_empty_symbol_diverges 1000
           [(str "V", str "F"); ([], str "X")] (str "AV"));
    [right; now left|reflexivity|easy].
Defined.

(* ------------------------------------------------------------------ *)
(** ** Language detection *)

Lemma fired_languages name (hs : list LanguageHeuristic) :
  List.map cand_language
    (flat_map
       (fun h =>
          if predicate h name
          then [{| cand_language := heur_language h; score := weight h |}]
          else []) hs)
  = List.map heur_language (List.filter (fun h => predicate h name) hs).
Proof.
  induction hs as [|h hs IH]; [reflexivity|]. simpl.
  destruct (predicate h name); simpl; now rewrite IH.
Qed.

Lemma sliceTo_map {A B} (f : A -> B) (n : Q) (l : list A) :
  sliceTo n (List.map f l) = List.map f (sliceTo n l).
Proof. unfold sliceTo. rewrite length_map. apply firstn_map. Qed.

Lemma sliceTo_length {A} (n : Q) (l : list A) :
  Z.of_nat (length (sliceTo n l))
  = (if (toIntegerOrInfinity n <? 0)%Z
     then Z.max (Z.of_nat (length l) + toIntegerOrInfinity n) 0
     else Z.min (toIntegerOrInfinity n) (Z.of_nat (length l)))%Z.
Proof.
  unfold sliceTo. rewrite length_take.
  destruct (Z.ltb_spec (toIntegerOrInfinity n) 0); lia.
Qed.

Lemma toIntegerOrInfinity_ge_1 (n : Q) :
  (1 <= n)%Q -> (1 <= toIntegerOrInfinity n)%Z.
Proof.
  unfold Qle, toIntegerOrInfinity. simpl. intros H.
  apply Z.quot_le_lower_bound; lia.
Qed.

(** The languages of the result, before the ranking is read off: the pool
    reordered, then truncated. *)
Lemma detectLanguages_pool name cfg :
  exists ranked,
    Permutation ranked (candidateLanguages name cfg) /\
    List.map cand_language (detectLanguages name cfg)
    = truncateTop (topLanguages cfg) ranked.
Proof.
  unfold detectLanguages, candidateLanguages, firedLanguages.
  rewrite <- fired_languages.
  set (fired := flat_map _ (languageHeuristics cfg)).
  set (candidates := match fired with [] => defaults (nameType cfg)
                                    | _ => fired end).
  set (total := fold_left _ candidates 0%Q).
  set (normalized := if Qeq_bool total 0 then candidates else _).
  assert (Hnorm : List.map cand_language normalized
                  = List.map cand_language candidates).
  { unfold normalized. destruct (Qeq_bool total 0); [reflexivity|].
    rewrite List.map_map. reflexivity. }
  assert (Hpool : List.map cand_language candidates
                  = match List.map cand_language fired with
                    | [] => List.map cand_language (defaults (nameType cfg))
                    | l => l
                    end).
  { unfold candidates. now destruct fired. }
  exists (List.map cand_language (jsSort higherScoreFirst normalized)).
  split.
  - rewrite <- Hpool, <- Hnorm. apply Permutation_map, jsSort_perm.
  - unfold truncateTop. destruct (topLanguages cfg) as [n|]; [|reflexivity].
    destruct (Qeq_bool n 0); [reflexivity|].
    symmetry. apply sliceTo_map.
Qed.

Lemma candidateLanguages_nonempty name cfg : candidateLanguages name cfg <> [].
Proof.
  unfold candidateLanguages.
  destruct (firedLanguages name cfg); [|easy].
  now destruct (nameType cfg).
Qed.

(** X5. The number of entries [detectLanguages] returns. The pool it
    ranks is never empty (the defaults of the name type stand in when no
    heuristic fires), and without [topLanguages], or with [topLanguages]
    zero, all of the pool is returned. Otherwise [slice] cuts the ranked
    pool at the integer part of [topLanguages], counted from the end when
    it is negative. So the result is empty exactly when [topLanguages] is
    a number other than zero whose integer part is zero (such as 0.5) or
    is negative and reaches the start of the pool (such as -1 for a pool
    of one); with [topLanguages] at least 1 the result is not empty and
    holds at most that many entries. *)
Theorem detectLanguages_length (name : jsstring) (cfg : BMPMConfig) :
  let pool := Z.of_nat (length (candidateLanguages name cfg)) in
  (1 <= pool)%Z /\
  Z.of_nat (length (detectLanguages name cfg))
  = match topLanguages cfg with
    | Some n =>
        if Qeq_bool n 0 then pool
        else
          let t := toIntegerOrInfinity n in
          (if t <? 0 then Z.max (pool + t) 0 else Z.min t pool)%Z
    | None => pool
    end /\
  (detectLanguages name cfg = [] <->
   exists n,
     topLanguages cfg = Some n /\ ~ (n == 0)%Q /\
     (toIntegerOrInfinity n = 0 \/ toIntegerOrInfinity n <= - pool)%Z) /\
  (forall n,
     topLanguages cfg = Some n -> (1 <= n)%Q ->
     detectLanguages name cfg <> [] /\
     (Z.of_nat (length (detectLanguages name cfg))
      <= toIntegerOrInfinity n)%Z).
Proof.
  intros pool.
  destruct (detectLanguages_pool name cfg) as (ranked & HP & Hmap).
  pose proof (candidateLanguages_nonempty name cfg) as Hne.
  apply Permutation_length in HP as Hlen.
  assert (Hpos : (1 <= pool)%Z).
  { unfold pool. destruct (candidateLanguages name cfg); [easy|simpl; lia]. }
  assert (Hlength : Z.of_nat (length (detectLanguages name cfg))
                    = Z.of_nat (length (truncateTop (topLanguages cfg) ranked)))
    by (rewrite <- Hmap; now rewrite length_map).
  assert (Hsize : Z.of_nat (length (detectLanguages name cfg))
                  = match topLanguages cfg with
                    | Some n =>
                        if Qeq_bool n 0 then pool
                        else
                          let t := toIntegerOrInfinity n in
                          (if t <? 0 then Z.max (pool + t) 0
                           else Z.min t pool)%Z
                    | None => pool
                    end).
  { rewrite Hlength. unfold truncateTop, pool. rewrite <- Hlen.
    destruct (topLanguages cfg) as [n|]; [|reflexivity].
    destruct (Qeq_bool n 0); [reflexivity|]. apply sliceTo_length. }
  assert (Hnil : detectLanguages name cfg = []
                 <-> Z.of_nat (length (detectLanguages name cfg)) = 0%Z).
  { destruct (detectLanguages name cfg); simpl; split; try easy; lia. }
  split; [exact Hpos|]. split; [exact Hsize|]. split.
  - rewrite Hnil, Hsize. destruct (topLanguages cfg) as [n|].
    + destruct (Qeq_bool n 0) eqn:Hz.
      * split; [lia|]. intros (n' & [= <-] & Hn' & _).
        now apply Qeq_bool_iff in Hz.
      * apply Qeq_bool_neq in Hz. cbv zeta.
        destruct (Z.ltb_spec (toIntegerOrInfinity n) 0).
        -- split.
           ++ intros H0. exists n. split; [reflexivity|].
              split; [exact Hz|]. lia.
           ++ intros (n' & [= <-] & _ & Hcase). lia.
        -- split.
           ++ intros H0. exists n. split; [reflexivity|].
              split; [exact Hz|]. lia.
           ++ intros (n' & [= <-] & _ & Hcase). lia.
    + split; [lia|]. now intros (n' & [=] & _).
  - intros n Hn Hge. rewrite Hnil, Hsize, Hn.
    pose proof (toIntegerOrInfinity_ge_1 n Hge) as Ht.
    assert (Hz : Qeq_bool n 0 = false).
    { apply not_true_iff_false. rewrite Qeq_bool_iff. intros E.
      rewrite E in Hge. unfold Qle in Hge. simpl in Hge. lia. }
    rewrite Hz. cbv zeta.
    destruct (Z.ltb_spec (toIntegerOrInfinity n) 0); lia.
Qed.

(** With one language detected, [topLanguages] -1 or 0.5 leaves none, and
    [bmpmEncode] then returns no result; 1 and 1.5 leave the one. *)
Example detectLanguages_fractional_top :
  detectLanguages (str "v") (oneLanguageCfg (-1)) = [] /\
  detectLanguages (str "v") (oneLanguageCfg (1 # 2)) = [] /\
  bmpmEncode asciiBuiltins 10 (str "v") (oneLanguageCfg (1 # 2)) = Some [] /\
  length (detectLanguages (str "v") (oneLanguageCfg 1)) = 1 /\
  length (detectLanguages (str "v") (oneLanguageCfg (3 # 2))) = 1.
Proof. repeat split; vm_compute; reflexivity. Qed.

(** X6. The languages [detectLanguages] returns are the languages of the
    heuristics that fire on the name, each as often as it fires (or, when
    none fires, the default languages of the name type), reordered by the
    ranking and then cut to [topLanguages]. *)
Theorem detectLanguages_languages (name : jsstring) (cfg : BMPMConfig) :
  exists ranked,
    Permutation ranked (candidateLanguages name cfg) /\
    List.map cand_language (detectLanguages name cfg)
    = truncateTop (topLanguages cfg) ranked.
Proof. apply detectLanguages_pool. Qed.

Lemma StronglySorted_take {A} (Rel : A -> A -> Prop) (n : nat) (l : list A) :
  StronglySorted Rel l -> StronglySorted Rel (take n l).
Proof.
  intros H. revert n. induction H as [|x l Hs IH Hall]; intros [|n]; simpl;
    try constructor.
  - apply IH.
  - now apply Forall_take.
Qed.

Lemma higherScoreFirst_false (a b : Candidate) :
  higherScoreFirst a b = false <-> scoreOrder a b.
Proof.
  unfold higherScoreFirst, scoreOrder.
  rewrite negb_false_iff, Qle_bool_iff. split; intros H; lra.
Qed.

(** X7. The list [detectLanguages] returns is sorted by descending score. *)
Theorem detectLanguages_sorted (name : jsstring) (cfg : BMPMConfig) :
  StronglySorted scoreOrder (detectLanguages name cfg).
Proof.
  unfold detectLanguages.
  set (normalized := if Qeq_bool _ 0 then _ else _).
  assert (Hsorted : StronglySorted scoreOrder
                      (jsSort higherScoreFirst normalized)).
  { apply StronglySorted_weaken with (R := notAfter higherScoreFirst);
      [intros a b; apply higherScoreFirst_false|apply jsSort_sorted].
    - intros a b Hab. apply higherScoreFirst_false.
      destruct (higherScoreFirst b a) eqn:Hba.
      + apply negb_true_iff in Hab, Hba.
        apply not_true_iff_false in Hab, Hba.
        rewrite Qle_bool_iff in Hab, Hba. unfold scoreOrder. lra.
      + apply higherScoreFirst_false in Hba. unfold scoreOrder in *.
        apply negb_true_iff, not_true_iff_false in Hab.
        rewrite Qle_bool_iff in Hab. lra.
    - intros a b c Hab Hbc. apply higherScoreFirst_false.
      apply higherScoreFirst_false in Hab, Hbc. unfold scoreOrder in *. lra. }
  destruct (topLanguages cfg) as [n|]; [|exact Hsorted].
  destruct (Qeq_bool n 0); [exact Hsorted|]. now apply StronglySorted_take.
Qed.

(* ------------------------------------------------------------------ *)
(** ** Rule selection and pruning, continued *)

Lemma selectApplicableRules_nonempty text pos rules r :
  In r rules -> ruleMatches text pos r = true ->
  selectApplicableRules text pos rules <> [].
Proof.
  intros Hin Hm. unfold selectApplicableRules.
  set (matches := List.filter (ruleMatches text pos) rules).
  assert (Hr : In r matches) by (apply filter_In; auto).
  destruct matches as [|m0 ms] eqn:Hmatches; [easy|]. rewrite <- Hmatches.
  set (maxPr := maxZ (List.map priority matches)).
  set (top := List.filter (fun m => (priority m =? maxPr)%Z) matches).
  assert (Hw : exists w, priority w = maxPr /\ In w matches).
  { apply in_map_iff, maxZ_in. now rewrite Hmatches. }
  destruct Hw as (w & Hwpr & Hw).
  assert (Htop : In w top) by (apply filter_In; split; [easy|lia]).
  assert (Hv : exists v, consumed v = maxNat (List.map consumed top)
                         /\ In v top).
  { apply in_map_iff, maxNat_in. intros Hnil.
    apply map_eq_nil in Hnil. now rewrite Hnil in Htop. }
  destruct Hv as (v & Hvlen & Hv).
  intros Hnil.
  assert (In v (List.filter
                  (fun m => consumed m =? maxNat (List.map consumed top)) top))
    as Habs by (apply filter_In; split; [easy|now apply Nat.eqb_eq]).
  now rewrite Hnil in Habs.
Qed.

(** X8. [selectApplicableRules] returns the empty list exactly when no rule
    matches at the cursor, and all the rules it returns have one priority
    and one consumed-length: the elements pushed in one iteration all stand
    at the same cursor. *)
Theorem selectApplicableRules_uniform (text : jsstring) (pos : nat)
  (rules : list Rule) :
  (selectApplicableRules text pos rules = [] <->
   forall r, In r rules -> ruleMatches text pos r = false) /\
  (forall r1 r2,
     In r1 (selectApplicableRules text pos rules) ->
     In r2 (selectApplicableRules text pos rules) ->
     priority r1 = priority r2 /\ consumed r1 = consumed r2).
Proof.
  split.
  - split.
    + intros Hnil r Hin. destruct (ruleMatches text pos r) eqn:Hm; [|easy].
      now destruct (selectApplicableRules_nonempty text pos rules r Hin Hm).
    + intros Hnone.
      destruct (selectApplicableRules_filter text pos rules)
        as (keep & -> & Hkeep).
      induction rules as [|r rules' IH]; [reflexivity|].
      assert (Hr : keep r = false).
      { destruct (keep r) eqn:Hk; [|easy].
        apply Hkeep in Hk as (Hm & _); [|now left].
        rewrite Hnone in Hm; [easy|now left]. }
      simpl. rewrite Hr. clear IH.
      assert (Hall : forall x, In x rules' -> keep x = false).
      { intros x Hx. destruct (keep x) eqn:Hk; [|easy].
        apply Hkeep in Hk as (Hm & _); [|now right].
        rewrite Hnone in Hm; [easy|now right]. }
      clear -Hall. induction rules' as [|x xs IH]; [reflexivity|].
      simpl. rewrite (Hall x (or_introl eq_refl)). apply IH.
      intros y Hy. apply Hall. now right.
  - destruct (selectApplicableRules_filter text pos rules)
      as (keep & -> & Hkeep).
    intros r1 r2 H1 H2.
    apply filter_In in H1 as [Hin1 Hk1]. apply filter_In in H2 as [Hin2 Hk2].
    apply Hkeep in Hk1 as (Hm1 & Hpr1 & Hlen1); [|exact Hin1].
    apply Hkeep in Hk2 as (Hm2 & Hpr2 & Hlen2); [|exact Hin2].
    assert (Hpr : priority r1 = priority r2).
    { apply Z.le_antisymm; [apply Hpr2|apply Hpr1]; auto. }
    split; [exact Hpr|].
    apply Nat.le_antisymm; [apply Hlen2|apply Hlen1]; auto.
Qed.

Lemma StronglySorted_app_cross {A} (Rel : A -> A -> Prop) (l1 l2 : list A) :
  StronglySorted Rel (l1 ++ l2) ->
  forall x y, In x l1 -> In y l2 -> Rel x y.
Proof.
  induction l1 as [|a l1 IH]; simpl; intros H x y Hx Hy; [easy|].
  apply StronglySorted_inv in H as [Hs Hall].
  destruct Hx as [->|Hx]; [|now apply IH].
  rewrite Forall_forall in Hall. apply Hall.
  apply list_elem_of_In, in_or_app. now right.
Qed.

(** X9. [pruneFrontier] only drops elements: what it keeps together with
    what it drops is the frontier it was given; it keeps [cap] elements, or
    all of them when there are fewer; and every element it keeps is at least
    as far advanced as every element it drops (and for an equal cursor has a
    key that is no longer). *)
Theorem pruneFrontier_keeps_best (fr : list EncodeState) (cap : nat) :
  exists dropped,
    Permutation (pruneFrontier fr cap ++ dropped) fr /\
    length (pruneFrontier fr cap) = Nat.min cap (length fr) /\
    forall k d, In k (pruneFrontier fr cap) -> In d dropped -> pruneOrder k d.
Proof.
  unfold pruneFrontier. exists (drop cap (jsSort pruneAfter fr)).
  split; [rewrite take_drop; apply jsSort_perm|].
  split.
  - rewrite length_take. f_equal. apply Permutation_length, jsSort_perm.
  - apply StronglySorted_app_cross. rewrite take_drop.
    apply pruneFrontier_sorted.
Qed.

(* ------------------------------------------------------------------ *)
(** ** The top-level functions, continued *)

Lemma isPrefix_forallb (P : char -> bool) (p t : jsstring) :
  isPrefix p t = true -> forallb P t = true -> forallb P p = true.
Proof.
  revert t. induction p as [|a p IH]; intros [|b t]; simpl; try easy.
  intros Hp Ht. apply andb_true_iff in Hp as [Hab Hp].
  apply andb_true_iff in Ht as [Hb Ht]. apply N.eqb_eq in Hab as ->.
  now rewrite Hb, (IH t).
Qed.

Lemma forallb_drop {A} (P : A -> bool) (n : nat) (l : list A) :
  forallb P l = true -> forallb P (drop n l) = true.
Proof.
  revert n. induction l as [|x l IH]; intros [|n]; simpl; try easy.
  intros H. apply andb_true_iff in H as [_ H]. now apply IH.
Qed.

Lemma preprocess_plain (U : Builtins) (raw : jsstring) :
  forallb isPlainChar (preprocess U raw) = true.
Proof.
  pose proof (preprocess_normalForm U raw) as H. unfold normalForm in H.
  destruct (preprocess U raw) eqn:E; [reflexivity|].
  now apply wordsFrom_plain with false.
Qed.

(** X10. A rule whose pattern holds a code unit other than [a-z] and the
    space never matches, at any position, a text that [preprocess] has
    produced: on the texts [bmpmEncode] hands to the encoder such a rule is
    dead. *)
Theorem rule_outside_alphabet_never_matches (U : Builtins) (raw : jsstring)
  (pos : nat) (r : Rule) :
  forallb isPlainChar (pattern r) = false ->
  ruleMatches (preprocess U raw) pos r = false.
Proof.
  intros Hpat. unfold ruleMatches, startsWith.
  destruct (isPrefix (pattern r) (drop pos (preprocess U raw))) eqn:Hpre;
    [|reflexivity].
  apply isPrefix_forallb with (P := isPlainChar) in Hpre.
  - now rewrite Hpre in Hpat.
  - apply forallb_drop, preprocess_plain.
Qed.

Lemma rule_outside_alphabet_never_matches_witness :
  forallb isPlainChar
    (pattern {| pattern := [241%N]; outputs := [str "NY"]; priority := 10;
                lctx := None; rctx := None; consumes := Some 1 |}) = false /\
  ruleMatches (preprocess asciiBuiltins [110%N; 105%N; 241%N; 111%N]) 2
    {| pattern := [241%N]; outputs := [str "NY"]; priority := 10;
       lctx := None; rctx := None; consumes := Some 1 |} = false.
Proof.
  split; [reflexivity|].
  apply (rule_outside_alphabet_never_matches asciiBuiltins
           [110%N; 105%N; 241%N; 111%N] 2
           {| pattern := [241%N]; outputs := [str "NY"]; priority := 10;
              lctx := None; rctx := None; consumes := Some 1 |}).
  reflexivity.
Defined.

Lemma jaccard_empty_l (Y : gset jsstring) : (jaccard ∅ Y == 0)%Q.
Proof.
  unfold jaccard. destruct (size (∅ ∪ Y) =? 0); [reflexivity|].
  assert ((∅ : gset jsstring) ∩ Y = ∅) as -> by apply (left_absorb_L _ _).
  rewrite size_empty. reflexivity.
Qed.

(** X11. A name that is empty or all white space matches no name, itself
    included, and has similarity 0 with every name, in either argument
    position. *)
Theorem blank_name_matches_nothing (U : Builtins) (fuel : nat)
  (a b : jsstring) (cfg : BMPMConfig) (B : list EncodeResult) :
  forallb isWhiteSpace a = true ->
  bmpmEncode U fuel b cfg = Some B ->
  bmpmMatch U fuel a b cfg = Some false /\
  bmpmMatch U fuel b a cfg = Some false /\
  exists s1 s2,
    bmpmSimilarity U fuel a b cfg = Some s1 /\
    bmpmSimilarity U fuel b a cfg = Some s2 /\
    (s1 == 0)%Q /\ (s2 == 0)%Q.
Proof.
  intros Ha HB.
  assert (HA : bmpmEncode U fuel a cfg = Some [])
    by (unfold bmpmEncode; now rewrite trim_whitespace).
  split; [unfold bmpmMatch; now rewrite HA, HB|].
  split.
  { unfold bmpmMatch. rewrite HA, HB. f_equal.
    apply not_true_iff_false. rewrite existsb_shared.
    intros (k & _ & Hk). now apply not_elem_of_empty in Hk. }
  rewrite (bmpmSimilarity_jaccard _ _ _ _ _ _ _ HA HB).
  rewrite (bmpmSimilarity_jaccard _ _ _ _ _ _ _ HB HA).
  eexists _, _. split; [reflexivity|]. split; [reflexivity|].
  split; [apply jaccard_empty_l|].
  unfold jaccard. destruct (size (allKeys B ∪ allKeys []) =? 0);
    [reflexivity|].
  assert (allKeys B ∩ allKeys [] = ∅) as -> by apply (right_absorb_L _ _).
  rewrite size_empty. reflexivity.
Qed.

Lemma blank_name_matches_nothing_witness :
  forallb isWhiteSpace (str "  ") = true /\
  bmpmEncode asciiBuiltins 10 (str "w") foldApproxCfg = Some foldEncodingW /\
  bmpmMatch asciiBuiltins 10 (str "  ") (str "w") foldApproxCfg
  = Some false /\
  bmpmMatch asciiBuiltins 10 (str "w") (str "  ") foldApproxCfg
  = Some false /\
  exists s1 s2,
    bmpmSimilarity asciiBuiltins 10 (str "  ") (str "w") foldApproxCfg
    = Some s1 /\
    bmpmSimilarity asciiBuiltins 10 (str "w") (str "  ") foldApproxCfg
    = Some s2 /\
    (s1 == 0)%Q /\ (s2 == 0)%Q.
Proof.
  split; [reflexivity|]. split; [vm_compute; reflexivity|].
  apply (blank_name_matches_nothing asciiBuiltins 10 (str "  ") (str "w")
           foldApproxCfg foldEncodingW); vm_compute; reflexivity.
Defined.

(** X12. A name matches itself exactly when its encoding is not empty: a
    name for which no detected language has a rule set, or whose keys are
    all shorter than [minKeyLength], does not match itself. *)
Theorem bmpmMatch_self (U : Builtins) (fuel : nat) (a : jsstring)
  (cfg : BMPMConfig) (A : list EncodeResult) :
  bmpmEncode U fuel a cfg = Some A ->
  (bmpmMatch U fuel a a cfg = Some true <-> A <> []) /\
  (bmpmMatch U fuel a a cfg = Some false <-> A = []).
Proof.
  intros HA. unfold bmpmMatch. rewrite HA.
  assert (Hiff : existsb (fun k => bool_decide (k ∈ allKeys A))
                   (elements (allKeys A)) = true <-> A <> []).
  { rewrite existsb_shared. split.
    - intros (k & Hk & _) ->. now apply not_elem_of_empty in Hk.
    - intros Hne.
      pose proof (bmpmEncode_keys_nonempty _ _ _ _ _ HA Hne) as Hkeys.
      apply set_choose_L in Hkeys as [k Hk]. now exists k. }
  destruct (existsb _ _).
  - split; split; try easy.
    + intros _. now apply Hiff.
    + intros ->. now destruct (proj1 Hiff eq_refl).
  - split; split; try easy.
    + intros Hne. apply Hiff in Hne. easy.
    + intros _. destruct A as [|r A]; [reflexivity|].
      assert (r :: A <> []) as Hne by easy. apply Hiff in Hne. easy.
Qed.

Lemma bmpmMatch_self_witness :
  bmpmEncode asciiBuiltins 10 (str "w") foldApproxCfg = Some foldEncodingW /\
  (bmpmMatch asciiBuiltins 10 (str "w") (str "w") foldApproxCfg = Some true
   <-> foldEncodingW <> []) /\
  (bmpmMatch asciiBuiltins 10 (str "w") (str "w") foldApproxCfg = Some false
   <-> foldEncodingW = []).
Proof.
  split; [vm_compute; reflexivity|].
  apply (bmpmMatch_self asciiBuiltins 10 (str "w") foldApproxCfg
           foldEncodingW).
  vm_compute. reflexivity.
Defined.

(** X13. The similarity of two names is 1 exactly when their key sets are
    equal and not empty. *)
Theorem bmpmSimilarity_one (U : Builtins) (fuel : nat) (a b : jsstring)
  (cfg : BMPMConfig) (A B : list EncodeResult) :
  bmpmEncode U fuel a cfg = Some A ->
  bmpmEncode U fuel b cfg = Some B ->
  exists s,
    bmpmSimilarity U fuel a b cfg = Some s /\
    ((s == 1)%Q <-> allKeys A = allKeys B /\ allKeys A <> ∅).
Proof.
  intros HA HB. rewrite (bmpmSimilarity_jaccard _ _ _ _ _ _ _ HA HB).
  eexists; split; [reflexivity|].
  set (X := allKeys A). set (Y := allKeys B). unfold jaccard.
  pose proof (inter_le_union X Y) as Hle.
  destruct (Nat.eqb_spec (size (X ∪ Y)) 0) as [E|E].
  - split; [easy|]. intros [_ Hne]. exfalso. apply Hne.
    apply size_empty_inv in E. apply leibniz_equiv in E.
    apply empty_union_L in E. easy.
  - unfold Qeq. simpl.
    rewrite <- (positive_nat_Z (Pos.of_nat (size (X ∪ Y)))).
    rewrite Nat2Pos.id by exact E. split.
    + intros Hs. assert (Heq : size (X ∪ Y) = size (X ∩ Y)) by lia.
      assert (Hsub : X ∩ Y ⊆ X ∪ Y).
      { intros k Hk. apply elem_of_intersection in Hk as [Hk _].
        apply elem_of_union. now left. }
      assert (Hsame : X ∩ Y ≡ X ∪ Y).
      { apply set_subseteq_size_equiv; [exact Hsub|lia]. }
      split.
      * apply leibniz_equiv. intros k. split; intros Hk.
        -- assert (k ∈ X ∪ Y) as Hu by (apply elem_of_union; now left).
           apply Hsame in Hu. now apply elem_of_intersection in Hu as [_ ?].
        -- assert (k ∈ X ∪ Y) as Hu by (apply elem_of_union; now right).
           apply Hsame in Hu. now apply elem_of_intersection in Hu as [? _].
      * intros HX. apply E. rewrite Heq, HX.
        assert ((∅ : gset jsstring) ∩ Y = ∅) as ->
          by apply (left_absorb_L _ _).
        apply size_empty.
    + intros [Heq Hne]. rewrite <- Heq.
      assert (X ∩ X = X) as -> by apply (idemp_L _).
      assert (X ∪ X = X) as -> by apply (idemp_L _). lia.
Qed.

Lemma bmpmSimilarity_one_witness :
  bmpmEncode asciiBuiltins 10 (str "v") foldApproxCfg = Some foldEncodingV /\
  bmpmEncode asciiBuiltins 10 (str "w") foldApproxCfg = Some foldEncodingW /\
  exists s,
    bmpmSimilarity asciiBuiltins 10 (str "v") (str "w") foldApproxCfg
    = Some s /\
    ((s == 1)%Q <->
     allKeys foldEncodingV = allKeys foldEncodingW /\
     allKeys foldEncodingV <> ∅).
Proof.
  split; [vm_compute; reflexivity|]. split; [vm_compute; reflexivity|].
  apply (bmpmSimilarity_one asciiBuiltins 10 (str "v") (str "w")
           foldApproxCfg); vm_compute; reflexivity.
Defined.


Lemma encodeLanguages_ranked U fuel raw cfg langs out :
  encodeLanguages U fuel raw cfg langs = Some out ->
  sublist (List.map res_language out) (List.map cand_language langs) /\
  forall r, In r out -> is_Some (languageRuleSets cfg !! res_language r).
Proof.
  revert out. induction langs as [|c langs IH]; simpl; intros out H.
  - injection H as <-. split; [constructor|easy].
  - destruct (languageRuleSets cfg !! cand_language c) as [lr|] eqn:Hlr.
    2:{ destruct (IH out H) as [Hsub Hreg]. split; [now constructor|easy]. }
    destruct (preprocess U _) as [|c0 norm].
    { destruct (IH out H) as [Hsub Hreg]. split; [now constructor|easy]. }
    destruct (encodeWithRules _ _ _ _) as [ks|]; [|easy].
    destruct (encodeLanguages _ _ _ _ _) as [out'|]; [|easy].
    injection H as <-. destruct (IH out' eq_refl) as [Hsub Hreg].
    destruct (size ks =? 0).
    + split; [now constructor|easy].
    + split; [simpl; now constructor|].
      intros r [<-|Hr]; [simpl; rewrite Hlr; eauto|now apply Hreg].
Qed.

(** X14. [bmpmEncode] returns at most one result per detected language, in
    the order of the ranking; the language of every result has a rule set
    registered in the configuration, and its key set is not empty. *)
Theorem bmpmEncode_results_ranked (U : Builtins) (fuel : nat)
  (raw : jsstring) (cfg : BMPMConfig) (out : list EncodeResult) :
  bmpmEncode U fuel raw cfg = Some out ->
  sublist (List.map res_language out)
    (List.map cand_language
       (detectLanguages (toLowerCase U (normalizeNFC U raw)) cfg)) /\
  forall r, In r out ->
    is_Some (languageRuleSets cfg !! res_language r) /\ keys r <> ∅.
Proof.
  unfold bmpmEncode. destruct (trim raw).
  - intros [= <-]. split; [apply sublist_nil_l|easy].
  - intros H. destruct (encodeLanguages_ranked _ _ _ _ _ _ H) as [Hsub Hreg].
    split; [exact Hsub|]. intros r Hr. split; [now apply Hreg|].
    now apply (encodeLanguages_keys_nonempty _ _ _ _ _ _ H).
Qed.

Lemma bmpmEncode_results_ranked_witness :
  bmpmEncode asciiBuiltins 10 (str "w") foldApproxCfg = Some foldEncodingW /\
  sublist (List.map res_language foldEncodingW)
    (List.map cand_language
       (detectLanguages
          (toLowerCase asciiBuiltins (normalizeNFC asciiBuiltins (str "w")))
          foldApproxCfg)) /\
  forall r, In r foldEncodingW ->
    is_Some (languageRuleSets foldApproxCfg !! res_language r) /\
    keys r <> ∅.
Proof.
  split; [vm_compute; reflexivity|].
  apply (bmpmEncode_results_ranked asciiBuiltins 10 (str "w") foldApproxCfg
           foldEncodingW).
  vm_compute. reflexivity.
Defined.

(* ------------------------------------------------------------------ *)
(** ** The encoder, continued *)

Lemma finalizeKey_empty fuel cfg :
  1 <= fuel -> finalizeKey fuel [] cfg = Some [].
Proof.
  intros Hfuel. unfold finalizeKey, applyMergerTable.
  destruct (ruleType cfg); [reflexivity|].
  destruct (mergerTable cfg); [|reflexivity].
  destruct fuel; [lia|reflexivity].
Qed.

Lemma fallbackKey_approx text : fallbackKey APPROX text = [].
Proof.
  unfold fallbackKey. induction text as [|c text IH]; [reflexivity|].
  simpl in *. rewrite IH. now destruct (c =? 32)%N.
Qed.

(** With a single element in the frontier and no rule applicable from its
    cursor on, the loop walks to the end of the text and finalizes one key. *)
Lemma encodeLoop_fallback text langRules cfg :
  onlyFallback text langRules = true ->
  forall n p k res e fuel,
    p + n = length text ->
    n + 2 <= fuel ->
    encodeLoop fuel text langRules cfg
      {| frontier := [{| pos := p; key := k |}]; results := res;
         expansions := e |}
    = match
        finalizeKey (fuel - n - 1)
          (k ++ fallbackKey (ruleType cfg) (drop p text)) cfg
      with
      | Some f =>
          Some (if (minKeyLength cfg <=? Z.of_nat (length f))%Z
                then res ∪ {[ f ]} else res)
      | None => None
      end.
Proof.
  intros Honly. induction n as [|n IH]; intros p k res e fuel Hp Hfuel.
  - destruct fuel as [|[|fuel]]; [lia|lia|].
    cbn [encodeLoop frontier]. unfold encodeStep. cbn [pos key].
    rewrite (proj2 (lookup_ge_None text p)) by lia.
    rewrite drop_ge by lia. simpl fallbackKey. rewrite app_nil_r.
    replace (S (S fuel) - 0 - 1) with (S fuel) by lia.
    destruct (finalizeKey (S fuel) k cfg); reflexivity.
  - destruct fuel as [|fuel]; [lia|].
    assert (Hlt : p < length text) by lia.
    destruct (lookup_lt_is_Some_2 text p Hlt) as [ch Hch].
    unfold onlyFallback in Honly. rewrite forallb_forall in Honly.
    specialize (Honly p). rewrite Hch in Honly.
    specialize (Honly ltac:(apply in_seq; lia)).
    rewrite (drop_S _ _ _ Hch).
    replace (S fuel - S n - 1) with (fuel - n - 1) by lia.
    cbn [encodeLoop frontier]. unfold encodeStep. cbn [pos key].
    rewrite Hch. cbn [frontier results expansions app].
    destruct (ch =? 32)%N eqn:Hsp.
    + rewrite (IH (p + 1)) by lia.
      replace (p + 1) with (S p) by lia.
      unfold fallbackKey at 2. simpl flat_map. rewrite Hsp.
      reflexivity.
    + simpl in Honly.
      destruct (selectApplicableRules text p (rules langRules)); [|easy].
      rewrite (IH (p + 1)) by lia.
      replace (p + 1) with (S p) by lia.
      unfold fallbackKey at 2. simpl flat_map. rewrite Hsp.
      now rewrite <- app_assoc.
Qed.

(** X15. When no rule is applicable at any position that does not hold a
    space (an empty rule set, or a text of spaces only), [encodeWithRules]
    returns, with fuel for two iterations more than the text is long, at
    most one key: in EXACT mode an "A" for every vowel of the text, in
    APPROX mode the empty key; the key is dropped when it is shorter than
    [minKeyLength]. *)
Theorem encodeWithRules_fallback_only (fuel : nat) (text : jsstring)
  (langRules : LanguageRules) (cfg : BMPMConfig) :
  onlyFallback text langRules = true ->
  length text + 2 <= fuel ->
  encodeWithRules fuel text langRules cfg
  = Some
      (if (minKeyLength cfg
           <=? Z.of_nat (length (fallbackKey (ruleType cfg) text)))%Z
       then {[ fallbackKey (ruleType cfg) text ]}
       else ∅).
Proof.
  intros Honly Hfuel. unfold encodeWithRules, initialState.
  rewrite (encodeLoop_fallback text langRules cfg Honly (length text) 0)
    by lia.
  rewrite drop_0, app_nil_l.
  assert (Hfin : finalizeKey (fuel - length text - 1)
                   (fallbackKey (ruleType cfg) text) cfg
                 = Some (fallbackKey (ruleType cfg) text)).
  { destruct (ruleType cfg) eqn:Hrt.
    - unfold finalizeKey. now rewrite Hrt.
    - rewrite fallbackKey_approx. apply finalizeKey_empty. lia. }
  rewrite Hfin.
  assert ((∅ : gset jsstring) ∪ {[ fallbackKey (ruleType cfg) text ]}
          = {[ fallbackKey (ruleType cfg) text ]}) as ->
    by apply (left_id_L _ _).
  reflexivity.
Qed.

Lemma encodeWithRules_fallback_only_witness :
  onlyFallback (str "ab e") {| rules_language := str "none"; rules := [] |}
  = true /\
  length (str "ab e") + 2 <= 6 /\
  encodeWithRules 6 (str "ab e")
    {| rules_language := str "none"; rules := [] |} (foldExactCfg true)
  = Some {[ str "AA" ]}.
Proof.
  split; [reflexivity|]. split; [simpl; lia|].
  apply (encodeWithRules_fallback_only 6 (str "ab e")
           {| rules_language := str "none"; rules := [] |}
           (foldExactCfg true)); [reflexivity|simpl; lia].
Defined.

Lemma collapseRepeatsFrom_In prev (s : jsstring) c :
  In c (collapseRepeatsFrom prev s) -> In c s.
Proof.
  revert prev. induction s as [|d s IH]; intros prev; simpl; [easy|].
  destruct (d =? prev)%N; simpl; intros H.
  - right. eauto.
  - destruct H as [->|H]; [now left|right; eauto].
Qed.

Lemma collapseRepeats_In (s : jsstring) c :
  In c (collapseRepeats s) -> In c s.
Proof.
  destruct s as [|d s]; simpl; [easy|].
  intros [->|H]; [now left|right]. eapply collapseRepeatsFrom_In; eauto.
Qed.

Lemma mergerGet_In merger sym c :
  In c (mergerGet merger sym) -> exists kv, In kv merger /\ In c kv.2.
Proof.
  induction merger as [|[k v] merger IH]; simpl; [easy|].
  case_bool_decide.
  - intros Hc. exists (k, v). auto.
  - intros Hc. destruct (IH Hc) as (kv & Hkv & Hckv). eauto.
Qed.

Lemma In_drop {A} (n : nat) (l : list A) x : In x (drop n l) -> In x l.
Proof.
  revert n. induction l as [|y l IH]; intros [|n]; simpl; auto.
  intros H. right. eauto.
Qed.

Lemma mergerLoop_In fuel symbols merger (rest out v : jsstring) c :
  mergerLoop fuel symbols merger rest out = Some v ->
  In c v ->
  In c out \/ In c rest \/ exists kv, In kv merger /\ In c kv.2.
Proof.
  revert rest out. induction fuel as [|fuel IH]; intros rest out H Hc;
    [easy|].
  simpl in H. destruct rest as [|d rest].
  - injection H as <-. auto.
  - destruct (List.find _ symbols) as [sym|].
    + destruct (IH _ _ H Hc) as [Hout|[Hrest|Hm]]; auto.
      * apply in_app_or in Hout as [Hout|Hget]; auto.
        right. right. now apply mergerGet_In with sym.
      * right. left. eapply In_drop. exact Hrest.
    + destruct (IH _ _ H Hc) as [Hout|[Hrest|Hm]]; auto.
      * apply in_app_or in Hout as [Hout|[->|[]]]; auto.
        right. left. now left.
      * right. left. now right.
Qed.

Section KeyAlphabet.

Variables (text : jsstring) (langRules : LanguageRules) (cfg : BMPMConfig).

Local Abbreviation rawFrontier := (rawKeys langRules cfg).

Lemma finalizeKey_chars fuel k f :
  (forall c, In c k -> rawKeyChar langRules cfg c) ->
  finalizeKey fuel k cfg = Some f ->
  forall c, In c f -> keyChar langRules cfg c.
Proof.
  unfold finalizeKey, applyMergerTable. intros Hk H c Hc.
  destruct (ruleType cfg) eqn:Hrt.
  - injection H as <-. left. auto.
  - destruct (mergerTable cfg) as [m|] eqn:Hm.
    + destruct (mergerLoop _ _ _ _ _) as [v|] eqn:Hv; [|easy].
      injection H as <-. apply collapseRepeats_In in Hc.
      destruct (mergerLoop_In _ _ _ _ _ _ _ Hv Hc) as [[]|[Hin|Hkv]].
      * left. auto.
      * right. split; [exact Hrt|].
        destruct Hkv as (kv & Hkv & Hckv). eauto.
    + injection H as <-. apply collapseRepeats_In in Hc. left. auto.
Qed.

Lemma pushExpansion_raw fe s :
  rawFrontier fe.1 ->
  (forall c, In c (key s) -> rawKeyChar langRules cfg c) ->
  rawFrontier (pushExpansion cfg fe s).1.
Proof.
  intros Hfr Hs. unfold pushExpansion.
  assert (Hpush : rawFrontier (fe.1 ++ [s])).
  { intros s' c Hin Hc. apply in_app_or in Hin as [Hin|[<-|[]]]; eauto. }
  destruct (_ <? _)%Z; simpl; [|exact Hpush].
  intros s' c Hin Hc. apply (Hpush s' c); [|exact Hc].
  unfold pruneFrontier in Hin. apply list_elem_of_In in Hin.
  apply list_elem_of_In. eapply elem_of_take in Hin as (i & Hi & _).
  apply list_elem_of_lookup_2 in Hi. apply list_elem_of_In in Hi.
  apply list_elem_of_In.
  eapply Permutation_in; [apply jsSort_perm|exact Hi].
Qed.

Lemma applyRules_raw state applicable fe :
  rawFrontier fe.1 ->
  (forall c, In c (key state) -> rawKeyChar langRules cfg c) ->
  (forall r, In r applicable -> In r (rules langRules)) ->
  rawFrontier (applyRules cfg state applicable fe).1.
Proof.
  unfold applyRules. revert fe.
  induction applicable as [|r rs IH]; intros fe Hfr Hstate Hrules;
    [exact Hfr|].
  simpl. apply IH; [|exact Hstate|intros; apply Hrules; now right].
  assert (Hr : In r (rules langRules)) by (apply Hrules; now left).
  unfold applyRule.
  assert (Hout : forall o, In o (outputs r) -> In o (outputs r)) by auto.
  revert fe Hfr Hout. generalize (outputs r) at 1 3 as os.
  induction os as [|o os IHo]; intros fe Hfr Hout; [exact Hfr|].
  simpl. apply IHo; [|intros; apply Hout; now right].
  apply pushExpansion_raw; [exact Hfr|]. simpl. intros c Hc.
  assert (Hc' : In c (key state ++ o))
    by (destruct (collapseDuplicates cfg);
        [now apply collapseRepeats_In|exact Hc]).
  apply in_app_or in Hc' as [Hc'|Hc']; [auto|].
  left. exists r, o. split; [exact Hr|]. split; [|exact Hc'].
  apply Hout. now left.
Qed.

Lemma encodeStep_chars fuel state st st' :
  (forall c, In c (key state) -> rawKeyChar langRules cfg c) ->
  rawFrontier (frontier st) ->
  (forall k c, k ∈ results st -> In c k -> keyChar langRules cfg c) ->
  encodeStep fuel text langRules cfg state st = Some st' ->
  rawFrontier (frontier st') /\
  (forall k c, k ∈ results st' -> In c k -> keyChar langRules cfg c).
Proof.
  intros Hstate Hfr Hres. unfold encodeStep.
  destruct (text !! pos state) as [ch|].
  - destruct (ch =? 32)%N.
    { intros [= <-]. simpl. split; [|exact Hres].
      intros s c Hin Hc. apply in_app_or in Hin as [Hin|[<-|[]]]; eauto. }
    destruct (selectApplicableRules _ _ _) as [|r0 rs] eqn:Happ.
    + intros [= <-]. simpl. split; [|exact Hres].
      intros s c Hin Hc. apply in_app_or in Hin as [Hin|[<-|[]]]; eauto.
      simpl in Hc. apply in_app_or in Hc as [Hc|Hc]; [auto|].
      unfold fallbackMapChar in Hc. right.
      destruct (ruleType cfg); [|easy].
      destruct (isVowel ch); [|easy]. destruct Hc as [<-|[]]. easy.
    + intros [= <-]. cbn [frontier results]. split; [|exact Hres].
      apply (applyRules_raw state (r0 :: rs)); [exact Hfr|exact Hstate|].
      intros r Hr. rewrite <- Happ in Hr.
      destruct (selectApplicableRules_filter text (pos state)
                  (rules langRules)) as (keep & Hsel & _).
      rewrite Hsel in Hr. now apply filter_In in Hr as [Hr _].
  - destruct (finalizeKey fuel (key state) cfg) as [f|] eqn:Hf; [|easy].
    intros [= <-]. simpl. split; [exact Hfr|].
    intros k c Hk Hc. destruct (_ <=? _)%Z; [|eauto].
    apply elem_of_union in Hk as [Hk|Hk]; [eauto|].
    apply elem_of_singleton in Hk as ->.
    eapply finalizeKey_chars; eauto.
Qed.

Lemma encodeLoop_chars fuel st ks :
  rawFrontier (frontier st) ->
  (forall k c, k ∈ results st -> In c k -> keyChar langRules cfg c) ->
  encodeLoop fuel text langRules cfg st = Some ks ->
  forall k c, k ∈ ks -> In c k -> keyChar langRules cfg c.
Proof.
  revert st. induction fuel as [|fuel IH]; intros st Hfr Hres; [easy|].
  simpl. destruct (frontier st) as [|state rest] eqn:Hst.
  - now intros [= <-].
  - destruct (encodeStep _ _ _ _ _ _) as [st'|] eqn:Hstep; [|easy].
    apply encodeStep_chars in Hstep as [Hfr' Hres'].
    + now apply IH.
    + intros c Hc. apply (Hfr state c); [now left|exact Hc].
    + intros s c Hs Hc. apply (Hfr s c); [now right|exact Hc].
    + exact Hres.
Qed.

End KeyAlphabet.

(** X16. Every code unit of every key [encodeWithRules] returns comes from
    an output symbol of a rule of the rule set, is the "A" of the EXACT
    fallback, or (in APPROX mode) comes from a replacement of the merger
    table: no character of the text is ever copied into a key. *)
Theorem keys_made_of_outputs (fuel : nat) (text : jsstring)
  (langRules : LanguageRules) (cfg : BMPMConfig) (ks : gset jsstring)
  (k : jsstring) (c : char) :
  encodeWithRules fuel text langRules cfg = Some ks ->
  k ∈ ks -> In c k -> keyChar langRules cfg c.
Proof.
  intros H.
  apply (encodeLoop_chars text langRules cfg fuel initialState ks);
    [| |exact H].
  - intros s c' [<-|[]] Hc. destruct Hc.
  - intros k' c' Hk. simpl in Hk. now apply not_elem_of_empty in Hk.
Qed.

Lemma keys_made_of_outputs_witness :
  encodeWithRules 10 (str "w") foldRules foldApproxCfg
  = Some {[ str "F"; str "W" ]} /\
  keyChar foldRules foldApproxCfg 87%N.
Proof.
  split; [vm_compute; reflexivity|].
  apply (keys_made_of_outputs 10 (str "w") foldRules foldApproxCfg
           {[ str "F"; str "W" ]} (str "W") 87%N).
  - vm_compute. reflexivity.
  - apply elem_of_union. right. now apply elem_of_singleton.
  - now left.
Defined.

(* ------------------------------------------------------------------ *)
(** ** The shipped rule tables *)

Lemma shipped_rules_advance :
  forallb (fun t => rulesAdvance t.2) shippedTables = true.
Proof. vm_compute. reflexivity. Qed.

Lemma mergerApprox_keys_values :
  forallb (fun kv => (1 <=? length kv.1) && (1 <=? length kv.2)) mergerApprox
  = true.
Proof. vm_compute. reflexivity. Qed.

Lemma mergerApprox_advances cfg :
  mergerTable cfg = Some mergerApprox \/ mergerTable cfg = None ->
  mergerAdvances cfg = true.
Proof.
  unfold mergerAdvances.
  intros [-> | ->]; destruct (ruleType cfg); reflexivity.
Qed.

(** X17. With any of the eight shipped rule tables, and the shipped merger
    table or none, [encodeWithRules] terminates on every text and for every
    other setting of the configuration: every shipped rule consumes at least
    one code unit and no key of the merger table is empty. *)
Theorem shipped_tables_terminate (lang : jsstring) (langRules : LanguageRules)
  (text : jsstring) (cfg : BMPMConfig) :
  In (lang, langRules) shippedTables ->
  mergerTable cfg = Some mergerApprox \/ mergerTable cfg = None ->
  rulesAdvance langRules = true /\
  exists fuel0 ks,
    forall fuel, fuel0 <= fuel ->
      encodeWithRules fuel text langRules cfg = Some ks.
Proof.
  intros Hin Hmerger.
  assert (Hadv : rulesAdvance langRules = true).
  { pose proof shipped_rules_advance as H. rewrite forallb_forall in H.
    exact (H _ Hin). }
  split; [exact Hadv|]. unfold encodeWithRules.
  eapply encodeLoop_terminates;
    [exact Hadv|now apply mergerApprox_advances|apply Nat.lt_succ_diag_r].
Qed.

Lemma shipped_tables_terminate_witness :
  In (str "german", german) shippedTables /\
  rulesAdvance german = true /\
  exists fuel0 ks,
    forall fuel, fuel0 <= fuel ->
      encodeWithRules fuel (str "schmidt") german
        (withMode foldApproxCfg APPROX (Some mergerApprox)) = Some ks.
Proof.
  split; [right; now left|].
  apply (shipped_tables_terminate (str "german") german (str "schmidt")
           (withMode foldApproxCfg APPROX (Some mergerApprox)));
    [right; now left|now left].
Defined.

Lemma hasPlainRule_applicable langRules text p ch :
  hasPlainRule langRules ch = true ->
  text !! p = Some ch ->
  selectApplicableRules text p (rules langRules) <> [].
Proof.
  unfold hasPlainRule. intros H Hch.
  apply existsb_exists in H as (r & Hin & Hr).
  apply andb_true_iff in Hr as [Hpat Hctx].
  apply bool_decide_eq_true in Hpat.
  apply (selectApplicableRules_nonempty text p (rules langRules) r Hin).
  unfold ruleMatches, startsWith. rewrite Hpat, (drop_S _ _ _ Hch).
  simpl. rewrite N.eqb_refl. simpl.
  destruct (lctx r); [easy|]. now destruct (rctx r).
Qed.

Lemma shipped_vowel_rules :
  forallb (fun t => forallb (hasPlainRule t.2) (str "aeiouy")) shippedTables
  = true.
Proof. vm_compute. reflexivity. Qed.

Lemma vowelsCovered_plain_rules langRules text :
  forallb (hasPlainRule langRules) (str "aeiouy") = true ->
  vowelsCovered text langRules = true.
Proof.
  intros Hplain. unfold vowelsCovered. apply forallb_forall. intros p _.
  destruct (text !! p) as [ch|] eqn:Hch; [|reflexivity].
  destruct (isVowel ch) eqn:Hv; [|reflexivity]. simpl.
  unfold isVowel in Hv. apply existsb_exists in Hv as (v & Hin & Hv).
  apply N.eqb_eq in Hv as <-.
  rewrite forallb_forall in Hplain. specialize (Hplain ch Hin).
  pose proof (hasPlainRule_applicable langRules text p ch Hplain Hch).
  now destruct (selectApplicableRules _ _ _).
Qed.

(** X18. With any of the eight shipped rule tables, at every position of
    every text that holds a vowel ([aeiouy]) some rule is applicable: the
    fallback, the one step where EXACT and APPROX build different keys,
    never maps a vowel. *)
Theorem shipped_tables_cover_vowels (lang : jsstring)
  (langRules : LanguageRules) (text : jsstring) :
  In (lang, langRules) shippedTables ->
  vowelsCovered text langRules = true.
Proof.
  intros Hin. apply vowelsCovered_plain_rules.
  pose proof shipped_vowel_rules as H. rewrite forallb_forall in H.
  exact (H _ Hin).
Qed.

Lemma shipped_tables_cover_vowels_witness :
  In (str "polish", polish) shippedTables /\
  vowelsCovered (str "kowalsky") polish = true.
Proof.
  split; [do 5 right; now left|].
  apply (shipped_tables_cover_vowels (str "polish") polish (str "kowalsky")).
  do 5 right. now left.
Defined.

Lemma shipped_fallbackSkipsVowels U raw cfg :
  languageRuleSets cfg = languageRuleSetsShipped ->
  fallbackSkipsVowels U raw cfg = true.
Proof.
  intros Hsets. unfold fallbackSkipsVowels. apply forallb_forall.
  intros c _. rewrite Hsets.
  destruct (languageRuleSetsShipped !! cand_language c) as [lr|] eqn:Hlr;
    [|reflexivity].
  apply elem_of_list_to_map_2, list_elem_of_In in Hlr.
  apply vowelsCovered_plain_rules.
  pose proof shipped_vowel_rules as H. rewrite forallb_forall in H.
  exact (H _ Hlr).
Qed.

(** X19. For every configuration whose rule sets are the shipped ones and
    whose [minKeyLength] is at most 1, and for every pair of names: when
    their similarity under EXACT is positive, so is their similarity under
    APPROX with the shipped merger table (both being returned). With the
    shipped tables APPROX matches whatever EXACT matches. *)
Theorem shipped_approx_matches_exact (U : Builtins) (cfg : BMPMConfig)
  (mergerE : option (list (jsstring * jsstring))) (fuel : nat)
  (a b : jsstring) (sE sA : Q) :
  languageRuleSets cfg = languageRuleSetsShipped ->
  (minKeyLength cfg <= 1)%Z ->
  bmpmSimilarity U fuel a b (withMode cfg EXACT mergerE) = Some sE ->
  bmpmSimilarity U fuel a b (withMode cfg APPROX (Some mergerApprox))
  = Some sA ->
  (0 < sE)%Q -> (0 < sA)%Q.
Proof.
  intros Hsets Hmin HsE HsA.
  assert (Hsurvive : keysSurviveFolding (minKeyLength cfg)
                       (Some mergerApprox) = true).
  { unfold keysSurviveFolding. apply orb_true_iff. right.
    apply andb_true_iff. split; [now apply Z.leb_le|].
    eapply forallb_weaken; [|apply mergerApprox_keys_values].
    intros kv H. now apply andb_true_iff in H as [_ H]. }
  pose proof (shipped_fallbackSkipsVowels U a cfg Hsets) as Hcova.
  pose proof (shipped_fallbackSkipsVowels U b cfg Hsets) as Hcovb.
  unfold bmpmSimilarity in HsE, HsA.
  destruct (bmpmEncode U fuel a (withMode cfg EXACT mergerE)) as [AE|]
    eqn:HAE; [|easy].
  destruct (bmpmEncode U fuel b (withMode cfg EXACT mergerE)) as [BE|]
    eqn:HBE; [|easy].
  destruct (bmpmEncode U fuel a (withMode cfg APPROX (Some mergerApprox)))
    as [AA|] eqn:HAA; [|easy].
  destruct (bmpmEncode U fuel b (withMode cfg APPROX (Some mergerApprox)))
    as [BA|] eqn:HBA; [|easy].
  rewrite inter_count, union_count in HsE, HsA.
  injection HsE as <-. injection HsA as <-.
  fold (jaccard (allKeys AE) (allKeys BE)).
  fold (jaccard (allKeys AA) (allKeys BA)).
  rewrite !jaccard_pos. intros (k & Hka & Hkb).
  destruct (bmpmEncode_folded U cfg mergerE (Some mergerApprox) Hsurvive
              fuel a AE AA Hcova HAE HAA k Hka) as (ka & Hka' & Hfa).
  destruct (bmpmEncode_folded U cfg mergerE (Some mergerApprox) Hsurvive
              fuel b BE BA Hcovb HBE HBA k Hkb) as (kb & Hkb' & Hfb).
  exists ka. split; [exact Hka'|].
  assert (ka = kb) as -> by (eapply foldsTo_fun; eauto).
  exact Hkb'.
Qed.

Lemma shipped_approx_matches_exact_witness :
  languageRuleSets shippedCfg = languageRuleSetsShipped /\
  (minKeyLength shippedCfg <= 1)%Z /\
  bmpmSimilarity asciiBuiltins 40 (str "Vogel") (str "Fogel")
    (withMode shippedCfg EXACT None) = Some (1 # 2)%Q /\
  bmpmSimilarity asciiBuiltins 40 (str "Vogel") (str "Fogel")
    (withMode shippedCfg APPROX (Some mergerApprox)) = Some 1%Q /\
  (0 < 1 # 2)%Q /\ (0 < 1)%Q.
Proof.
  split; [reflexivity|]. split; [simpl; lia|].
  split; [vm_compute; reflexivity|]. split; [vm_compute; reflexivity|].
  split; [reflexivity|].
  apply (shipped_approx_matches_exact asciiBuiltins shippedCfg None 40
           (str "Vogel") (str "Fogel") (1 # 2)%Q 1%Q);
    [reflexivity|simpl; lia|vm_compute; reflexivity|vm_compute; reflexivity
    |reflexivity].
Defined.

(* ------------------------------------------------------------------ *)
(** ** Keys in APPROX mode *)

Lemma collapseRepeats_noAdjacentRepeats (s : jsstring) :
  noAdjacentRepeats (collapseRepeats s) = true.
Proof. destruct s as [|c s]; [reflexivity|]. apply collapseRepeatsFrom_head. Qed.

Lemma encodeLoop_approx_no_repeats fuel text langRules cfg st ks :
  ruleType cfg = APPROX ->
  (forall k, k ∈ results st -> noAdjacentRepeats k = true) ->
  encodeLoop fuel text langRules cfg st = Some ks ->
  forall k, k ∈ ks -> noAdjacentRepeats k = true.
Proof.
  intros Hrt. revert st. induction fuel as [|fuel IH]; intros st Hres;
    [easy|].
  simpl. destruct (frontier st) as [|state rest].
  - now intros [= <-].
  - destruct (encodeStep _ _ _ _ _ _) as [st'|] eqn:Hstep; [|easy].
    apply IH. revert Hstep. unfold encodeStep.
    destruct (text !! pos state) as [ch|].
    + destruct (ch =? 32)%N; [now intros [= <-]|].
      destruct (selectApplicableRules _ _ _); now intros [= <-].
    + unfold finalizeKey. rewrite Hrt.
      destruct (applyMergerTable _ _ _) as [out|]; [|easy].
      intros [= <-] k. simpl. destruct (_ <=? _)%Z; [|apply Hres].
      rewrite elem_of_union, elem_of_singleton. intros [Hk| ->]; [auto|].
      apply collapseRepeats_noAdjacentRepeats.
Qed.

Lemma encodeLanguages_approx_no_repeats U fuel raw cfg langs out :
  ruleType cfg = APPROX ->
  encodeLanguages U fuel raw cfg langs = Some out ->
  forall r k, In r out -> k ∈ keys r -> noAdjacentRepeats k = true.
Proof.
  intros Hrt. revert out.
  induction langs as [|c langs IH]; simpl; intros out H.
  - injection H as <-. easy.
  - destruct (languageRuleSets cfg !! cand_language c) as [lr|]; [|eauto].
    destruct (preprocess U _) as [|c0 norm]; [eauto|].
    destruct (encodeWithRules _ _ _ _) as [ks|] eqn:Hks; [|easy].
    destruct (encodeLanguages _ _ _ _ _) as [out'|]; [|easy].
    injection H as <-. specialize (IH out' eq_refl).
    destruct (size ks =? 0); [exact IH|].
    intros r k [<-|Hr]; [|now apply IH]. simpl.
    apply (encodeLoop_approx_no_repeats fuel (c0 :: norm) lr cfg
             initialState ks Hrt); [|exact Hks].
    intros k' Hk'. now apply not_elem_of_empty in Hk'.
Qed.

(** X20. In APPROX mode no key that [encodeWithRules] or [bmpmEncode]
    returns holds the same code unit twice in a row. (In EXACT mode this
    can fail even with [collapseDuplicates] set: the fallback appends its
    "A" without collapsing.) *)
Theorem approx_keys_have_no_repeats (U : Builtins) (fuel : nat)
  (cfg : BMPMConfig) :
  ruleType cfg = APPROX ->
  (forall text langRules ks k,
     encodeWithRules fuel text langRules cfg = Some ks ->
     k ∈ ks -> noAdjacentRepeats k = true) /\
  (forall raw out r k,
     bmpmEncode U fuel raw cfg = Some out ->
     In r out -> k ∈ keys r -> noAdjacentRepeats k = true).
Proof.
  intros Hrt. split.
  - intros text langRules ks k H.
    apply (encodeLoop_approx_no_repeats fuel text langRules cfg
             initialState ks Hrt); [|exact H].
    intros k' Hk'. now apply not_elem_of_empty in Hk'.
  - intros raw out r k. unfold bmpmEncode. destruct (trim raw).
    + intros [= <-]. easy.
    + intros H. now apply (encodeLanguages_approx_no_repeats _ _ _ _ _ _ Hrt H).
Qed.

Lemma approx_keys_have_no_repeats_witness :
  ruleType shippedCfg = APPROX /\
  encodeWithRules 40 (str "miller") english shippedCfg
  = Some {[ str "MALAR" ]} /\
  noAdjacentRepeats (str "MALAR") = true /\
  encodeWithRules 40 (str "ab e")
    {| rules_language := str "none"; rules := [] |} (foldExactCfg true)
  = Some {[ str "AA" ]}.
Proof.
  pose proof (approx_keys_have_no_repeats asciiBuiltins 40 shippedCfg
                eq_refl) as [Hrules _].
  split; [reflexivity|].
  assert (Hm : encodeWithRules 40 (str "miller") english shippedCfg
               = Some {[ str "MALAR" ]}) by (vm_compute; reflexivity).
  split; [exact Hm|]. split.
  - apply (Hrules (str "miller") english {[ str "MALAR" ]} (str "MALAR") Hm).
    now apply elem_of_singleton.
  - vm_compute. reflexivity.
Defined.

(* ------------------------------------------------------------------ *)
(** ** Transliteration *)

Lemma cyrillicLookup_other (c : char) :
  char_in_range 1072 1103 c = false -> (c =? 1105)%N = false ->
  cyrillicLookup c = [c].
Proof.
  intros Hr He. unfold cyrillicLookup.
  assert (Hkeys : forallb
            (fun kv => char_in_range 1072 1103 (fst kv)
                       || (fst kv =? 1105)%N) cyrillicMap = true)
    by (vm_compute; reflexivity).
  assert (Hnone : forall m : list (char * string),
            forallb (fun kv => char_in_range 1072 1103 (fst kv)
                               || (fst kv =? 1105)%N) m = true ->
            List.find (fun kv => (fst kv =? c)%N) m = None).
  { induction m as [|kv m IH]; simpl; [easy|].
    intros H. apply andb_true_iff in H as [Hkv H].
    destruct (N.eqb_spec (fst kv) c) as [Heq|_]; [|exact (IH H)].
    exfalso. rewrite Heq, Hr, He in Hkv. discriminate. }
  now rewrite (Hnone cyrillicMap Hkeys).
Qed.

Lemma cyrillicLookup_letter (c : char) :
  char_in_range 1072 1103 c || (c =? 1105)%N = true ->
  forallb isLowerAsciiLetter (cyrillicLookup c) = true.
Proof.
  intros Hc.
  assert (Hall : forallb
            (fun c => forallb isLowerAsciiLetter (cyrillicLookup c))
            (1105%N :: List.map N.of_nat (seq 1072 32)) = true)
    by (vm_compute; reflexivity).
  rewrite forallb_forall in Hall. apply Hall.
  destruct (N.eq_dec c 1105%N) as [Heq|Hne]; [left; now symmetry|]. right.
  unfold char_in_range in Hc.
  apply in_map_iff. exists (N.to_nat c). split; [lia|].
  apply in_seq. lia.
Qed.

Lemma cyrillicLower_small (c : char) :
  isUpperCyrillic c = true ->
  char_in_range 1072 1103 (cyrillicLower c)
  || (cyrillicLower c =? 1105)%N = true.
Proof.
  unfold isUpperCyrillic, cyrillicLower, char_in_range.
  destruct (N.eqb_spec c 1025%N); lia.
Qed.

Lemma filter_keeps_all {A} (f : A -> bool) (l : list A) :
  forallb f l = true -> List.filter f l = l.
Proof.
  induction l as [|x l IH]; simpl; [easy|].
  intros H. apply andb_true_iff in H as [-> H]. now rewrite IH.
Qed.

Lemma forallb_filter_same {A} (f : A -> bool) (l : list A) :
  forallb f (List.filter f l) = true.
Proof.
  induction l as [|x l IH]; simpl; [easy|].
  destruct (f x) eqn:E; simpl; [now rewrite E|exact IH].
Qed.

Lemma cyrillicToLatinBasic_no_letters (s : jsstring) :
  forallb (fun c => negb (isRussianLetter c)) s = true ->
  cyrillicToLatinBasic s = List.filter isLowerOrWhiteSpace s.
Proof.
  unfold cyrillicToLatinBasic.
  induction s as [|c s IH]; simpl; [easy|].
  intros H. apply andb_true_iff in H as [Hc H].
  unfold isRussianLetter in Hc.
  apply negb_true_iff in Hc.
  apply orb_false_iff in Hc as [Hc H1105].
  apply orb_false_iff in Hc as [Hup Hlow].
  rewrite Hup, (cyrillicLookup_other c Hlow H1105). simpl.
  now rewrite (IH H).
Qed.

Lemma lowerOrWhiteSpace_no_letter (c : char) :
  isLowerOrWhiteSpace c = true -> negb (isRussianLetter c) = true.
Proof.
  unfold isLowerOrWhiteSpace, isRussianLetter, isUpperCyrillic,
    isLowerAsciiLetter, isWhiteSpace, char_in_range. lia.
Qed.

(** X21. What [cyrillicToLatinBasic] returns holds only the letters a to z
    and white space, and transliterating it again changes nothing. A
    Russian letter, capital or small, becomes lower-case Latin letters,
    and the capital gives what the small letter gives. *)
Theorem cyrillicToLatinBasic_output (s : jsstring) :
  forallb isLowerOrWhiteSpace (cyrillicToLatinBasic s) = true /\
  cyrillicToLatinBasic (cyrillicToLatinBasic s) = cyrillicToLatinBasic s /\
  (forall c, isRussianLetter c = true ->
     forallb isLowerAsciiLetter (cyrillicToLatinBasic [c]) = true) /\
  (forall c, isUpperCyrillic c = true ->
     cyrillicToLatinBasic [c] = cyrillicToLatinBasic [cyrillicLower c]).
Proof.
  assert (Hout : forall t,
            forallb isLowerOrWhiteSpace (cyrillicToLatinBasic t) = true)
    by (intros t; apply forallb_filter_same).
  split; [apply Hout|]. split; [|split].
  - rewrite (cyrillicToLatinBasic_no_letters (cyrillicToLatinBasic s)).
    + apply filter_keeps_all, Hout.
    + eapply forallb_weaken; [|apply Hout].
      apply lowerOrWhiteSpace_no_letter.
  - intros c Hc. unfold cyrillicToLatinBasic. simpl. rewrite app_nil_r.
    assert (Hl : forallb isLowerAsciiLetter
                   (cyrillicLookup
                      (if isUpperCyrillic c then cyrillicLower c else c))
                 = true).
    { apply cyrillicLookup_letter.
      destruct (isUpperCyrillic c) eqn:Hup;
        [now apply cyrillicLower_small|].
      unfold isRussianLetter in Hc. now rewrite Hup in Hc. }
    rewrite filter_keeps_all; [exact Hl|].
    eapply forallb_weaken; [|exact Hl].
    intros x Hx. unfold isLowerOrWhiteSpace. now rewrite Hx.
  - intros c Hc. unfold cyrillicToLatinBasic. simpl. rewrite Hc.
    replace (isUpperCyrillic (cyrillicLower c)) with false; [reflexivity|].
    unfold isUpperCyrillic, cyrillicLower, char_in_range in *.
    destruct (N.eqb_spec c 1025%N); lia.
Qed.

(** X22. On a string with no Russian letter [cyrillicToLatinBasic] only
    deletes: every code unit other than a to z and white space goes, so
    that an apostrophe or a hyphen joins its neighbours instead of
    separating them; a string of a to z and white space is returned as it
    is. *)
Theorem cyrillicToLatinBasic_without_cyrillic (s : jsstring) :
  forallb (fun c => negb (isRussianLetter c)) s = true ->
  cyrillicToLatinBasic s = List.filter isLowerOrWhiteSpace s /\
  (forallb isLowerOrWhiteSpace s = true -> cyrillicToLatinBasic s = s).
Proof.
  intros H. rewrite (cyrillicToLatinBasic_no_letters s H).
  split; [reflexivity|]. apply filter_keeps_all.
Qed.

Lemma cyrillicToLatinBasic_without_cyrillic_witness :
  cyrillicToLatinBasic (str "o'connor") = str "oconnor" /\
  cyrillicToLatinBasic (str "ivanov") = str "ivanov".
Proof.
  split.
  - exact (proj1 (cyrillicToLatinBasic_without_cyrillic (str "o'connor")
                    eq_refl)).
  - exact (proj2 (cyrillicToLatinBasic_without_cyrillic (str "ivanov")
                    eq_refl) eq_refl).
Defined.

Lemma In_replaceEach cls rep (s : jsstring) (x : char) :
  In x (replaceEach cls rep s) -> In x rep \/ (In x s /\ cls x = false).
Proof.
  unfold replaceEach. induction s as [|c s IH]; simpl; [easy|].
  rewrite in_app_iff. intros [H|H].
  - destruct (cls c) eqn:E; [now left|]. right.
    destruct H as [->|[]]. split; [now left|exact E].
  - destruct (IH H) as [Hr|[Hs Hc]]; [now left|]. right.
    split; [now right|exact Hc].
Qed.

Lemma In_replaceChar c rep (s : jsstring) (x : char) :
  In x (replaceChar c rep s) -> In x (str rep) \/ In x s.
Proof.
  intros H. apply In_replaceEach in H as [H|[H _]]; [now left|now right].
Qed.

Lemma replacePair_id a b rep (s : jsstring) :
  ~ In b s -> replacePair a b rep s = s.
Proof.
  induction s as [|x t IH]; [easy|].
  intros Hb. cbn [replacePair]. destruct t as [|y r]; [reflexivity|].
  assert (Hy : (y =? b)%N = false).
  { apply N.eqb_neq. intros ->. apply Hb. right. now left. }
  rewrite Hy, andb_false_r. f_equal. apply IH.
  intros Hin. apply Hb. now right.
Qed.

Lemma In_replacePair a b rep (s : jsstring) (x : char) :
  In x (replacePair a b rep s) -> In x rep \/ In x s.
Proof.
  assert (H : forall n s, length s <= n ->
            In x (replacePair a b rep s) -> In x rep \/ In x s).
  { clear s. induction n as [|n IH]; intros s Hn.
    - destruct s; [easy|simpl in Hn; lia].
    - destruct s as [|c t]; [easy|]. cbn [replacePair].
      destruct t as [|y r]; [now right|].
      simpl in Hn. destruct ((c =? a)%N && (y =? b)%N).
      + rewrite in_app_iff. intros [H|H]; [now left|].
        destruct (IH r ltac:(lia) H) as [H'|H']; [now left|].
        right. right. now right.
      + intros [->|H]; [right; now left|].
        destruct (IH (y :: r) ltac:(simpl; lia) H) as [H'|H']; [now left|].
        right. now right. }
  apply (H (length s) s). lia.
Qed.

Lemma In_insertVowelBeforeVi (s : jsstring) (x : char) :
  In x (insertVowelBeforeVi s) -> In x (str "evi") \/ In x s.
Proof.
  assert (H : forall n s, length s <= n ->
            In x (insertVowelBeforeVi s) -> In x (str "evi") \/ In x s).
  { clear s. induction n as [|n IH]; intros s Hn.
    - destruct s; [easy|simpl in Hn; lia].
    - destruct s as [|c1 t]; [easy|]. cbn [insertVowelBeforeVi].
      assert (Hstep : In x (c1 :: insertVowelBeforeVi t) ->
                      In x (str "evi") \/ In x (c1 :: t)).
      { intros [->|H]; [right; now left|].
        simpl in Hn.
        destruct (IH t ltac:(lia) H) as [H'|H']; [now left|].
        right. now right. }
      destruct t as [|v [|c3 rest]]; [exact Hstep|exact Hstep|].
      destruct (isLatinConsonant c1 && (v =? 118)%N && isIOrY c3
                && wordEndsBefore rest); [|exact Hstep].
      intros [->|H]; [right; now left|].
      apply in_app_iff in H as [H|H]; [now left|].
      simpl in Hn.
      destruct (IH rest ltac:(lia) H) as [H'|H']; [now left|].
      right. right. right. now right. }
  apply (H (length s) s). lia.
Qed.

Lemma hebrewDigraphs_no_geresh (s : jsstring) :
  ~ In 1523%N (hebrewDigraphs s).
Proof.
  unfold hebrewDigraphs. intros H.
  repeat (apply In_replaceChar in H as [H|H];
          [simpl in H; intuition lia|]).
  apply In_replaceEach in H as [H|[_ H]]; [easy|]. easy.
Qed.

(** X23. In [hebrewToLatinBasic] the replacements of gimel with geresh by
    "j" and of zayin with geresh by "zh" never apply: the first
    replacement has deleted every geresh. The result is that of the
    other replacements alone, and it holds a "j" only where the input
    did. *)
Theorem hebrew_geresh_replacements_never_apply (s : jsstring) :
  hebrewGeresh (hebrewDigraphs s) = hebrewDigraphs s /\
  hebrewToLatinBasic s = hebrewLetters (hebrewDigraphs s) /\
  (In 106%N (hebrewToLatinBasic s) -> In 106%N s).
Proof.
  assert (Hdead : hebrewGeresh (hebrewDigraphs s) = hebrewDigraphs s).
  { unfold hebrewGeresh.
    rewrite (replacePair_id 1490 1523 (str "j"))
      by apply hebrewDigraphs_no_geresh.
    apply replacePair_id, hebrewDigraphs_no_geresh. }
  split; [exact Hdead|].
  unfold hebrewToLatinBasic. rewrite Hdead. split; [reflexivity|].
  unfold hebrewLetters, hebrewDigraphs. intros H.
  apply In_insertVowelBeforeVi in H as [H|H]; [simpl in H; intuition lia|].
  repeat
    (first [ apply In_replaceChar in H as [H|H]
           | apply In_replaceEach in H as [H|[H _]] ];
     [simpl in H; intuition lia|]).
  exact H.
Qed.

(** Gimel with geresh comes out as "g", and so does gimel alone. *)
Example hebrewToLatinBasic_gimel_geresh :
  hebrewToLatinBasic [1490; 1523]%N = str "g" /\
  hebrewToLatinBasic [1490]%N = str "g".
Proof. split; reflexivity. Qed.
